(** * String similarity algorithms of recordlinkage: a shallow embedding

    This development embeds [recordlinkage/algorithms/string.py] and states
    the properties of its similarity functions.

    Conventions of the embedding.
    - A Python [str] is a list of characters; an element of a pandas Series
      is an optional string, [None] standing for the missing-value marker
      ([np.nan] or [None]).
    - Numbers are exact rationals ([Q]); every division result is reduced
      with [Qred], so equal values have equal representations.  The values
      [nan] and [inf] that numpy produces on a zero divisor are constructors
      of their own.
    - Exceptions and calls to [warnings.warn] are explicit: a computation
      returns the list of warnings it issued and either an exception or a
      value.  The [while True] loops run on fuel.
    - The collaborators (jellyfish's distance primitives and scikit-learn's
      n-gram analyzer) are parameters. *)

From Stdlib Require Import ZArith QArith Qminmax Reals Psatz Lia.
From Stdlib Require Import String Ascii List.
From stdpp Require Import base list sorting.
Import ListNotations.

Close Scope Q_scope.
Close Scope R_scope.
Close Scope Z_scope.
Open Scope nat_scope.

(** ** Python values *)

Abbreviation pystr := (list ascii).

(** An element of a Series: a string, or a missing value. *)
Abbreviation elem := (option pystr).

Abbreviation series := (list elem).

Definition str (s : string) : pystr := list_ascii_of_string s.

Inductive exn :=
| ValueError (msg : string)
| TypeError
| ZeroDivisionError
| AssertionError (msg : string)
| LibraryError (code : nat).

(** A numpy/Python float: a finite number, an infinity or nan. *)
Inductive npfloat :=
| Fin (q : Q)
| Inf (negative : bool)
| NaN.

(** What a per-pair function may return: a number or Python's [None]. *)
Inductive pyval :=
| PyNone
| PyNum (x : npfloat).

(** ** Computations with exceptions and a log of issued warnings *)

Inductive outcome (A : Type) :=
| Raised (e : exn)
| Returned (a : A)
| Unfinished.

Arguments Raised {A} e.
Arguments Returned {A} a.
Arguments Unfinished {A}.

(** [Unfinished] is the outcome of a loop that was given too little fuel;
    it is not an exception and no handler sees it. *)
Definition M (A : Type) : Type := list string * outcome A.

Definition ret {A} (a : A) : M A := ([], Returned a).

Definition raise {A} (e : exn) : M A := ([], Raised e).

Definition unfinished {A} : M A := ([], Unfinished).

Definition warn (msg : string) : M unit := ([msg], Returned tt).

Definition bind {A B} (c : M A) (k : A -> M B) : M B :=
  match c with
  | (w, Raised e) => (w, Raised e)
  | (w, Unfinished) => (w, Unfinished)
  | (w, Returned a) => let '(w', r) := k a in (w ++ w', r)
  end.

(** [try: c except Exception as err: h err] *)
Definition try_except {A} (c : M A) (h : exn -> M A) : M A :=
  match c with
  | (w, Raised e) => let '(w', r) := h e in (w ++ w', r)
  | other => other
  end.

Declare Scope py_scope.
Delimit Scope py_scope with py.
Notation "'let*' x ':=' c 'in' k" := (bind c (fun x => k))
  (at level 10, x name, c at level 100, k at level 200) : py_scope.
Open Scope py_scope.

(** A library call that returns or raises without issuing warnings. *)
Definition lift {A} (r : exn + A) : M A :=
  match r with
  | inl e => raise e
  | inr a => ret a
  end.

(** ** Arithmetic *)

(** Python's true division of two numbers ([from __future__ import division]):
    a zero divisor raises. *)
Definition py_truediv (n d : Q) : M Q :=
  if Qeq_bool d 0 then raise ZeroDivisionError else ret (Qred (n / d)).

(** numpy's true division of integers: a zero divisor gives [nan] or an
    infinity (and a warning that the module filters out), never an exception. *)
Definition np_truediv (n d : Z) : npfloat :=
  if (d =? 0)%Z then (if (n =? 0)%Z then NaN else Inf (n <? 0)%Z)
  else Fin (Qred (inject_Z n / inject_Z d)).

(** [1 - v] for a numpy float [v]. *)
Definition one_minus (v : npfloat) : npfloat :=
  match v with
  | Fin q => Fin (Qred (1 - q))
  | Inf neg => Inf (negb neg)
  | NaN => NaN
  end.

(** ** pandas *)

Definition isnull (x : elem) : bool :=
  match x with None => true | Some _ => false end.

(** [len(x)]: a missing value is a float, which has no length. *)
Definition py_len (x : elem) : M nat :=
  match x with
  | Some s => ret (length s)
  | None => raise TypeError
  end.

(** [pandas.concat([s1, s2], axis=1, ignore_index=True)] on two Series with
    the default index: the rows are joined on the index, and where one Series
    is shorter its column is filled with the missing value. *)
Fixpoint concat_axis1 (s1 s2 : series) : list (elem * elem) :=
  match s1 with
  | [] => map (fun y => (None, y)) s2
  | x :: s1' =>
      match s2 with
      | [] => map (fun x => (x, None)) s1
      | y :: s2' => (x, y) :: concat_axis1 s1' s2'
      end
  end.

(** [conc.apply(f, axis=1)]: the rows in order; the first exception ends it. *)
Fixpoint apply_axis1 {A B} (f : A -> M B) (rows : list A) : M (list B) :=
  match rows with
  | [] => ret []
  | r :: rows' =>
      let* v := f r in
      let* vs := apply_axis1 f rows' in
      ret (v :: vs)
  end.

(** [s.fillna('')] *)
Definition fillna (s : series) : list pystr := map (default []) s.

Definition length_mismatch : exn :=
  ValueError "Arrays or Series have to be same length.".

(** ** jellyfish: the primitive distances, a collaborator *)

Record jellyfish := {
  jaro_distance : pystr -> pystr -> exn + Q;
  jaro_winkler : pystr -> pystr -> exn + Q;
  levenshtein_distance : pystr -> pystr -> exn + nat;
  damerau_levenshtein_distance : pystr -> pystr -> exn + nat
}.

(** A primitive called on two elements: it rejects anything that is not a
    string with a [TypeError]. *)
Definition jf_call {A} (f : pystr -> pystr -> exn + A) (x0 x1 : elem) : M A :=
  match x0, x1 with
  | Some a, Some b => lift (f a b)
  | _, _ => raise TypeError
  end.

(** The handler shared by the per-pair functions:
    [if pandas.isnull(x[0]) or pandas.isnull(x[1]): return np.nan
     else: raise err]. *)
Definition nan_if_null (x : elem * elem) (err : exn) : M pyval :=
  if isnull (fst x) || isnull (snd x) then ret (PyNum NaN) else raise err.

Section EditDistance.
Variable jf : jellyfish.

Definition jaro_apply (x : elem * elem) : M pyval :=
  try_except
    (let* q := jf_call (jaro_distance jf) (fst x) (snd x) in
     ret (PyNum (Fin q)))
    (nan_if_null x).

Definition jaro_similarity (s1 s2 : series) : M (list pyval) :=
  let conc := concat_axis1 s1 s2 in
  apply_axis1 jaro_apply conc.

Definition jaro_winkler_apply (x : elem * elem) : M pyval :=
  try_except
    (let* q := jf_call (jaro_winkler jf) (fst x) (snd x) in
     ret (PyNum (Fin q)))
    (nan_if_null x).

Definition jarowinkler_similarity (s1 s2 : series) : M (list pyval) :=
  let conc := concat_axis1 s1 s2 in
  apply_axis1 jaro_winkler_apply conc.

Definition levenshtein_apply (x : elem * elem) : M pyval :=
  try_except
    (let* d := jf_call (levenshtein_distance jf) (fst x) (snd x) in
     let* n0 := py_len (fst x) in
     let* n1 := py_len (snd x) in
     ret (PyNum (one_minus
            (np_truediv (Z.of_nat d) (Z.of_nat (Nat.max n0 n1))))))
    (nan_if_null x).

Definition levenshtein_similarity (s1 s2 : series) : M (list pyval) :=
  let conc := concat_axis1 s1 s2 in
  apply_axis1 levenshtein_apply conc.

Definition damerau_levenshtein_apply (x : elem * elem) : M pyval :=
  try_except
    (let* d := jf_call (damerau_levenshtein_distance jf) (fst x) (snd x) in
     let* n0 := py_len (fst x) in
     let* n1 := py_len (snd x) in
     ret (PyNum (one_minus
            (np_truediv (Z.of_nat d) (Z.of_nat (Nat.max n0 n1))))))
    (nan_if_null x).

Definition damerau_levenshtein_similarity (s1 s2 : series) : M (list pyval) :=
  let conc := concat_axis1 s1 s2 in
  apply_axis1 damerau_levenshtein_apply conc.

End EditDistance.

(** ** scikit-learn's CountVectorizer, a collaborator

    [CountVectorizer(analyzer, strip_accents, ngram_range)] turns a document
    into a list of n-grams with its analyzer; the analyzer is a parameter of
    the embedding.  [fit_transform] is modelled from its contract: the
    vocabulary is the sorted list of the distinct n-grams of all documents,
    row [i] of the result counts each vocabulary n-gram in document [i], and
    an empty vocabulary is refused with a [ValueError]. *)

Inductive analyzer_kind := char_wb | char.

Definition analyzer_builder :=
  analyzer_kind -> nat * nat -> pystr -> list pystr.

#[global] Instance ascii_eq_dec : EqDecision ascii := ascii_dec.

(** Strings are ordered by code point, lexicographically. *)
Fixpoint str_leb (a b : pystr) : bool :=
  match a, b with
  | [], _ => true
  | _ :: _, [] => false
  | x :: a', y :: b' =>
      if (N_of_ascii x <? N_of_ascii y)%N then true
      else if (N_of_ascii x =? N_of_ascii y)%N then str_leb a' b'
      else false
  end.

Definition str_le (a b : pystr) : Prop := str_leb a b = true.

#[global] Instance str_le_dec : RelDecision str_le.
Proof. intros a b. unfold str_le. apply _. Defined.

Definition vocabulary (analyze : pystr -> list pystr) (data : list pystr)
  : list pystr :=
  merge_sort str_le (remove_dups (concat (map analyze data))).

Definition count (g : pystr) (grams : list pystr) : nat :=
  length (filter (fun h => h = g) grams).

(** The row of a document: the count of each vocabulary n-gram in it. *)
Definition count_row (analyze : pystr -> list pystr) (vocab : list pystr)
  (doc : pystr) : list nat :=
  map (fun g => count g (analyze doc)) vocab.

Definition count_matrix (analyze : pystr -> list pystr) (data : list pystr)
  : list (list nat) :=
  let vocab := vocabulary analyze data in
  map (count_row analyze vocab) data.

Definition empty_vocabulary : exn :=
  ValueError "empty vocabulary; perhaps the documents only contain stop words".

Definition fit_transform (analyze : pystr -> list pystr) (data : list pystr)
  : M (list (list nat)) :=
  match vocabulary analyze data with
  | [] => raise empty_vocabulary
  | _ :: _ => ret (count_matrix analyze data)
  end.

(** ** q-gram and cosine similarity *)

(** A real-valued numpy float, for the results that go through [np.sqrt]. *)
Inductive rfloat :=
| RFin (r : R)
| RInf (negative : bool)
| RNaN.

(** [np.divide] on floats. *)
Definition np_divide (n d : R) : rfloat :=
  if Req_dec_T d 0 then
    (if Req_dec_T n 0 then RNaN
     else RInf (if Rlt_dec n 0 then true else false))
  else RFin (n / d).

Definition dot (u v : list nat) : nat := sum_list (zip_with Nat.mul u v).

(** Row by row: [u.minimum(v).sum(axis=1)] over
    [np.maximum(u.sum(axis=1), v.sum(axis=1))]. *)
Definition _metric_sparse_euclidean (u v : list (list nat)) : list npfloat :=
  zip_with (fun ui vi =>
    let match_ngrams := sum_list (zip_with Nat.min ui vi) in
    let total_ngrams := Nat.max (sum_list ui) (sum_list vi) in
    np_truediv (Z.of_nat match_ngrams) (Z.of_nat total_ngrams)) u v.

Definition _metric_sparse_cosine (u v : list (list nat)) : list rfloat :=
  zip_with (fun ui vi =>
    let a := sqrt (INR (dot ui ui)) in
    let b := sqrt (INR (dot vi vi)) in
    let ab := INR (dot vi ui) in
    np_divide ab (a * b)%R) u v.

Section VectorSpace.
Variable build_analyzer : analyzer_builder.

Definition qgram_similarity (s1 s2 : series) (include_wb : bool)
  (ngram : nat * nat) : M (list pyval) :=
  if negb (length s1 =? length s2) then raise length_mismatch
  else if (length s1 =? 0) && (length s2 =? 0) then ret []
  else
    let analyzer := if include_wb then char_wb else char in
    let data := fillna (s1 ++ s2) in
    let* vec_fit := fit_transform (build_analyzer analyzer ngram) data in
    ret (map PyNum
           (_metric_sparse_euclidean (take (length s1) vec_fit)
                                     (drop (length s1) vec_fit))).

Definition cosine_similarity (s1 s2 : series) (include_wb : bool)
  (ngram : nat * nat) : M (list rfloat) :=
  if negb (length s1 =? length s2) then raise length_mismatch
  else if (length s1 =? 0) && (length s2 =? 0) then ret []
  else
    let analyzer := if include_wb then char_wb else char in
    let data := fillna (s1 ++ s2) in
    let* vec_fit := fit_transform (build_analyzer analyzer ngram) data in
    ret (_metric_sparse_cosine (take (length s1) vec_fit)
                               (drop (length s1) vec_fit)).

End VectorSpace.

(** The generalized Jaccard coefficient of two count vectors: the sum of the
    minima over the sum of the maxima. *)
Definition generalized_jaccard (u v : list nat) : npfloat :=
  np_truediv (Z.of_nat (sum_list (zip_with Nat.min u v)))
             (Z.of_nat (sum_list (zip_with Nat.max u v))).

(** A reference analyzer for plain lowercase text without accents: the
    sliding windows of each length in the range, and for [char_wb] the same
    over each white-space separated word padded with one space on both
    sides (a padded word shorter than the window counts once). *)
Definition windows (n : nat) (w : pystr) : list pystr :=
  map (fun i => take n (drop i w)) (seq 0 (length w - n + 1)).

Definition is_space (c : ascii) : bool :=
  let k := nat_of_ascii c in (k =? 32) || ((9 <=? k) && (k <=? 13)).

Fixpoint split_words (cur : pystr) (text : pystr) : list pystr :=
  match text with
  | [] => match cur with [] => [] | _ => [rev cur] end
  | c :: text' =>
      if is_space c
      then match cur with
           | [] => split_words [] text'
           | _ => rev cur :: split_words [] text'
           end
      else split_words (c :: cur) text'
  end.

Definition reference_analyzer : analyzer_builder :=
  fun kind ngram text =>
    let '(min_n, max_n) := ngram in
    match kind with
    | char =>
        concat (map (fun n => windows n text)
                  (seq min_n (Nat.min (max_n + 1) (length text + 1) - min_n)))
    | char_wb =>
        concat (map (fun w =>
          let w := (" "%char :: w) ++ [" "%char] in
          concat (map (fun n =>
                    if length w <=? n then [take n w] else windows n w)
                  (seq min_n (max_n + 1 - min_n))))
          (split_words [] text))
    end.

(** ** Matrices as lists of rows, read and written by index

    The loops below only use indices inside the matrix, so the defaults of
    the reads are never returned and the writes never fall out of range. *)

Definition get2 {A} (d : A) (mat : list (list A)) (x y : nat) : A :=
  default d (mat !! x ≫= (.!! y)).

Definition set2 {A} (mat : list (list A)) (x y : nat) (v : A)
  : list (list A) :=
  match mat !! x with
  | Some row => <[x := <[y := v]> row]> mat
  | None => mat
  end.

(** [[[v] * cols for _ in range(rows)]]: the rows are distinct lists. *)
Definition matrix {A} (rows cols : nat) (v : A) : list (list A) :=
  replicate rows (replicate cols v).

(** A matrix with [r] rows of [c] cells each. *)
Definition dims {A} (mat : list (list A)) (r c : nat) : Prop :=
  length mat = r /\ Forall (fun row => length row = c) mat.

(** [s1[x] == s2[y]] for indices inside both strings. *)
Definition char_eqb (s1 : pystr) (x : nat) (s2 : pystr) (y : nat) : bool :=
  bool_decide (s1 !! x = s2 !! y).

(** ** Smith-Waterman *)

Module SmithWaterman.

(** The labels kept in the trace matrix: ["D"], ["A"] and ["L"]. *)
Inductive label := D | A | L.

#[global] Instance label_eq_dec : EqDecision label.
Proof. solve_decision. Defined.

Record state := {
  m : list (list Q);
  trace : list (list (list label));
  highest : Q
}.

Section Params.
Variables (match_ mismatch gap_start gap_continue : Q) (norm : string).

Section Pair.
Variables str1 str2 : pystr.

(** The body of the two nested loops, at cell [(x, y)]. *)
Definition cell (st : state) (x y : nat) : state :=
  let diagonal :=
    if char_eqb str1 (x - 1) str2 (y - 1)
    then (get2 0 (m st) (x - 1) (y - 1) + match_)%Q
    else (get2 0 (m st) (x - 1) (y - 1) + mismatch)%Q in
  let gap_left :=
    if bool_decide (L ∈ get2 [] (trace st) (x - 1) y)
    then (get2 0 (m st) (x - 1) y + gap_continue)%Q
    else (get2 0 (m st) (x - 1) y + gap_start)%Q in
  let gap_above :=
    if bool_decide (A ∈ get2 [] (trace st) x (y - 1))
    then (get2 0 (m st) x (y - 1) + gap_continue)%Q
    else (get2 0 (m st) x (y - 1) + gap_start)%Q in
  let score := Qmax (Qmax diagonal gap_left) gap_above in
  let '(score, labels) :=
    if Qle_bool score 0 then (0%Q, [])
    else (score,
          (if Qeq_bool score diagonal then [D] else []) ++
          (if Qeq_bool score gap_above then [A] else []) ++
          (if Qeq_bool score gap_left then [L] else [])) in
  {| m := set2 (m st) x y score;
     trace := set2 (trace st) x y (get2 [] (trace st) x y ++ labels);
     highest := if Qlt_le_dec (highest st) score then score else highest st |}.

Definition init : state :=
  {| m := matrix (1 + length str1) (1 + length str2) 0%Q;
     trace := matrix (1 + length str1) (1 + length str2) [];
     highest := 0%Q |}.

Definition row (st : state) (x : nat) : state :=
  fold_left (fun st y => cell st x y) (seq 1 (length str2)) st.

Definition run : state :=
  fold_left row (seq 1 (length str1)) init.

Definition compute_score : Q := highest run.

Definition normalize (score : Q) : M pyval :=
  if String.eqb norm "min" then
    let* r := py_truediv score
                (inject_Z (Z.of_nat (Nat.min (length str1) (length str2)))
                 * match_)%Q in
    ret (PyNum (Fin r))
  else if String.eqb norm "max" then
    let* r := py_truediv score
                (inject_Z (Z.of_nat (Nat.max (length str1) (length str2)))
                 * match_)%Q in
    ret (PyNum (Fin r))
  else if String.eqb norm "mean" then
    let* r := py_truediv (2 * score)%Q
                (inject_Z (Z.of_nat (length str1 + length str2))
                 * match_)%Q in
    ret (PyNum (Fin r))
  else ret PyNone.

End Pair.

Definition sw_apply (t : elem * elem) : M pyval :=
  try_except
    (let* len1 := py_len (fst t) in
     if len1 =? 0 then ret (PyNum (Fin 0))
     else
       let* len2 := py_len (snd t) in
       if len2 =? 0 then ret (PyNum (Fin 0))
       else
         let str1 := default [] (fst t) in
         let str2 := default [] (snd t) in
         normalize str1 str2 (compute_score str1 str2))
    (nan_if_null t).

Definition smith_waterman_similarity (s1 s2 : series) : M (list pyval) :=
  if negb (Qle_bool (Qmax (Qmax mismatch gap_start) gap_continue) match_)
  then raise (AssertionError
    "match must be greater than or equal to mismatch, gap_start, and gap_continue")
  else if negb (length s1 =? length s2) then raise length_mismatch
  else if (length s1 =? 0) && (length s2 =? 0) then ret []
  else
    let concat := concat_axis1 s1 s2 in
    apply_axis1 sw_apply concat.

End Params.
End SmithWaterman.

(** ** Longest common substring *)

Module LCS.

Record state := {
  m : list (list nat);
  longest : nat;
  x_longest : nat;
  y_longest : nat
}.

Section Params.
Variables (norm : string) (min_len : Z).

Section Pair.
Variables str1 str2 : pystr.

(** The body of the two nested loops of [lcs_iteration], at cell [(x, y)]. *)
Definition cell (st : state) (x y : nat) : state :=
  if char_eqb str1 (x - 1) str2 (y - 1) then
    let v := get2 0 (m st) (x - 1) (y - 1) + 1 in
    let m' := set2 (m st) x y v in
    if longest st <? v
    then {| m := m'; longest := v; x_longest := x; y_longest := y |}
    else {| m := m'; longest := longest st;
            x_longest := x_longest st; y_longest := y_longest st |}
  else
    {| m := set2 (m st) x y 0; longest := longest st;
       x_longest := x_longest st; y_longest := y_longest st |}.

Definition init : state :=
  {| m := matrix (1 + length str1) (1 + length str2) 0;
     longest := 0; x_longest := 0; y_longest := 0 |}.

Definition row (st : state) (x : nat) : state :=
  fold_left (fun st y => cell st x y) (seq 1 (length str2)) st.

Definition run : state :=
  fold_left row (seq 1 (length str1)) init.

End Pair.

(** One round: the length of a longest common substring and the two strings
    without it.  A missing string, or one shorter than [min_len], gives
    [((None, None), 0)]. *)
Definition lcs_iteration (x : elem * elem) : (elem * elem) * nat :=
  match x with
  | (Some str1, Some str2) =>
      if (Z.of_nat (Nat.min (length str1) (length str2)) <? min_len)%Z
      then ((None, None), 0)
      else
        let st := run str1 str2 in
        let new_str1 :=
          take (x_longest st - longest st) str1 ++ drop (x_longest st) str1 in
        let new_str2 :=
          take (y_longest st - longest st) str2 ++ drop (y_longest st) str2 in
        ((Some new_str1, Some new_str2), longest st)
  | _ => ((None, None), 0)
  end.

(** The [while True] loop of [lcs_apply], for one ordering. *)
Fixpoint accumulate (fuel : nat) (new_x : elem * elem) (lcs_acc : nat)
  : M nat :=
  match fuel with
  | O => unfinished
  | S fuel' =>
      let '(iter_x, iter_lcs) := lcs_iteration new_x in
      if (Z.of_nat iter_lcs <? min_len)%Z then ret lcs_acc
      else accumulate fuel' iter_x (lcs_acc + iter_lcs)
  end.

Definition dice (x : pystr * pystr) (lcs_value : nat) : M Q :=
  py_truediv (inject_Z (Z.of_nat lcs_value * 2))
             (inject_Z (Z.of_nat (length (fst x) + length (snd x)))).

Definition normalize_lcs (x : pystr * pystr) (lcs_value : nat) : M Q :=
  if String.eqb norm "overlap" then
    py_truediv (inject_Z (Z.of_nat lcs_value))
               (inject_Z (Z.of_nat (Nat.min (length (fst x)) (length (snd x)))))
  else if String.eqb norm "jaccard" then
    py_truediv (inject_Z (Z.of_nat lcs_value))
               (inject_Z (Z.of_nat (length (fst x)) + Z.of_nat (length (snd x))
                          - Z.abs (Z.of_nat lcs_value)))
  else if String.eqb norm "dice" then dice x lcs_value
  else
    let* _ := warn
      "Unrecognized longest common substring normalization. Defaulting to dice method." in
    dice x lcs_value.

Definition lcs_apply (fuel : nat) (x : elem * elem) : M pyval :=
  match x with
  | (Some x0, Some x1) =>
      let* lcs_acc_1 := accumulate fuel (Some x0, Some x1) 0 in
      let* lcs_acc_2 := accumulate fuel (Some x1, Some x0) 0 in
      let* n1 := normalize_lcs (x0, x1) lcs_acc_1 in
      let* n2 := normalize_lcs (x0, x1) lcs_acc_2 in
      let* r := py_truediv (n1 + n2) 2 in
      ret (PyNum (Fin r))
  | _ => ret (PyNum NaN)
  end.

Definition longest_common_substring_similarity (fuel : nat)
  (s1 s2 : series) : M (list pyval) :=
  if negb (length s1 =? length s2) then raise length_mismatch
  else if (length s1 =? 0) && (length s2 =? 0) then ret []
  else
    let conc := concat_axis1 s1 s2 in
    apply_axis1 (lcs_apply fuel) conc.

End Params.
End LCS.

(** ** A reference instance of the jellyfish interface

    The textbook definitions, used to run the scorers on examples:
    Levenshtein's distance, its variant with adjacent transpositions
    (optimal string alignment), Jaro's similarity and Winkler's prefix
    boost.  None of them raises. *)

Module Reference.

Fixpoint levenshtein (a b : pystr) : nat :=
  match a with
  | [] => length b
  | x :: a' =>
      (fix inner (b : pystr) : nat :=
         match b with
         | [] => length a
         | y :: b' =>
             Nat.min (Nat.min (S (levenshtein a' b)) (S (inner b')))
                     ((if bool_decide (x = y) then 0 else 1)
                      + levenshtein a' b')
         end) b
  end.

Fixpoint osa (a b : pystr) : nat :=
  match a with
  | [] => length b
  | x :: a' =>
      (fix inner (b : pystr) : nat :=
         match b with
         | [] => length a
         | y :: b' =>
             let d :=
               Nat.min (Nat.min (S (osa a' b)) (S (inner b')))
                       ((if bool_decide (x = y) then 0 else 1) + osa a' b') in
             match a', b' with
             | x2 :: a'', y2 :: b'' =>
                 if bool_decide (x = y2) && bool_decide (x2 = y)
                 then Nat.min d (S (osa a'' b''))
                 else d
             | _, _ => d
             end
         end) b
  end.

(** The first unflagged position of [s2] inside the window that holds [c]. *)
Definition find_match (c : ascii) (s2 : pystr) (flags : list bool)
  (low hi : nat) : option nat :=
  find (fun j => negb (default true (flags !! j))
                 && bool_decide (s2 !! j = Some c))
       (seq low (hi + 1 - low)).

Definition matching (s1 s2 : pystr) : list bool * list bool :=
  let search_range := Nat.max (length s1) (length s2) / 2 - 1 in
  fold_left (fun '(f1, f2) i =>
      match s1 !! i with
      | Some c =>
          match find_match c s2 f2 (i - search_range)
                  (Nat.min (i + search_range) (length s2 - 1)) with
          | Some j => (<[i := true]> f1, <[j := true]> f2)
          | None => (f1, f2)
          end
      | None => (f1, f2)
      end)
    (seq 0 (length s1))
    (replicate (length s1) false, replicate (length s2) false).

Definition flagged (s : pystr) (flags : list bool) : pystr :=
  map fst (filter (fun p => snd p = true) (zip s flags)).

Definition jaro (s1 s2 : pystr) : Q :=
  if (length s1 =? 0) || (length s2 =? 0) then 0%Q
  else
    let '(f1, f2) := matching s1 s2 in
    let m1 := flagged s1 f1 in
    let m2 := flagged s2 f2 in
    let common := length m1 in
    if common =? 0 then 0%Q
    else
      let trans :=
        length (filter (fun p => fst p ≠ snd p) (zip m1 m2)) / 2 in
      let c := inject_Z (Z.of_nat common) in
      Qred ((c / inject_Z (Z.of_nat (length s1))
             + c / inject_Z (Z.of_nat (length s2))
             + (c - inject_Z (Z.of_nat trans)) / c) / 3)%Q.

Fixpoint common_prefix (n : nat) (s1 s2 : pystr) : nat :=
  match n, s1, s2 with
  | S n', x :: s1', y :: s2' =>
      if bool_decide (x = y) then S (common_prefix n' s1' s2') else 0
  | _, _, _ => 0
  end.

Definition winkler (s1 s2 : pystr) : Q :=
  let weight := jaro s1 s2 in
  if Qle_bool weight (7 # 10) then weight
  else
    let i := inject_Z (Z.of_nat (common_prefix 4 s1 s2)) in
    Qred (weight + i * (1 # 10) * (1 - weight))%Q.

Definition jf : jellyfish :=
  {| jaro_distance := fun a b => inr (jaro a b);
     jaro_winkler := fun a b => inr (winkler a b);
     levenshtein_distance := fun a b => inr (levenshtein a b);
     damerau_levenshtein_distance := fun a b => inr (osa a b) |}.

End Reference.

(** ** The cells of the Smith-Waterman matrices, read off a state

    The three candidate scores of cell [(x, y)] as the loop body computes
    them from the neighbouring cells, and what the body stores. *)

Section SmithWatermanCell.
Variables (match_ mismatch gap_start gap_continue : Q) (str1 str2 : pystr).
Variable st : SmithWaterman.state.

Definition sw_score (x y : nat) : Q := get2 0%Q (SmithWaterman.m st) x y.

Definition sw_labels (x y : nat) : list SmithWaterman.label :=
  get2 [] (SmithWaterman.trace st) x y.

Definition sw_diagonal (x y : nat) : Q :=
  (sw_score (x - 1) (y - 1)
   + (if char_eqb str1 (x - 1) str2 (y - 1) then match_ else mismatch))%Q.

Definition sw_gap_left (x y : nat) : Q :=
  (sw_score (x - 1) y
   + (if bool_decide (SmithWaterman.L ∈ sw_labels (x - 1) y)
      then gap_continue else gap_start))%Q.

Definition sw_gap_above (x y : nat) : Q :=
  (sw_score x (y - 1)
   + (if bool_decide (SmithWaterman.A ∈ sw_labels x (y - 1))
      then gap_continue else gap_start))%Q.

Definition sw_best (x y : nat) : Q :=
  Qmax (Qmax (sw_diagonal x y) (sw_gap_left x y)) (sw_gap_above x y).

(** The candidate a label stands for. *)
Definition sw_move (lab : SmithWaterman.label) (x y : nat) : Q :=
  match lab with
  | SmithWaterman.D => sw_diagonal x y
  | SmithWaterman.A => sw_gap_above x y
  | SmithWaterman.L => sw_gap_left x y
  end.

Definition cell_score (x y : nat) : Q :=
  if Qle_bool (sw_best x y) 0 then 0%Q else sw_best x y.

Definition cell_labels (x y : nat) : list SmithWaterman.label :=
  if Qle_bool (sw_best x y) 0 then []
  else (if Qeq_bool (sw_best x y) (sw_diagonal x y)
        then [SmithWaterman.D] else []) ++
       (if Qeq_bool (sw_best x y) (sw_gap_above x y)
        then [SmithWaterman.A] else []) ++
       (if Qeq_bool (sw_best x y) (sw_gap_left x y)
        then [SmithWaterman.L] else []).

(** Cell [(x, y)] holds what the loop body stores there. *)
Definition cell_ok (x y : nat) : Prop :=
  sw_score x y = cell_score x y /\ sw_labels x y = cell_labels x y.

End SmithWatermanCell.

(** The cells the loops have been through when they reach [(x, y)], for a
    second string of length [len2]. *)
Definition processed (len2 x y i j : nat) : Prop :=
  1 <= i /\ 1 <= j <= len2 /\ (i < x \/ (i = x /\ j < y)).

(** ** Greedy extraction of common substrings, as a relation

    The iterative procedure in words: as long as the two strings have a
    common substring of at least [min_len] characters, take a longest one,
    count its length, cut its first occurrence out of each string and go on
    with what is left. *)

Definition common_substring (w s1 s2 : pystr) : Prop :=
  (exists p q, s1 = p ++ w ++ q) /\ (exists p q, s2 = p ++ w ++ q).

Definition longest_common_substring (w s1 s2 : pystr) : Prop :=
  common_substring w s1 s2
  /\ forall w', common_substring w' s1 s2 -> length w' <= length w.

(** [s] is [p ++ w ++ q] and [w] does not occur in [s] further left. *)
Definition first_occurrence (w p q s : pystr) : Prop :=
  s = p ++ w ++ q
  /\ forall p' q', s = p' ++ w ++ q' -> length p <= length p'.

Inductive greedy_total (min_len : Z) : pystr -> pystr -> nat -> Prop :=
| greedy_stop (s1 s2 : pystr) :
    (forall w, common_substring w s1 s2 -> (Z.of_nat (length w) < min_len)%Z) ->
    greedy_total min_len s1 s2 0
| greedy_round (s1 s2 w p1 q1 p2 q2 : pystr) (n : nat) :
    longest_common_substring w s1 s2 ->
    (min_len <= Z.of_nat (length w))%Z ->
    first_occurrence w p1 q1 s1 ->
    first_occurrence w p2 q2 s2 ->
    greedy_total min_len (p1 ++ q1) (p2 ++ q2) n ->
    greedy_total min_len s1 s2 (length w + n).


(** The length of the longest common suffix of the first [i] characters of
    [str1] and the first [j] characters of [str2]: what cell [(i, j)] of the
    matrix of [lcs_iteration] holds. *)
Fixpoint common_suffix (str1 str2 : pystr) (i j : nat) : nat :=
  match i, j with
  | S i', S j' =>
      if char_eqb str1 i' str2 j' then S (common_suffix str1 str2 i' j')
      else 0
  | _, _ => 0
  end.

(** [match] times [k]: the most a Smith-Waterman cell with smaller index
    [k] can hold when gaps do not score. *)
Definition score_cap (match_ : Q) (k : nat) : Q :=
  (match_ * inject_Z (Z.of_nat k))%Q.

(** ** The invariants of the two dynamic programs *)

(** Two states that agree on a cell. *)
Definition agree (st st' : SmithWaterman.state) (i j : nat) : Prop :=
  sw_score st' i j = sw_score st i j /\ sw_labels st' i j = sw_labels st i j.

Section SmithWatermanLoop.
Variables (match_ mismatch gap_start gap_continue : Q) (str1 str2 : pystr).

(** What holds of the state when the loops of [compute_score] reach cell
    [(x, y)]: the cells gone through hold what the body stores, the others
    are as initialized, and [highest] is the largest score so far. *)
Record sw_inv (x y : nat) (st : SmithWaterman.state) : Prop := {
  inv_m : dims (SmithWaterman.m st) (1 + length str1) (1 + length str2);
  inv_trace : dims (SmithWaterman.trace st)
                (1 + length str1) (1 + length str2);
  inv_fresh : forall i j, ~ processed (length str2) x y i j ->
                sw_score st i j = 0%Q /\ sw_labels st i j = [];
  inv_cells : forall i j, processed (length str2) x y i j ->
                cell_ok match_ mismatch gap_start gap_continue str1 str2
                  st i j;
  inv_bound : forall i j, (sw_score st i j <= SmithWaterman.highest st)%Q;
  inv_attained : exists i j, i <= length str1 /\ j <= length str2
                   /\ (sw_score st i j == SmithWaterman.highest st)%Q
}.

End SmithWatermanLoop.

(** [(i, j)] comes before [(x, y)] in the order of the loops. *)
Definition earlier (i j x y : nat) : Prop := i < x \/ (i = x /\ j < y).

Section LCSLoop.
Variables str1 str2 : pystr.

(** The value the loop body writes into cell [(x, y)]. *)
Definition lcs_value (st : LCS.state) (x y : nat) : nat :=
  if char_eqb str1 (x - 1) str2 (y - 1)
  then get2 0 (LCS.m st) (x - 1) (y - 1) + 1 else 0.

(** What holds of the state when the loops of [lcs_iteration] reach cell
    [(x, y)]: the cells gone through hold the common suffix lengths, and
    [longest] is the largest of them, first reached at
    [(x_longest, y_longest)]. *)
Record lcs_inv (x y : nat) (st : LCS.state) : Prop := {
  lcs_dims : dims (LCS.m st) (1 + length str1) (1 + length str2);
  lcs_fresh : forall i j, ~ processed (length str2) x y i j ->
                get2 0 (LCS.m st) i j = 0;
  lcs_cells : forall i j, processed (length str2) x y i j ->
                get2 0 (LCS.m st) i j = common_suffix str1 str2 i j;
  lcs_bound : forall i j, processed (length str2) x y i j ->
                common_suffix str1 str2 i j <= LCS.longest st;
  lcs_first :
    (LCS.longest st = 0 /\ LCS.x_longest st = 0 /\ LCS.y_longest st = 0)
    \/ (0 < LCS.longest st
        /\ processed (length str2) x y (LCS.x_longest st) (LCS.y_longest st)
        /\ common_suffix str1 str2 (LCS.x_longest st) (LCS.y_longest st)
           = LCS.longest st
        /\ forall i j, 1 <= i -> 1 <= j <= length str2 ->
             earlier i j (LCS.x_longest st) (LCS.y_longest st) ->
             common_suffix str1 str2 i j < LCS.longest st)
}.

End LCSLoop.

(** ** Vocabulary of the further properties *)

(** A score as the docstrings promise it: the missing-value marker or a
    number between 0 and 1. *)
Definition unit_score (v : pyval) : Prop :=
  v = PyNum NaN \/ exists r, v = PyNum (Fin r) /\ (0 <= r)%Q /\ (r <= 1)%Q.

(** The text of the warning of [normalize_lcs]. *)
Definition unrecognized_norm : string :=
  "Unrecognized longest common substring normalization. Defaulting to dice method.".

(** The same for the real-valued scores of the cosine similarity. *)
Definition runit_score (v : rfloat) : Prop :=
  v = RNaN \/ exists r, v = RFin r /\ (0 <= r)%R /\ (r <= 1)%R.

(** A result with one score for each row of the padded frame of two
    Series, nan on every row where an element is missing. *)
Definition padded_scores (s1 s2 : series) (result : M (list pyval)) : Prop :=
  exists scores,
    result = ret scores
    /\ length scores = Nat.max (length s1) (length s2)
    /\ forall i, i < length scores ->
         isnull (default None (s1 !! i)) || isnull (default None (s2 !! i))
         = true ->
         scores !! i = Some (PyNum NaN).

(** ** First-fit matching, the device behind the symmetry of Jaro

    Jaro's matching phase gives every position of the first string, in
    order, the first free position of the second string it may be paired
    with.  [first_fit] is that procedure over an arbitrary relation [E] of
    admissible pairs, keeping the pairs themselves; [stable] says of a set
    of pairs what first fit achieves, in a form that does not prefer a
    side. *)

Definition taken (M : list (nat * nat)) (j : nat) : bool :=
  bool_decide (j ∈ M.*2).

Definition first_fit_step (E : nat -> nat -> bool) (n2 : nat)
  (M : list (nat * nat)) (i : nat) : list (nat * nat) :=
  match find (fun j => E i j && negb (taken M j)) (seq 0 n2) with
  | Some j => (i, j) :: M
  | None => M
  end.

Definition first_fit (E : nat -> nat -> bool) (n1 n2 : nat)
  : list (nat * nat) :=
  fold_left (first_fit_step E n2) (seq 0 n1) [].

(** [M] pairs admissible positions below [n1] and [n2], no position
    twice, and every admissible pair [(i, j)] has [i] paired at or before
    [j], or [j] paired at or before [i]. *)
Definition stable (E : nat -> nat -> bool) (n1 n2 : nat)
  (M : list (nat * nat)) : Prop :=
  (forall i j, (i, j) ∈ M -> i < n1 /\ j < n2 /\ E i j = true)
  /\ (forall i j j', (i, j) ∈ M -> (i, j') ∈ M -> j = j')
  /\ (forall i i' j, (i, j) ∈ M -> (i', j) ∈ M -> i = i')
  /\ (forall i j, i < n1 -> j < n2 -> E i j = true ->
        (exists j', j' <= j /\ (i, j') ∈ M)
        \/ (exists i', i' <= i /\ (i', j) ∈ M)).

(** The flags of the positions below [n] that occur in [S]. *)
Definition flags_of (n : nat) (S : list nat) : list bool :=
  (fun k => bool_decide (k ∈ S)) <$> seq 0 n.

(** The pairs Jaro's matching may form: equal characters at most
    [search_range] positions apart. *)
Definition jaro_edge (s1 s2 : pystr) (i j : nat) : bool :=
  let search_range := Nat.max (length s1) (length s2) / 2 - 1 in
  (i <=? j + search_range) && (j <=? i + search_range)
  && match s1 !! i, s2 !! j with
     | Some c, Some c' => bool_decide (c = c')
     | _, _ => false
     end.

(** * Properties *)

(** ** The computation monad *)

Lemma bind_ret {A B} (a : A) (k : A -> M B) : bind (ret a) k = k a.
Proof. unfold bind, ret. destruct (k a) as [w r]. reflexivity. Qed.

Lemma bind_raise {A B} (e : exn) (k : A -> M B) : bind (raise e) k = raise e.
Proof. reflexivity. Qed.

Lemma try_except_ret {A} (a : A) (h : exn -> M A) :
  try_except (ret a) h = ret a.
Proof. reflexivity. Qed.

Lemma try_except_raise {A} (e : exn) (h : exn -> M A) :
  try_except (raise e) h = h e.
Proof. unfold try_except, raise. destruct (h e) as [w r]. reflexivity. Qed.

Lemma apply_axis1_singleton {A B} (f : A -> M B) (r : A) (v : B) :
  f r = ret v -> apply_axis1 f [r] = ret [v].
Proof. intros H. simpl. rewrite H. reflexivity. Qed.

(** ** Edit-distance scorers *)


Lemma levenshtein_apply_present (jf : jellyfish) (a b : pystr) (d : nat) :
  levenshtein_distance jf a b = inr d ->
  levenshtein_apply jf (Some a, Some b)
  = ret (PyNum (one_minus
           (np_truediv (Z.of_nat d)
                       (Z.of_nat (Nat.max (length a) (length b)))))).
Proof. intros H. unfold levenshtein_apply. simpl. rewrite H. reflexivity. Qed.

Lemma damerau_levenshtein_apply_present (jf : jellyfish) (a b : pystr)
  (d : nat) :
  damerau_levenshtein_distance jf a b = inr d ->
  damerau_levenshtein_apply jf (Some a, Some b)
  = ret (PyNum (one_minus
           (np_truediv (Z.of_nat d)
                       (Z.of_nat (Nat.max (length a) (length b)))))).
Proof.
  intros H. unfold damerau_levenshtein_apply. simpl. rewrite H. reflexivity.
Qed.



(** ** Missing values and exceptions in the per-pair functions *)

Lemma jf_call_missing {A} (f : pystr -> pystr -> exn + A) (x0 x1 : elem) :
  isnull x0 || isnull x1 = true -> jf_call f x0 x1 = raise TypeError.
Proof. destruct x0, x1; simpl; intros H; try discriminate H; reflexivity. Qed.

(** A missing element on either side gives nan in the four scorers built on
    jellyfish: the primitive raises and the handler sees the missing value. *)
Lemma edit_distance_missing (jf : jellyfish) (x : elem * elem) :
  isnull (fst x) || isnull (snd x) = true ->
  jaro_apply jf x = ret (PyNum NaN)
  /\ jaro_winkler_apply jf x = ret (PyNum NaN)
  /\ levenshtein_apply jf x = ret (PyNum NaN)
  /\ damerau_levenshtein_apply jf x = ret (PyNum NaN).
Proof.
  intros H.
  unfold jaro_apply, jaro_winkler_apply, levenshtein_apply,
    damerau_levenshtein_apply.
  rewrite !(jf_call_missing _ _ _ H), !bind_raise, !try_except_raise.
  unfold nan_if_null. rewrite H. repeat split.
Qed.

(** An exception of the primitive on two present strings reaches the caller
    unchanged. *)
Lemma edit_distance_reraise (jf : jellyfish) (a b : pystr) (e : exn) :
  (jaro_distance jf a b = inl e ->
   jaro_apply jf (Some a, Some b) = raise e)
  /\ (jaro_winkler jf a b = inl e ->
      jaro_winkler_apply jf (Some a, Some b) = raise e)
  /\ (levenshtein_distance jf a b = inl e ->
      levenshtein_apply jf (Some a, Some b) = raise e)
  /\ (damerau_levenshtein_distance jf a b = inl e ->
      damerau_levenshtein_apply jf (Some a, Some b) = raise e).
Proof.
  unfold jaro_apply, jaro_winkler_apply, levenshtein_apply,
    damerau_levenshtein_apply.
  repeat split; intros H; simpl; rewrite H; reflexivity.
Qed.

(** On two present strings the handler re-raises whatever was raised: the
    [try] statement changes nothing. *)
Lemma try_except_present (c : M pyval) (a b : pystr) :
  try_except c (nan_if_null (Some a, Some b)) = c.
Proof.
  destruct c as [w [e|v|]]; simpl; [|reflexivity|reflexivity].
  rewrite app_nil_r. reflexivity.
Qed.

Lemma lcs_apply_missing (norm : string) (min_len : Z) (fuel : nat)
  (x : elem * elem) :
  isnull (fst x) || isnull (snd x) = true ->
  LCS.lcs_apply norm min_len fuel x = ret (PyNum NaN).
Proof.
  destruct x as [[a|] [b|]]; simpl; intros H; try discriminate H;
    reflexivity.
Qed.

Section SmithWatermanMissing.
Variables (match_ mismatch gap_start gap_continue : Q) (norm : string).

Lemma sw_apply_missing_first (y : elem) :
  SmithWaterman.sw_apply match_ mismatch gap_start gap_continue norm (None, y)
  = ret (PyNum NaN).
Proof. reflexivity. Qed.

Lemma sw_apply_missing_second (a : pystr) :
  a <> [] ->
  SmithWaterman.sw_apply match_ mismatch gap_start gap_continue norm
    (Some a, None) = ret (PyNum NaN).
Proof. destruct a; [congruence|]. reflexivity. Qed.

(** C5. The claim asks for the missing-value marker whenever either element
    is missing.  With an empty first string and a missing second one
    [sw_apply] returns 0: the test [len(str1) == 0] succeeds before
    [len(str2)] can raise, so the handler that maps missing values to nan
    never runs. *)
Theorem sw_apply_empty_then_missing :
  SmithWaterman.sw_apply match_ mismatch gap_start gap_continue norm
    (Some [], None) = ret (PyNum (Fin 0))
  /\ SmithWaterman.smith_waterman_similarity 5 (-5) (-5) (-1) "mean"
       [Some []] [None] = ret [PyNum (Fin 0)].
Proof. split; reflexivity. Qed.

End SmithWatermanMissing.

(** ** Smith-Waterman: the normalization step *)

Section SmithWatermanNorm.
Variables (match_ mismatch gap_start gap_continue : Q) (norm : string).

Lemma normalize_unknown (str1 str2 : pystr) (score : Q) :
  norm <> "min"%string -> norm <> "max"%string -> norm <> "mean"%string ->
  SmithWaterman.normalize match_ norm str1 str2 score = ret PyNone.
Proof.
  intros Hmin Hmax Hmean. unfold SmithWaterman.normalize.
  apply String.eqb_neq in Hmin, Hmax, Hmean.
  rewrite Hmin, Hmax, Hmean. reflexivity.
Qed.

(** C10. For two present non-empty strings and a [norm] other than "min",
    "max" and "mean", [normalize] falls through all its tests: the pair's
    result is [None], with no exception, no warning and no default
    normalization. *)
Theorem smith_waterman_unknown_norm (a b : pystr) :
  a <> [] -> b <> [] ->
  norm <> "min"%string -> norm <> "max"%string -> norm <> "mean"%string ->
  (forall score,
     SmithWaterman.normalize match_ norm a b score = ret PyNone)
  /\ SmithWaterman.sw_apply match_ mismatch gap_start gap_continue norm
       (Some a, Some b) = ret PyNone
  /\ (Qle_bool (Qmax (Qmax mismatch gap_start) gap_continue) match_ = true ->
      SmithWaterman.smith_waterman_similarity
        match_ mismatch gap_start gap_continue norm [Some a] [Some b]
      = ret [PyNone]).
Proof.
  intros Ha Hb Hmin Hmax Hmean.
  assert (Hn : forall score,
    SmithWaterman.normalize match_ norm a b score = ret PyNone)
    by (intros; apply normalize_unknown; assumption).
  assert (Hp : SmithWaterman.sw_apply match_ mismatch gap_start gap_continue
                 norm (Some a, Some b) = ret PyNone).
  { unfold SmithWaterman.sw_apply. destruct a as [|c a']; [congruence|].
    destruct b as [|c' b']; [congruence|]. simpl. rewrite Hn. reflexivity. }
  repeat split; try assumption.
  intros Hassert. unfold SmithWaterman.smith_waterman_similarity.
  rewrite Hassert. simpl.
  change (apply_axis1
            (SmithWaterman.sw_apply match_ mismatch gap_start gap_continue norm)
            [(Some a, Some b)] = ret [PyNone]).
  apply apply_axis1_singleton. exact Hp.
Qed.

End SmithWatermanNorm.

Lemma smith_waterman_unknown_norm_witness :
  SmithWaterman.sw_apply 5 (-5) (-5) (-1) "median"
    (Some (str "abc"), Some (str "abd")) = ret PyNone.
Proof.
  refine (proj1 (proj2 (smith_waterman_unknown_norm 5 (-5) (-5) (-1) "median"
                          (str "abc") (str "abd") _ _ _ _ _)));
    intros H; discriminate H.
Defined.

(** C8. The docstring promises values between 0 and 1, and the assertion
    accepts every [match] that is at least the three other scores.  With a
    positive gap score a gap adds to the raw score, which then exceeds
    [min(len) * match]: for "a" against "ab" with match 2 and gap scores 1
    the raw score is 3 and the "min" normalization gives 3/2. *)
Theorem smith_waterman_exceeds_one :
  Qle_bool (Qmax (Qmax (-1) 1) 1) 2 = true
  /\ SmithWaterman.compute_score 2 (-1) 1 1 (str "a") (str "ab") = 3%Q
  /\ SmithWaterman.smith_waterman_similarity 2 (-1) 1 1 "min"
       [Some (str "a")] [Some (str "ab")] = ret [PyNum (Fin (3 # 2))]
  /\ ~ (3 # 2 <= 1)%Q.
Proof.
  split; [reflexivity|]. split; [vm_compute; reflexivity|].
  split; [vm_compute; reflexivity|]. unfold Qle. simpl. lia.
Qed.

(** ** Longest common substring: short strings *)

(** C3. For two empty strings the claim asks for score 0 and no error.  The
    round returns length 0 and the loop stops at once, but [normalize_lcs]
    then divides 0 by 0 with Python's own division, which raises. *)
Theorem lcs_both_empty_raises (fuel : nat) :
  LCS.lcs_apply "dice" 2 (S fuel) (Some [], Some [])
  = raise ZeroDivisionError
  /\ LCS.longest_common_substring_similarity "dice" 2 (S fuel)
       [Some []] [Some []] = raise ZeroDivisionError
  /\ LCS.longest_common_substring_similarity "jaccard" 2 (S fuel)
       [Some []] [Some []] = raise ZeroDivisionError
  /\ LCS.longest_common_substring_similarity "overlap" 2 (S fuel)
       [Some []] [Some (str "abc")] = raise ZeroDivisionError.
Proof. repeat split. Qed.

(** Outside the zero denominators the short-string case is as the claim
    says: the first round returns 0, nothing is accumulated and the score
    is 0. *)
Lemma lcs_short_strings_dice (min_len : Z) (fuel : nat) (a b : pystr) :
  (1 <= min_len)%Z ->
  (Z.of_nat (Nat.min (length a) (length b)) < min_len)%Z ->
  0 < length a + length b ->
  LCS.lcs_apply "dice" min_len (S fuel) (Some a, Some b) = ret (PyNum (Fin 0)).
Proof.
  intros Hmin Hshort Hlen. unfold LCS.lcs_apply. simpl.
  rewrite (Nat.min_comm (length b) (length a)).
  destruct (Z.ltb_spec (Z.of_nat (Nat.min (length a) (length b))) min_len)
    as [_|]; [|lia].
  destruct (Z.ltb_spec (Z.of_nat 0) min_len) as [_|]; [|lia].
  rewrite !bind_ret. unfold LCS.normalize_lcs, LCS.dice. simpl.
  unfold py_truediv.
  destruct (Qeq_bool (inject_Z (Z.of_nat (length a + length b))) 0) eqn:E.
  - apply Qeq_bool_eq in E. unfold Qeq in E. simpl in E. lia.
  - rewrite !bind_ret. reflexivity.
Qed.

(** ** The length check *)

(** C2, as stated, fails on the four scorers built on jellyfish: they make
    no length check, [pandas.concat] pads the shorter Series with missing
    values and the padded rows score nan. *)
Lemma edit_distance_no_length_check :
  length [Some (str "a")] <> length [Some (str "a"); Some (str "b")]
  /\ jaro_similarity Reference.jf
       [Some (str "a")] [Some (str "a"); Some (str "b")]
     = ret [PyNum (Fin 1); PyNum NaN]
  /\ jarowinkler_similarity Reference.jf
       [Some (str "a")] [Some (str "a"); Some (str "b")]
     = ret [PyNum (Fin 1); PyNum NaN]
  /\ levenshtein_similarity Reference.jf
       [Some (str "a")] [Some (str "a"); Some (str "b")]
     = ret [PyNum (Fin 1); PyNum NaN]
  /\ damerau_levenshtein_similarity Reference.jf
       [Some (str "a")] [Some (str "a"); Some (str "b")]
     = ret [PyNum (Fin 1); PyNum NaN].
Proof. split; [simpl; lia|]. repeat split; vm_compute; reflexivity. Qed.

(** C2, amended.  The q-gram, cosine, Smith-Waterman and longest common
    substring similarities raise the length-mismatch error on two Series of
    different lengths, whatever the elements are and before any pair is
    looked at (for Smith-Waterman, once the assertion on its scores has
    passed). *)
Theorem length_mismatch_raised (build : analyzer_builder) (s1 s2 : series)
  (include_wb : bool) (ngram : nat * nat)
  (match_ mismatch gap_start gap_continue : Q) (norm lcs_norm : string)
  (min_len : Z) (fuel : nat) :
  length s1 <> length s2 ->
  qgram_similarity build s1 s2 include_wb ngram = raise length_mismatch
  /\ cosine_similarity build s1 s2 include_wb ngram = raise length_mismatch
  /\ (Qle_bool (Qmax (Qmax mismatch gap_start) gap_continue) match_ = true ->
      SmithWaterman.smith_waterman_similarity
        match_ mismatch gap_start gap_continue norm s1 s2
      = raise length_mismatch)
  /\ LCS.longest_common_substring_similarity lcs_norm min_len fuel s1 s2
     = raise length_mismatch.
Proof.
  intros Hlen. apply Nat.eqb_neq in Hlen.
  unfold qgram_similarity, cosine_similarity,
    SmithWaterman.smith_waterman_similarity,
    LCS.longest_common_substring_similarity.
  rewrite Hlen. simpl. repeat split. intros ->. reflexivity.
Qed.

Lemma length_mismatch_raised_witness :
  qgram_similarity reference_analyzer
    [Some (str "abc")] [Some (str "abd"); None] true (2, 2)
  = raise length_mismatch.
Proof.
  refine (proj1 (length_mismatch_raised reference_analyzer
                   [Some (str "abc")] [Some (str "abd"); None] true (2, 2)
                   5 (-5) (-5) (-1) "mean" "dice" 2 10 _)).
  simpl. lia.
Defined.

(** ** q-gram similarity *)

Lemma map_fmap {A B} (f : A -> B) (l : list A) : map f l = f <$> l.
Proof. reflexivity. Qed.

Lemma zip_with_map_same {A B C D} (f : B -> C -> D) (g : A -> B) (h : A -> C)
  (l : list A) :
  zip_with f (map g l) (map h l) = map (fun x => f (g x) (h x)) l.
Proof. induction l as [|x l IH]; simpl; [reflexivity|]. now rewrite IH. Qed.

Lemma length_fillna (s : series) : length (fillna s) = length s.
Proof. unfold fillna. apply length_map. Qed.

(** The rows of the two halves of the fitted matrix, at an index of the
    Series. *)
Lemma fit_transform_cases (analyze : pystr -> list pystr)
  (data : list pystr) :
  (vocabulary analyze data = []
   /\ fit_transform analyze data = raise empty_vocabulary)
  \/ (vocabulary analyze data <> []
      /\ fit_transform analyze data = ret (count_matrix analyze data)).
Proof.
  unfold fit_transform. destruct (vocabulary analyze data); [left|right];
    split; congruence.
Qed.

Lemma count_matrix_halves (analyze : pystr -> list pystr) (s1 s2 : series)
  (i : nat) (a b : elem) :
  length s1 = length s2 ->
  s1 !! i = Some a -> s2 !! i = Some b ->
  let vec_fit := count_matrix analyze (fillna (s1 ++ s2)) in
  let vocab := vocabulary analyze (fillna (s1 ++ s2)) in
  take (length s1) vec_fit !! i
  = Some (count_row analyze vocab (default [] a))
  /\ drop (length s1) vec_fit !! i
     = Some (count_row analyze vocab (default [] b)).
Proof.
  intros Hlen Ha Hb vec_fit vocab.
  assert (Hi : i < length s1) by (eapply lookup_lt_Some; eassumption).
  subst vec_fit. unfold count_matrix. fold vocab.
  unfold fillna. rewrite !map_fmap. split.
  - rewrite lookup_take_lt by assumption.
    rewrite !list_lookup_fmap, lookup_app_l by assumption.
    rewrite Ha. reflexivity.
  - rewrite lookup_drop, !list_lookup_fmap.
    rewrite lookup_app_r by lia.
    replace (length s1 + i - length s1) with i by lia.
    rewrite Hb. reflexivity.
Qed.

(** C1, as stated, fails: the code divides by the larger of the two total
    counts, not by the sum of the maxima.  For "abc" and "abd" with bigrams
    and no word boundary the count vectors over the vocabulary
    ["ab"; "bc"; "bd"] are [1; 1; 0] and [1; 0; 1]: the code returns
    1/2 where the generalized Jaccard coefficient is 1/3. *)
Lemma qgram_is_not_jaccard :
  vocabulary (reference_analyzer char (2, 2)) [str "abc"; str "abd"]
  = [str "ab"; str "bc"; str "bd"]
  /\ fit_transform (reference_analyzer char (2, 2)) [str "abc"; str "abd"]
     = ret [[1; 1; 0]; [1; 0; 1]]
  /\ qgram_similarity reference_analyzer
       [Some (str "abc")] [Some (str "abd")] false (2, 2)
     = ret [PyNum (Fin (1 # 2))]
  /\ generalized_jaccard [1; 1; 0] [1; 0; 1] = Fin (1 # 3)
  /\ ~ (1 # 2 == 1 # 3)%Q.
Proof.
  repeat split; try (vm_compute; reflexivity).
  intros H. discriminate H.
Qed.

(** C1, amended.  For every aligned pair (a missing value counting as the
    empty string) the q-gram similarity is the sum over the vocabulary of
    [min(countA[g], countB[g])] divided by the larger of the two totals
    [sum countA[g]] and [sum countB[g]]; 0/0 gives nan.  (The vocabulary
    must not be empty: the vectorizer refuses a batch without n-grams.) *)
Theorem qgram_similarity_formula (build : analyzer_builder) (s1 s2 : series)
  (include_wb : bool) (ngram : nat * nat) (i : nat) (a b : elem) :
  length s1 = length s2 ->
  s1 !! i = Some a -> s2 !! i = Some b ->
  let analyze := build (if include_wb then char_wb else char) ngram in
  let vocab := vocabulary analyze (fillna (s1 ++ s2)) in
  vocab <> [] ->
  let countA := fun g => count g (analyze (default [] a)) in
  let countB := fun g => count g (analyze (default [] b)) in
  exists scores,
    qgram_similarity build s1 s2 include_wb ngram = ret scores
    /\ length scores = length s1
    /\ scores !! i
       = Some (PyNum (np_truediv
           (Z.of_nat (sum_list
              (map (fun g => Nat.min (countA g) (countB g)) vocab)))
           (Z.of_nat (Nat.max (sum_list (map countA vocab))
                              (sum_list (map countB vocab)))))).
Proof.
  intros Hlen Ha Hb analyze vocab Hvocab countA countB.
  assert (Hi : i < length s1) by (eapply lookup_lt_Some; eassumption).
  unfold qgram_similarity. rewrite Hlen, Nat.eqb_refl. simpl negb.
  destruct (Nat.eqb_spec (length s2) 0) as [E|_]; [lia|]. simpl andb.
  cbv iota. rewrite <- Hlen. fold analyze.
  destruct (fit_transform_cases analyze (fillna (s1 ++ s2)))
    as [[Hnil _]|[_ ->]]; [contradiction|].
  rewrite bind_ret.
  eexists. split; [reflexivity|].
  destruct (count_matrix_halves analyze s1 s2 i a b Hlen Ha Hb) as [Hu Hv].
  fold vocab in Hu, Hv. split.
  - rewrite length_map. unfold _metric_sparse_euclidean.
    rewrite length_zip_with, length_take, length_drop.
    unfold count_matrix. rewrite length_map, length_fillna, length_app. lia.
  - rewrite map_fmap, list_lookup_fmap. unfold _metric_sparse_euclidean.
    rewrite lookup_zip_with, Hu. simpl. rewrite Hv. simpl.
    unfold count_row. rewrite zip_with_map_same. reflexivity.
Qed.

Lemma qgram_similarity_formula_witness :
  exists scores,
    qgram_similarity reference_analyzer
      [Some (str "abc")] [Some (str "abd")] false (2, 2) = ret scores
    /\ length scores = 1
    /\ scores !! 0 = Some (PyNum (Fin (1 # 2))).
Proof.
  refine (qgram_similarity_formula reference_analyzer
            [Some (str "abc")] [Some (str "abd")] false (2, 2) 0
            (Some (str "abc")) (Some (str "abd")) _ _ _ _);
    try reflexivity.
  vm_compute. intros H. discriminate H.
Defined.

(** ** Symmetry *)

(** The order on n-grams is a total order, so a sorted vocabulary is
    determined by its set of n-grams. *)

Lemma N_of_ascii_inj (x y : ascii) : N_of_ascii x = N_of_ascii y -> x = y.
Proof.
  intros H. rewrite <- (ascii_N_embedding x), <- (ascii_N_embedding y), H.
  reflexivity.
Qed.

Ltac order_cases :=
  repeat match goal with
  | |- context [(?x <? ?y)%N] => destruct (N.ltb_spec x y)
  | |- context [(?x =? ?y)%N] => destruct (N.eqb_spec x y)
  | H : context [(?x <? ?y)%N] |- _ => destruct (N.ltb_spec x y)
  | H : context [(?x =? ?y)%N] |- _ => destruct (N.eqb_spec x y)
  end.

#[global] Instance str_le_transitive : Transitive str_le.
Proof.
  unfold str_le. intros a. induction a as [|x a IH]; intros b c.
  - reflexivity.
  - destruct b as [|y b]; [discriminate|].
    destruct c as [|z c]; [intros _ H; exact H|]. simpl.
    order_cases; try discriminate; try lia; try reflexivity.
    apply IH.
Qed.

#[global] Instance str_le_antisymm : AntiSymm eq str_le.
Proof.
  unfold str_le. intros a. induction a as [|x a IH]; intros b.
  - destruct b; [reflexivity|discriminate].
  - destruct b as [|y b]; [discriminate|]. simpl.
    order_cases; try discriminate; try lia.
    intros Hab Hba. f_equal; [apply N_of_ascii_inj; assumption|].
    apply IH; assumption.
Qed.

#[global] Instance str_le_total : Total str_le.
Proof.
  unfold str_le. intros a. induction a as [|x a IH]; intros b.
  - left. reflexivity.
  - destruct b as [|y b]; [right; reflexivity|]. simpl.
    order_cases; try lia; auto.
Qed.

(** The vocabulary does not depend on the order of the documents. *)
Lemma vocabulary_Permutation (analyze : pystr -> list pystr)
  (d1 d2 : list pystr) :
  d1 ≡ₚ d2 -> vocabulary analyze d1 = vocabulary analyze d2.
Proof.
  intros Hp. unfold vocabulary.
  apply (Sorted_unique str_le); try apply Sorted_merge_sort; try apply _.
  rewrite !merge_sort_Permutation.
  apply NoDup_Permutation; try apply NoDup_remove_dups.
  intros g. rewrite !elem_of_remove_dups.
  assert (Hc : concat (map analyze d1) ≡ₚ concat (map analyze d2)).
  { clear g. induction Hp; simpl.
    - reflexivity.
    - rewrite IHHp. reflexivity.
    - rewrite !app_assoc. apply Permutation_app_tail, Permutation_app_comm.
    - etransitivity; eassumption. }
  rewrite Hc. reflexivity.
Qed.

Lemma vocabulary_swap (analyze : pystr -> list pystr) (s1 s2 : series) :
  vocabulary analyze (fillna (s1 ++ s2))
  = vocabulary analyze (fillna (s2 ++ s1)).
Proof.
  apply vocabulary_Permutation. unfold fillna.
  rewrite !map_app. apply Permutation_app_comm.
Qed.

(** The two halves of the fitted matrix are the rows of the two Series. *)
Lemma count_matrix_take_drop (analyze : pystr -> list pystr)
  (s1 s2 : series) :
  let vec_fit := count_matrix analyze (fillna (s1 ++ s2)) in
  let vocab := vocabulary analyze (fillna (s1 ++ s2)) in
  take (length s1) vec_fit = map (count_row analyze vocab) (fillna s1)
  /\ drop (length s1) vec_fit = map (count_row analyze vocab) (fillna s2).
Proof.
  intros vec_fit vocab. subst vec_fit. unfold count_matrix. fold vocab.
  clearbody vocab.
  replace (fillna (s1 ++ s2)) with (fillna s1 ++ fillna s2)
    by (unfold fillna; rewrite map_app; reflexivity).
  rewrite map_app.
  replace (length s1)
    with (length (map (count_row analyze vocab) (fillna s1)))
    by (rewrite length_map; apply length_fillna).
  rewrite take_app_length, drop_app_length. split; reflexivity.
Qed.

Lemma zip_with_comm {A B} (f : A -> A -> B) (l k : list A) :
  (forall x y, f x y = f y x) -> zip_with f l k = zip_with f k l.
Proof.
  intros Hf. revert k. induction l as [|x l IH]; intros [|y k]; simpl;
    try reflexivity.
  rewrite Hf, IH. reflexivity.
Qed.

Lemma dot_comm (u v : list nat) : dot u v = dot v u.
Proof. unfold dot. f_equal. apply zip_with_comm. intros; lia. Qed.

Lemma _metric_sparse_euclidean_comm (u v : list (list nat)) :
  _metric_sparse_euclidean u v = _metric_sparse_euclidean v u.
Proof.
  unfold _metric_sparse_euclidean. apply zip_with_comm. intros x y.
  rewrite (zip_with_comm Nat.min x y), Nat.max_comm by (intros; lia).
  reflexivity.
Qed.

Lemma _metric_sparse_cosine_comm (u v : list (list nat)) :
  _metric_sparse_cosine u v = _metric_sparse_cosine v u.
Proof.
  unfold _metric_sparse_cosine. apply zip_with_comm. intros x y.
  rewrite (dot_comm y x), Rmult_comm. reflexivity.
Qed.

Lemma concat_axis1_swap (s1 s2 : series) :
  concat_axis1 s2 s1 = map (fun r => (snd r, fst r)) (concat_axis1 s1 s2).
Proof.
  revert s2. induction s1 as [|x s1 IH]; intros [|y s2]; simpl;
    try reflexivity.
  - rewrite map_map. reflexivity.
  - rewrite map_map. reflexivity.
  - rewrite IH. reflexivity.
Qed.

Lemma concat_axis1_present (s1 s2 : series) (a b : pystr) :
  In (Some a, Some b) (concat_axis1 s1 s2) ->
  exists i, s1 !! i = Some (Some a) /\ s2 !! i = Some (Some b).
Proof.
  revert s2. induction s1 as [|x s1 IH]; intros [|y s2]; simpl.
  - intros [].
  - intros [H|H]; [discriminate|]. apply in_map_iff in H.
    destruct H as (? & H & _). discriminate.
  - intros [H|H]; [discriminate|]. apply in_map_iff in H.
    destruct H as (? & H & _). discriminate.
  - intros [H|H].
    + injection H as -> ->. exists 0. split; reflexivity.
    + destruct (IH _ H) as (i & H1 & H2). exists (S i). split; assumption.
Qed.

Lemma apply_axis1_ext {A B} (f g : A -> M B) (rows : list A) :
  (forall r, In r rows -> f r = g r) ->
  apply_axis1 f rows = apply_axis1 g rows.
Proof.
  induction rows as [|r rows IH]; intros H; simpl; [reflexivity|].
  rewrite (H r) by (left; reflexivity).
  rewrite IH by (intros; apply H; right; assumption). reflexivity.
Qed.

Lemma apply_axis1_map {A A' B} (f : A' -> M B) (h : A -> A')
  (rows : list A) :
  apply_axis1 f (map h rows) = apply_axis1 (fun r => f (h r)) rows.
Proof.
  induction rows as [|r rows IH]; simpl; [reflexivity|].
  rewrite IH. reflexivity.
Qed.

(** What the scorers add to their primitives is symmetric: primitives
    that are symmetric on the pairs of present strings they are called on
    give symmetric scores, and the q-gram and cosine similarities are
    symmetric outright, the shared vocabulary being the same list of
    n-grams whichever Series comes first. *)
Lemma symmetric_primitives_symmetric_scores (jf : jellyfish)
  (build : analyzer_builder)
  (s1 s2 : series) (include_wb : bool) (ngram : nat * nat) :
  (forall i a b, s1 !! i = Some (Some a) -> s2 !! i = Some (Some b) ->
     jaro_distance jf a b = jaro_distance jf b a
     /\ levenshtein_distance jf a b = levenshtein_distance jf b a) ->
  jaro_similarity jf s1 s2 = jaro_similarity jf s2 s1
  /\ levenshtein_similarity jf s1 s2 = levenshtein_similarity jf s2 s1
  /\ qgram_similarity build s1 s2 include_wb ngram
     = qgram_similarity build s2 s1 include_wb ngram
  /\ cosine_similarity build s1 s2 include_wb ngram
     = cosine_similarity build s2 s1 include_wb ngram
  /\ vocabulary (build (if include_wb then char_wb else char) ngram)
       (fillna (s1 ++ s2))
     = vocabulary (build (if include_wb then char_wb else char) ngram)
         (fillna (s2 ++ s1)).
Proof.
  intros Hsym.
  assert (Hrows : forall r, In r (concat_axis1 s1 s2) ->
            jaro_apply jf r = jaro_apply jf (snd r, fst r)
            /\ levenshtein_apply jf r = levenshtein_apply jf (snd r, fst r)).
  { intros [[a|] [b|]] Hin.
    - destruct (concat_axis1_present _ _ _ _ Hin) as (i & H1 & H2).
      destruct (Hsym i a b H1 H2) as [Hj Hl].
      unfold jaro_apply, levenshtein_apply. simpl.
      rewrite Hj, Hl, (Nat.max_comm (length a) (length b)).
      split; reflexivity.
    - split; reflexivity.
    - split; reflexivity.
    - split; reflexivity. }
  split; [|split; [|split; [|split]]].
  - unfold jaro_similarity. cbv zeta.
    rewrite (concat_axis1_swap s1 s2), apply_axis1_map.
    apply apply_axis1_ext. intros r Hin. apply (Hrows r Hin).
  - unfold levenshtein_similarity. cbv zeta.
    rewrite (concat_axis1_swap s1 s2), apply_axis1_map.
    apply apply_axis1_ext. intros r Hin. apply (Hrows r Hin).
  - unfold qgram_similarity. rewrite (Nat.eqb_sym (length s2) (length s1)).
    destruct (Nat.eqb_spec (length s1) (length s2)) as [Hlen|]; simpl;
      [|reflexivity].
    rewrite (andb_comm (length s2 =? 0)).
    destruct ((length s1 =? 0) && (length s2 =? 0)); [reflexivity|].
    pose proof (vocabulary_swap
                  (build (if include_wb then char_wb else char) ngram) s1 s2)
      as Hvoc.
    destruct (fit_transform_cases
                (build (if include_wb then char_wb else char) ngram)
                (fillna (s1 ++ s2))) as [[Hv1 ->]|[Hv1 ->]];
      destruct (fit_transform_cases
                  (build (if include_wb then char_wb else char) ngram)
                  (fillna (s2 ++ s1))) as [[Hv2 ->]|[Hv2 ->]];
      try congruence; [reflexivity|].
    rewrite !bind_ret.
    destruct (count_matrix_take_drop
                (build (if include_wb then char_wb else char) ngram) s1 s2)
      as [-> ->].
    destruct (count_matrix_take_drop
                (build (if include_wb then char_wb else char) ngram) s2 s1)
      as [-> ->].
    rewrite (vocabulary_swap _ s2 s1).
    rewrite (_metric_sparse_euclidean_comm (map _ (fillna s2))).
    reflexivity.
  - unfold cosine_similarity. rewrite (Nat.eqb_sym (length s2) (length s1)).
    destruct (Nat.eqb_spec (length s1) (length s2)) as [Hlen|]; simpl;
      [|reflexivity].
    rewrite (andb_comm (length s2 =? 0)).
    destruct ((length s1 =? 0) && (length s2 =? 0)); [reflexivity|].
    pose proof (vocabulary_swap
                  (build (if include_wb then char_wb else char) ngram) s1 s2)
      as Hvoc.
    destruct (fit_transform_cases
                (build (if include_wb then char_wb else char) ngram)
                (fillna (s1 ++ s2))) as [[Hv1 ->]|[Hv1 ->]];
      destruct (fit_transform_cases
                  (build (if include_wb then char_wb else char) ngram)
                  (fillna (s2 ++ s1))) as [[Hv2 ->]|[Hv2 ->]];
      try congruence; [reflexivity|].
    rewrite !bind_ret.
    destruct (count_matrix_take_drop
                (build (if include_wb then char_wb else char) ngram) s1 s2)
      as [-> ->].
    destruct (count_matrix_take_drop
                (build (if include_wb then char_wb else char) ngram) s2 s1)
      as [-> ->].
    rewrite (vocabulary_swap _ s2 s1).
    rewrite (_metric_sparse_cosine_comm (map _ (fillna s2))).
    reflexivity.
  - apply vocabulary_swap.
Qed.

(** ** Matrices and loops *)

Lemma dims_matrix {A} (r c : nat) (v : A) : dims (matrix r c v) r c.
Proof.
  unfold dims, matrix. split; [apply length_replicate|].
  apply Forall_replicate. apply length_replicate.
Qed.

Lemma dims_set2 {A} (mat : list (list A)) (r c x y : nat) (v : A) :
  dims mat r c -> dims (set2 mat x y v) r c.
Proof.
  intros [Hr Hc]. unfold set2. destruct (mat !! x) as [row|] eqn:E;
    [|split; assumption].
  split; [rewrite length_insert; assumption|].
  apply Forall_insert; [assumption|]. rewrite length_insert.
  eapply Forall_lookup_1 in Hc; eassumption.
Qed.

Lemma get2_matrix {A} (d : A) (r c : nat) (v : A) (x y : nat) :
  x < r -> y < c -> get2 d (matrix r c v) x y = v.
Proof.
  intros Hx Hy. unfold get2, matrix.
  rewrite lookup_replicate_2 by assumption. simpl.
  rewrite lookup_replicate_2 by assumption. reflexivity.
Qed.

Lemma get2_set2_eq {A} (d : A) (mat : list (list A)) (r c x y : nat) (v : A) :
  dims mat r c -> x < r -> y < c -> get2 d (set2 mat x y v) x y = v.
Proof.
  intros [Hr Hc] Hx Hy. unfold get2, set2.
  destruct (lookup_lt_is_Some_2 mat x) as [row E]; [lia|]. rewrite E.
  rewrite list_lookup_insert_eq by lia. simpl.
  rewrite list_lookup_insert_eq; [reflexivity|].
  eapply Forall_lookup_1 in Hc; [|eassumption]. simpl in Hc. lia.
Qed.

Lemma get2_set2_ne {A} (d : A) (mat : list (list A)) (x y i j : nat) (v : A) :
  (i, j) <> (x, y) -> get2 d (set2 mat x y v) i j = get2 d mat i j.
Proof.
  intros Hne. unfold get2, set2.
  destruct (mat !! x) as [row|] eqn:E; [|reflexivity].
  destruct (decide (i = x)) as [->|Hi].
  - rewrite list_lookup_insert_eq by (eapply lookup_lt_Some; eassumption).
    rewrite E. simpl. rewrite list_lookup_insert_ne; [reflexivity|].
    intros ->. apply Hne. reflexivity.
  - rewrite list_lookup_insert_ne by congruence. reflexivity.
Qed.

(** A [for k in range(start, start + n)] loop keeps an invariant indexed by
    the loop counter. *)
Lemma fold_left_seq_invariant {S} (f : S -> nat -> S)
  (I : nat -> S -> Prop) (n start : nat) (s0 : S) :
  I start s0 ->
  (forall k s, start <= k < start + n -> I k s -> I (Datatypes.S k) (f s k)) ->
  I (start + n) (fold_left f (seq start n) s0).
Proof.
  revert start s0. induction n as [|n IH]; intros start s0 H0 Hstep; simpl.
  - rewrite Nat.add_0_r. assumption.
  - rewrite <- Nat.add_succ_comm. apply IH.
    + apply Hstep; [lia|assumption].
    + intros k s Hk. apply Hstep. lia.
Qed.

Lemma get2_matrix_default {A} (r c : nat) (v : A) (x y : nat) :
  get2 v (matrix r c v) x y = v.
Proof.
  unfold get2, matrix.
  destruct (replicate r (replicate c v) !! x) as [row|] eqn:E; simpl;
    [|reflexivity].
  apply lookup_replicate in E as [-> _].
  destruct (replicate c v !! y) as [w|] eqn:E2; simpl; [|reflexivity].
  apply lookup_replicate in E2 as [-> _]. reflexivity.
Qed.

(** Two index pairs differ, by arithmetic on a component. *)
Ltac pair_neq :=
  let H := fresh in intros H; injection H; intros; subst; lia.

(** ** Smith-Waterman: the dynamic program *)

Section SmithWatermanInvariant.
Variables (match_ mismatch gap_start gap_continue : Q) (str1 str2 : pystr).

Local Abbreviation cell :=
  (SmithWaterman.cell match_ mismatch gap_start gap_continue
     str1 str2).
Local Abbreviation row :=
  (SmithWaterman.row match_ mismatch gap_start gap_continue
     str1 str2).
Local Abbreviation run :=
  (SmithWaterman.run match_ mismatch gap_start gap_continue
     str1 str2).
Local Abbreviation init := (SmithWaterman.init str1 str2).
Local Abbreviation score := sw_score.
Local Abbreviation labels := sw_labels.
Local Abbreviation best :=
  (sw_best match_ mismatch gap_start gap_continue str1 str2).
Local Abbreviation stored :=
  (cell_score match_ mismatch gap_start gap_continue str1 str2).
Local Abbreviation stored_labels :=
  (cell_labels match_ mismatch gap_start gap_continue
     str1 str2).
Local Abbreviation ok :=
  (cell_ok match_ mismatch gap_start gap_continue str1 str2).
Local Abbreviation len1 := (length str1).
Local Abbreviation len2 := (length str2).
Local Abbreviation inv :=
  (sw_inv match_ mismatch gap_start gap_continue str1 str2).

(** The loop body, in terms of what it stores. *)
Lemma cell_unfold (st : SmithWaterman.state) (x y : nat) :
  cell st x y
  = {| SmithWaterman.m := set2 (SmithWaterman.m st) x y (stored st x y);
       SmithWaterman.trace :=
         set2 (SmithWaterman.trace st) x y
              (labels st x y ++ stored_labels st x y);
       SmithWaterman.highest :=
         if Qlt_le_dec (SmithWaterman.highest st) (stored st x y)
         then stored st x y else SmithWaterman.highest st |}.
Proof.
  unfold SmithWaterman.cell, cell_score, cell_labels, sw_best, sw_diagonal,
    sw_gap_left, sw_gap_above, sw_labels, sw_score.
  destruct (char_eqb str1 (x - 1) str2 (y - 1));
    destruct (bool_decide _); destruct (bool_decide _);
    destruct (Qle_bool _ 0); reflexivity.
Qed.

Lemma cell_agree (st : SmithWaterman.state) (x y i j : nat) :
  (i, j) <> (x, y) -> agree st (cell st x y) i j.
Proof.
  intros Hne. unfold agree, sw_score, sw_labels. rewrite cell_unfold. simpl.
  rewrite !get2_set2_ne by assumption. split; reflexivity.
Qed.

Lemma best_agree (st st' : SmithWaterman.state) (i j : nat) :
  agree st st' (i - 1) (j - 1) -> agree st st' (i - 1) j ->
  agree st st' i (j - 1) ->
  best st' i j = best st i j
  /\ stored st' i j = stored st i j
  /\ stored_labels st' i j = stored_labels st i j.
Proof.
  intros [Hd _] [Hl Hl'] [Ha Ha'].
  unfold cell_score, cell_labels, sw_best, sw_diagonal, sw_gap_left,
    sw_gap_above.
  rewrite Hd, Hl, Hl', Ha, Ha'. repeat split.
Qed.

Lemma ok_agree (st st' : SmithWaterman.state) (i j : nat) :
  agree st st' i j -> agree st st' (i - 1) (j - 1) ->
  agree st st' (i - 1) j -> agree st st' i (j - 1) ->
  ok st i j -> ok st' i j.
Proof.
  intros [Hs Hl] Hd Hgl Hga [Hok Hok'].
  destruct (best_agree st st' i j Hd Hgl Hga) as (_ & E1 & E2).
  unfold cell_ok. rewrite Hs, Hl, E1, E2. split; assumption.
Qed.

Lemma stored_nonneg (st : SmithWaterman.state) (x y : nat) :
  (0 <= stored st x y)%Q.
Proof.
  unfold cell_score. destruct (Qle_bool (best st x y) 0) eqn:E.
  - apply Qle_refl.
  - destruct (Qlt_le_dec 0 (best st x y)) as [H|H].
    + apply Qlt_le_weak. assumption.
    + apply Qle_bool_iff in H. congruence.
Qed.

Lemma sw_inv_init : inv 1 1 init.
Proof.
  split; simpl.
  - apply dims_matrix.
  - apply dims_matrix.
  - intros i j _. unfold sw_score, sw_labels. simpl.
    rewrite !get2_matrix_default. split; reflexivity.
  - intros i j (Hi & Hj & H). lia.
  - intros i j. unfold sw_score. simpl. rewrite get2_matrix_default.
    apply Qle_refl.
  - exists 0, 0. split; [lia|]. split; [lia|]. unfold sw_score. simpl.
    rewrite get2_matrix_default. reflexivity.
Qed.

Lemma sw_inv_step (x y : nat) (st : SmithWaterman.state) :
  1 <= x <= len1 -> 1 <= y <= len2 ->
  inv x y st -> inv x (S y) (cell st x y).
Proof.
  intros Hx Hy [Hm Ht Hfresh Hcells Hbound Hatt].
  assert (Hnew : ~ processed len2 x y x y) by (unfold processed; lia).
  destruct (Hfresh x y Hnew) as [Hs0 Hl0].
  assert (Hsame : forall i j, (i, j) <> (x, y) -> agree st (cell st x y) i j)
    by (intros; apply cell_agree; assumption).
  assert (Hscore : score (cell st x y) x y = stored st x y).
  { unfold sw_score. rewrite cell_unfold. simpl.
    apply (get2_set2_eq _ _ (1 + len1) (1 + len2)); [assumption|lia|lia]. }
  assert (Hhigh : SmithWaterman.highest (cell st x y)
                  = if Qlt_le_dec (SmithWaterman.highest st) (stored st x y)
                    then stored st x y else SmithWaterman.highest st)
    by (rewrite cell_unfold; reflexivity).
  split.
  - rewrite cell_unfold. simpl. apply dims_set2. assumption.
  - rewrite cell_unfold. simpl. apply dims_set2. assumption.
  - intros i j Hnp.
    assert (Hne : (i, j) <> (x, y)).
    { intros [= -> ->]. apply Hnp. unfold processed. lia. }
    destruct (Hsame i j Hne) as [-> ->]. apply Hfresh.
    intros Hp. apply Hnp. unfold processed in *. lia.
  - intros i j Hp.
    destruct (decide ((i, j) = (x, y))) as [[= -> ->]|Hne].
    + destruct (best_agree st (cell st x y) x y) as (_ & E1 & E2);
        try (apply Hsame; pair_neq).
      unfold cell_ok. rewrite E1, E2, Hscore. split; [reflexivity|].
      unfold sw_labels at 1. rewrite cell_unfold. simpl.
      rewrite (get2_set2_eq _ _ (1 + len1) (1 + len2)) by (assumption || lia).
      rewrite Hl0. reflexivity.
    + assert (Hp' : processed len2 x y i j).
      { unfold processed in *.
        assert (~ (i = x /\ j = y)) by (intros [-> ->]; congruence). lia. }
      apply (ok_agree st); try apply Hsame; try (apply Hcells; assumption);
        try assumption; unfold processed in Hp'; pair_neq.
  - intros i j. rewrite Hhigh.
    assert (Hold : (score (cell st x y) i j <= SmithWaterman.highest st)%Q
                   \/ score (cell st x y) i j = stored st x y).
    { destruct (decide ((i, j) = (x, y))) as [[= -> ->]|Hne].
      - right. assumption.
      - left. destruct (Hsame i j Hne) as [-> _]. apply Hbound. }
    destruct (Qlt_le_dec _ _) as [Hlt|Hle]; destruct Hold as [H| ->];
      try lra.
  - rewrite Hhigh. destruct (Qlt_le_dec _ _) as [Hlt|Hle].
    + exists x, y. rewrite Hscore. split; [lia|]. split; [lia|].
      reflexivity.
    + destruct Hatt as (i & j & Hi & Hj & Heq). exists i, j.
      split; [assumption|]. split; [assumption|].
      destruct (decide ((i, j) = (x, y))) as [[= -> ->]|Hne].
      * rewrite Hscore. pose proof (stored_nonneg st x y).
        rewrite Hs0 in Heq. lra.
      * destruct (Hsame i j Hne) as [-> _]. assumption.
Qed.

Lemma sw_inv_processed (x y x' y' : nat) (st : SmithWaterman.state) :
  (forall i j, processed len2 x y i j <-> processed len2 x' y' i j) ->
  inv x y st -> inv x' y' st.
Proof.
  intros Heq [Hm Ht Hfresh Hcells Hbound Hatt]. split; try assumption.
  - intros i j H. apply Hfresh. rewrite Heq. assumption.
  - intros i j H. apply Hcells. rewrite Heq. assumption.
Qed.

Lemma sw_inv_row (x : nat) (st : SmithWaterman.state) :
  1 <= x <= len1 -> inv x 1 st -> inv (S x) 1 (row st x).
Proof.
  intros Hx Hinv. apply (sw_inv_processed x (1 + len2)).
  { intros i j. unfold processed. lia. }
  unfold SmithWaterman.row.
  apply (fold_left_seq_invariant (fun st y => cell st x y) (inv x)).
  - assumption.
  - intros y st' Hy. apply sw_inv_step; [assumption|lia].
Qed.

Lemma sw_inv_run : inv (1 + len1) 1 run.
Proof.
  unfold SmithWaterman.run.
  apply (fold_left_seq_invariant row (fun x => inv x 1)).
  - apply sw_inv_init.
  - intros x st Hx. apply sw_inv_row. lia.
Qed.

End SmithWatermanInvariant.

Lemma elem_of_if_singleton {A} (b : bool) (a x : A) :
  x ∈ (if b then [a] else []) <-> b = true /\ x = a.
Proof.
  destruct b.
  - rewrite list_elem_of_singleton. intuition.
  - split; [intros H; inversion H|intros [H _]; discriminate].
Qed.

Section SmithWatermanCells.
Variables (match_ mismatch gap_start gap_continue : Q) (str1 str2 : pystr).

Local Abbreviation best :=
  (sw_best match_ mismatch gap_start gap_continue str1 str2).
Local Abbreviation move :=
  (sw_move match_ mismatch gap_start gap_continue str1 str2).

Lemma cell_score_max (st : SmithWaterman.state) (x y : nat) :
  (cell_score match_ mismatch gap_start gap_continue str1 str2 st x y
   == Qmax 0 (best st x y))%Q.
Proof.
  unfold cell_score. destruct (Qle_bool (best st x y) 0) eqn:E.
  - apply Qle_bool_iff in E.
    destruct (Q.max_spec 0 (best st x y)) as [[H ->]|[H ->]]; lra.
  - assert (0 < best st x y)%Q.
    { destruct (Qlt_le_dec 0 (best st x y)) as [H|H]; [assumption|].
      apply Qle_bool_iff in H. congruence. }
    destruct (Q.max_spec 0 (best st x y)) as [[H' ->]|[H' ->]]; lra.
Qed.

Lemma cell_labels_spec (st : SmithWaterman.state) (x y : nat)
  (lab : SmithWaterman.label) :
  lab ∈ cell_labels match_ mismatch gap_start gap_continue str1 str2 st x y
  <-> (0 < best st x y)%Q /\ (move st lab x y == best st x y)%Q.
Proof.
  unfold cell_labels. destruct (Qle_bool (best st x y) 0) eqn:E.
  - apply Qle_bool_iff in E. split; [intros H; inversion H|].
    intros [H _]. lra.
  - assert (Hpos : (0 < best st x y)%Q).
    { destruct (Qlt_le_dec 0 (best st x y)) as [H|H]; [assumption|].
      apply Qle_bool_iff in H. congruence. }
    rewrite !elem_of_app, !elem_of_if_singleton, !Qeq_bool_iff.
    destruct lab; simpl; split.
    + intros [[H _]|[[_ H]|[_ H]]]; try discriminate.
      split; [assumption|symmetry; assumption].
    + intros [_ H]. left. split; [symmetry; assumption|reflexivity].
    + intros [[_ H]|[[H _]|[_ H]]]; try discriminate.
      split; [assumption|symmetry; assumption].
    + intros [_ H]. right. left. split; [symmetry; assumption|reflexivity].
    + intros [[_ H]|[[_ H]|[H _]]]; try discriminate.
      split; [assumption|symmetry; assumption].
    + intros [_ H]. right. right. split; [symmetry; assumption|reflexivity].
Qed.

(** C6, amended.  After the loops, every cell [(x, y)] of the score matrix
    holds [max(0, diagonal, gap_left, gap_above)], where a gap from a
    neighbour costs [gap_continue] exactly when that neighbour's trace holds
    the same gap label and [gap_start] otherwise.  A cell whose score is
    positive records exactly the labels of the candidates equal to it; a
    cell whose score is 0 records nothing.  The raw result bounds every
    cell and is the value of one of them. *)
Theorem smith_waterman_cells (x y : nat) :
  1 <= x <= length str1 -> 1 <= y <= length str2 ->
  let st := SmithWaterman.run match_ mismatch gap_start gap_continue
              str1 str2 in
  let M := sw_score st in
  let T := sw_labels st in
  let diagonal :=
    (M (x - 1)%nat (y - 1)%nat
     + (if char_eqb str1 (x - 1)%nat str2 (y - 1)%nat
        then match_ else mismatch))%Q in
  let gap_left :=
    (M (x - 1)%nat y
     + (if bool_decide (SmithWaterman.L ∈ T (x - 1)%nat y)
        then gap_continue else gap_start))%Q in
  let gap_above :=
    (M x (y - 1)%nat
     + (if bool_decide (SmithWaterman.A ∈ T x (y - 1)%nat)
        then gap_continue else gap_start))%Q in
  let top := Qmax (Qmax diagonal gap_left) gap_above in
  (M x y == Qmax 0 top)%Q
  /\ (SmithWaterman.D ∈ T x y <-> (0 < top)%Q /\ (diagonal == top)%Q)
  /\ (SmithWaterman.L ∈ T x y <-> (0 < top)%Q /\ (gap_left == top)%Q)
  /\ (SmithWaterman.A ∈ T x y <-> (0 < top)%Q /\ (gap_above == top)%Q)
  /\ (M x y <= SmithWaterman.compute_score
                 match_ mismatch gap_start gap_continue str1 str2)%Q
  /\ exists i j, 1 <= i <= length str1 /\ 1 <= j <= length str2
       /\ (M i j == SmithWaterman.compute_score
                      match_ mismatch gap_start gap_continue str1 str2)%Q.
Proof.
  intros Hx Hy st M T diagonal gap_left gap_above top.
  pose proof (sw_inv_run match_ mismatch gap_start gap_continue str1 str2)
    as [_ _ Hfresh Hcells Hbound Hatt].
  fold st in Hfresh, Hcells, Hbound, Hatt.
  assert (Hp : processed (length str2) (1 + length str1) 1 x y)
    by (unfold processed; lia).
  destruct (Hcells x y Hp) as [Hs Hl].
  change (sw_score st x y) with (M x y) in Hs.
  change (sw_labels st x y) with (T x y) in Hl.
  change (best st x y) with top in *.
  split; [rewrite Hs; apply cell_score_max|].
  split; [rewrite Hl; apply (cell_labels_spec st x y SmithWaterman.D)|].
  split; [rewrite Hl; apply (cell_labels_spec st x y SmithWaterman.L)|].
  split; [rewrite Hl; apply (cell_labels_spec st x y SmithWaterman.A)|].
  split; [apply Hbound|].
  destruct Hatt as (i & j & Hi & Hj & Heq).
  destruct (decide (1 <= i /\ 1 <= j)) as [[Hi1 Hj1]|Hborder].
  - exists i, j. split; [lia|]. split; [lia|]. exact Heq.
  - exists x, y. split; [lia|]. split; [lia|].
    assert (Hnp : ~ processed (length str2) (1 + length str1) 1 i j)
      by (unfold processed; lia).
    destruct (Hfresh i j Hnp) as [H0 _]. rewrite H0 in Heq.
    pose proof (Hbound x y) as Hle.
    pose proof (stored_nonneg match_ mismatch gap_start gap_continue
                  str1 str2 st x y) as Hge.
    fold (M x y) in Hle. rewrite <- Hs in Hge.
    unfold SmithWaterman.compute_score. fold st. lra.
Qed.

End SmithWatermanCells.

(** C6, as stated, fails on the labels: a cell whose candidates are all at
    most 0 records nothing, even when a candidate equals the cell's score.
    For "ab" against "ac" with the default scores, cell (2, 2) has score 0
    and its diagonal candidate is 5 - 5 = 0: the diagonal ties for the
    maximum of 0 and the three candidates, yet the cell's trace is empty. *)
Lemma trace_omits_zero_tie :
  let st := SmithWaterman.run 5 (-5) (-5) (-1) (str "ab") (str "ac") in
  let diagonal := sw_diagonal 5 (-5) (str "ab") (str "ac") st 2 2 in
  let gap_left := sw_gap_left (-5) (-1) st 2 2 in
  let gap_above := sw_gap_above (-5) (-1) st 2 2 in
  (sw_score st 2 2
   == Qmax 0 (Qmax (Qmax diagonal gap_left) gap_above))%Q
  /\ (diagonal == sw_score st 2 2)%Q
  /\ ~ SmithWaterman.D ∈ sw_labels st 2 2.
Proof.
  cbv zeta. split; [vm_compute; reflexivity|].
  split; [vm_compute; reflexivity|].
  assert (E : sw_labels (SmithWaterman.run 5 (-5) (-5) (-1)
                           (str "ab") (str "ac")) 2 2 = [])
    by (vm_compute; reflexivity).
  rewrite E. apply not_elem_of_nil.
Qed.

Lemma smith_waterman_cells_witness :
  let st := SmithWaterman.run 5 (-5) (-5) (-1) (str "abcd") (str "abxd") in
  (sw_score st 2 2 <= SmithWaterman.compute_score 5 (-5) (-5) (-1)
                        (str "abcd") (str "abxd"))%Q.
Proof.
  refine (proj1 (proj2 (proj2 (proj2 (proj2
            (smith_waterman_cells 5 (-5) (-5) (-1)
               (str "abcd") (str "abxd") 2 2 _ _)))))); simpl; lia.
Defined.

(** ** Longest common substring: the matrix of one round *)

Section LCSInvariant.
Variables str1 str2 : pystr.

Local Abbreviation lcell := (LCS.cell str1 str2).
Local Abbreviation csl := (common_suffix str1 str2).
Local Abbreviation len1 := (length str1).
Local Abbreviation len2 := (length str2).
Local Abbreviation linv := (lcs_inv str1 str2).
Local Abbreviation written := (lcs_value str1 str2).

Lemma lcs_cell_unfold (st : LCS.state) (x y : nat) :
  lcell st x y
  = {| LCS.m := set2 (LCS.m st) x y (written st x y);
       LCS.longest := if LCS.longest st <? written st x y
                      then written st x y else LCS.longest st;
       LCS.x_longest := if LCS.longest st <? written st x y
                        then x else LCS.x_longest st;
       LCS.y_longest := if LCS.longest st <? written st x y
                        then y else LCS.y_longest st |}.
Proof.
  unfold LCS.cell, lcs_value. destruct (char_eqb str1 (x - 1) str2 (y - 1)).
  - destruct (LCS.longest st <? _); reflexivity.
  - destruct (Nat.ltb_spec (LCS.longest st) 0); [lia|reflexivity].
Qed.

Lemma common_suffix_border (i j : nat) : i = 0 \/ j = 0 -> csl i j = 0.
Proof. intros [-> | ->]; [reflexivity|destruct i; reflexivity]. Qed.

Lemma lcs_inv_init : linv 1 1 (LCS.init str1 str2).
Proof.
  split; simpl.
  - apply dims_matrix.
  - intros i j _. apply get2_matrix_default.
  - intros i j (Hi & Hj & H). lia.
  - intros i j (Hi & Hj & H). lia.
  - left. repeat split.
Qed.

Lemma lcs_value_spec (x y : nat) (st : LCS.state) :
  1 <= x -> 1 <= y <= len2 -> linv x y st ->
  written st x y = csl x y.
Proof.
  intros Hx Hy [_ Hfresh Hcells _ _]. unfold lcs_value.
  destruct x as [|x']; [lia|]. destruct y as [|y']; [lia|]. simpl.
  rewrite !Nat.sub_0_r.
  destruct (char_eqb str1 x' str2 y'); [|reflexivity].
  rewrite Nat.add_1_r. f_equal.
  destruct (decide (1 <= x' /\ 1 <= y')) as [[Hx' Hy']|Hb].
  - apply Hcells. unfold processed. lia.
  - rewrite Hfresh by (unfold processed; lia).
    symmetry. apply common_suffix_border. lia.
Qed.

Lemma lcs_inv_step (x y : nat) (st : LCS.state) :
  1 <= x <= len1 -> 1 <= y <= len2 ->
  linv x y st -> linv x (S y) (lcell st x y).
Proof.
  intros Hx Hy Hinv.
  pose proof (lcs_value_spec x y st ltac:(lia) Hy Hinv) as Hv.
  destruct Hinv as [Hm Hfresh Hcells Hbound Hfirst].
  rewrite lcs_cell_unfold, Hv.
  assert (Hcase : forall i j, processed len2 x (S y) i j ->
            (i, j) = (x, y) \/ ((i, j) <> (x, y) /\ processed len2 x y i j)).
  { intros i j Hp. destruct (decide ((i, j) = (x, y))) as [|Hne];
      [left; assumption|right]. split; [assumption|].
    unfold processed in *.
    assert (~ (i = x /\ j = y)) by (intros [-> ->]; congruence). lia. }
  split; simpl.
  - apply dims_set2. assumption.
  - intros i j Hnp. rewrite get2_set2_ne.
    + apply Hfresh. intros Hp. apply Hnp. unfold processed in *. lia.
    + intros [= -> ->]. apply Hnp. unfold processed. lia.
  - intros i j Hp. destruct (Hcase i j Hp) as [[= -> ->]|[Hne Hp']].
    + apply (get2_set2_eq _ _ (1 + len1) (1 + len2)); [assumption|lia|lia].
    + rewrite get2_set2_ne by assumption. apply Hcells. assumption.
  - intros i j Hp. destruct (Hcase i j Hp) as [[= -> ->]|[Hne Hp']].
    + destruct (Nat.ltb_spec (LCS.longest st) (csl x y)); lia.
    + specialize (Hbound i j Hp').
      destruct (Nat.ltb_spec (LCS.longest st) (csl x y)); lia.
  - destruct (Nat.ltb_spec (LCS.longest st) (csl x y)) as [Hlt|Hge].
    + right. split; [lia|]. split; [unfold processed; lia|].
      split; [reflexivity|].
      intros i j Hi Hj He.
      assert (Hp : processed len2 x y i j)
        by (unfold processed, earlier in *; lia).
      specialize (Hbound i j Hp). lia.
    + destruct Hfirst as [H0|(Hpos & Hp & Hc & Hmin)]; [left; assumption|].
      right. split; [assumption|]. split; [|split; assumption].
      unfold processed in *. lia.
Qed.

Lemma lcs_inv_processed (x y x' y' : nat) (st : LCS.state) :
  (forall i j, processed len2 x y i j <-> processed len2 x' y' i j) ->
  linv x y st -> linv x' y' st.
Proof.
  intros Heq [Hm Hfresh Hcells Hbound Hfirst]. split; try assumption.
  - intros i j H. apply Hfresh. rewrite Heq. assumption.
  - intros i j H. apply Hcells. rewrite Heq. assumption.
  - intros i j H. apply Hbound. rewrite Heq. assumption.
  - destruct Hfirst as [H0|(Hpos & Hp & Hc & Hmin)]; [left; assumption|].
    right. rewrite <- Heq.
    split; [assumption|split; [assumption|split; assumption]].
Qed.

Lemma lcs_inv_row (x : nat) (st : LCS.state) :
  1 <= x <= len1 -> linv x 1 st ->
  linv (S x) 1 (LCS.row str1 str2 st x).
Proof.
  intros Hx Hinv. apply (lcs_inv_processed x (1 + len2)).
  { intros i j. unfold processed. lia. }
  unfold LCS.row.
  apply (fold_left_seq_invariant (fun st y => lcell st x y) (linv x)).
  - assumption.
  - intros y st' Hy. apply lcs_inv_step; [assumption|lia].
Qed.

Lemma lcs_inv_run : linv (1 + len1) 1 (LCS.run str1 str2).
Proof.
  unfold LCS.run.
  apply (fold_left_seq_invariant (LCS.row str1 str2)
           (fun x => linv x 1)).
  - apply lcs_inv_init.
  - intros x st Hx. apply lcs_inv_row. lia.
Qed.

End LCSInvariant.

(** ** Common suffixes and common substrings *)

Section CommonSuffix.
Variables str1 str2 : pystr.

Local Abbreviation csl := (common_suffix str1 str2).

Lemma common_suffix_le (i j : nat) : csl i j <= i /\ csl i j <= j.
Proof.
  revert j. induction i as [|i IH]; intros [|j]; simpl; try lia.
  destruct (char_eqb str1 i str2 j); [|lia].
  specialize (IH j). lia.
Qed.

(** The characters counted by [common_suffix] are equal. *)
Lemma common_suffix_chars (i j t : nat) :
  t < csl i j -> str1 !! (i - 1 - t) = str2 !! (j - 1 - t).
Proof.
  revert j t. induction i as [|i IH]; intros [|j] t; simpl; try lia.
  unfold char_eqb. case_bool_decide as Heq; [|lia].
  intros Ht. destruct t as [|t].
  - rewrite !Nat.sub_0_r. assumption.
  - replace (i - 0 - S t) with (i - 1 - t) by lia.
    replace (j - 0 - S t) with (j - 1 - t) by lia.
    apply IH. lia.
Qed.

(** [common_suffix] counts every run of equal characters. *)
Lemma common_suffix_ge (i j k : nat) :
  k <= i -> k <= j ->
  (forall t, t < k -> str1 !! (i - 1 - t) = str2 !! (j - 1 - t)) ->
  k <= csl i j.
Proof.
  revert i j. induction k as [|k IH]; intros i j Hi Hj Heq; [lia|].
  destruct i as [|i]; [lia|]. destruct j as [|j]; [lia|]. simpl.
  unfold char_eqb. case_bool_decide as Hc.
  - apply le_n_S. apply IH; try lia.
    intros t Ht. specialize (Heq (S t) ltac:(lia)).
    replace (S i - 1 - S t) with (i - 1 - t) in Heq by lia.
    replace (S j - 1 - S t) with (j - 1 - t) in Heq by lia.
    assumption.
  - exfalso. apply Hc. specialize (Heq 0 ltac:(lia)).
    replace (S i - 1 - 0) with i in Heq by lia.
    replace (S j - 1 - 0) with j in Heq by lia. assumption.
Qed.

End CommonSuffix.

Lemma occurrence_lookup (s p w q : pystr) (t : nat) :
  s = p ++ w ++ q -> t < length w -> s !! (length p + t) = w !! t.
Proof.
  intros -> Ht. rewrite lookup_app_r by lia.
  replace (length p + t - length p) with t by lia.
  apply lookup_app_l. assumption.
Qed.

Lemma occurrence_length (s p w q : pystr) :
  s = p ++ w ++ q -> length p + length w <= length s.
Proof. intros ->. rewrite !length_app. lia. Qed.

(** The [k] characters that end at position [i]. *)
Lemma segment_split (s : pystr) (i k : nat) :
  k <= i <= length s ->
  s = take (i - k) s ++ take k (drop (i - k) s) ++ drop i s.
Proof.
  intros H. replace (drop i s) with (drop k (drop (i - k) s))
    by (rewrite drop_drop; f_equal; lia).
  rewrite take_drop, take_drop. reflexivity.
Qed.

Lemma segment_lookup (s : pystr) (i k t : nat) :
  k <= i -> t < k -> take k (drop (i - k) s) !! t = s !! (i - 1 - (k - 1 - t)).
Proof.
  intros Hk Ht. rewrite lookup_take_lt, lookup_drop by assumption.
  f_equal. lia.
Qed.

Lemma segment_eq (s1 s2 : pystr) (i j k : nat) :
  k <= i -> k <= j ->
  (forall t, t < k -> s1 !! (i - 1 - t) = s2 !! (j - 1 - t)) ->
  take k (drop (i - k) s1) = take k (drop (j - k) s2).
Proof.
  intros Hi Hj Heq. apply list_eq. intros t.
  destruct (decide (t < k)) as [Ht|Ht].
  - rewrite !segment_lookup by assumption. apply Heq. lia.
  - rewrite !lookup_take_ge by lia. reflexivity.
Qed.

(** A common substring shows in [common_suffix] where its two occurrences
    end. *)
Lemma common_suffix_occurrences (s1 s2 w p1 q1 p2 q2 : pystr) :
  s1 = p1 ++ w ++ q1 -> s2 = p2 ++ w ++ q2 ->
  length w <= common_suffix s1 s2 (length p1 + length w)
                (length p2 + length w).
Proof.
  intros H1 H2. apply common_suffix_ge; try lia.
  intros t Ht.
  replace (length p1 + length w - 1 - t)
    with (length p1 + (length w - 1 - t)) by lia.
  replace (length p2 + length w - 1 - t)
    with (length p2 + (length w - 1 - t)) by lia.
  rewrite (occurrence_lookup s1 p1 w q1), (occurrence_lookup s2 p2 w q2)
    by (assumption || lia).
  reflexivity.
Qed.

(** ** Longest common substring: what one round returns *)

Section LCSRound.
Variables str1 str2 : pystr.

Local Abbreviation csl := (common_suffix str1 str2).
Local Abbreviation final := (LCS.run str1 str2).
Local Abbreviation len1 := (length str1).
Local Abbreviation len2 := (length str2).

(** After the loops [longest] is the largest entry of the matrix and
    [(x_longest, y_longest)] is the first cell, in the order of the loops,
    that holds it. *)
Lemma lcs_run_longest :
  LCS.longest final <= LCS.x_longest final <= len1
  /\ LCS.longest final <= LCS.y_longest final <= len2
  /\ (forall t, t < LCS.longest final ->
        str1 !! (LCS.x_longest final - 1 - t)
        = str2 !! (LCS.y_longest final - 1 - t))
  /\ (forall i j, 1 <= i <= len1 -> 1 <= j <= len2 ->
        csl i j <= LCS.longest final)
  /\ (forall i j, 1 <= i -> 1 <= j <= len2 ->
        earlier i j (LCS.x_longest final) (LCS.y_longest final) ->
        csl i j < LCS.longest final)
  /\ (LCS.longest final = 0 ->
      LCS.x_longest final = 0 /\ LCS.y_longest final = 0).
Proof.
  destruct (lcs_inv_run str1 str2) as [_ _ _ Hbound Hfirst].
  assert (Hall : forall i j, 1 <= i <= len1 -> 1 <= j <= len2 ->
                   csl i j <= LCS.longest final).
  { intros i j Hi Hj. apply Hbound. unfold processed. lia. }
  destruct Hfirst as [(H0 & Hx0 & Hy0)|(Hpos & Hp & Hc & Hmin)].
  - split; [lia|]. split; [lia|]. split; [intros t Ht; lia|].
    split; [assumption|].
    split; [intros i j Hi Hj He; unfold earlier in He; lia|].
    intros _. split; assumption.
  - pose proof (common_suffix_le str1 str2 (LCS.x_longest final)
                  (LCS.y_longest final)) as Hle.
    rewrite Hc in Hle. unfold processed in Hp.
    split; [lia|]. split; [lia|].
    split; [intros t Ht; apply common_suffix_chars; rewrite Hc; assumption|].
    split; [assumption|]. split; [assumption|]. lia.
Qed.

(** One round on two present strings of at least [min_len] characters:
    the length returned is that of a longest common substring, and the two
    strings returned are the inputs with its first occurrence cut out. *)
Lemma lcs_iteration_round (min_len : Z) :
  ~ (Z.of_nat (Nat.min len1 len2) < min_len)%Z ->
  exists w p1 q1 p2 q2,
    LCS.lcs_iteration min_len (Some str1, Some str2)
    = ((Some (p1 ++ q1), Some (p2 ++ q2)), length w)
    /\ longest_common_substring w str1 str2
    /\ first_occurrence w p1 q1 str1
    /\ first_occurrence w p2 q2 str2.
Proof.
  intros Hlen.
  destruct lcs_run_longest as (Hx & Hy & Hchars & Hall & Hmin & Hzero).
  set (L := LCS.longest final) in *.
  set (xl := LCS.x_longest final) in *.
  set (yl := LCS.y_longest final) in *.
  set (w := take L (drop (xl - L) str1)).
  assert (Hw : length w = L).
  { unfold w. rewrite length_take, length_drop. lia. }
  assert (Hw2 : take L (drop (yl - L) str2) = w).
  { symmetry. apply segment_eq; try lia. assumption. }
  assert (H1 : str1 = take (xl - L) str1 ++ w ++ drop xl str1)
    by (apply segment_split; lia).
  assert (H2 : str2 = take (yl - L) str2 ++ w ++ drop yl str2)
    by (rewrite <- Hw2; apply segment_split; lia).
  assert (Hp1 : length (take (xl - L) str1) = xl - L)
    by (rewrite length_take; lia).
  assert (Hp2 : length (take (yl - L) str2) = yl - L)
    by (rewrite length_take; lia).
  exists w, (take (xl - L) str1), (drop xl str1),
    (take (yl - L) str2), (drop yl str2).
  split; [|split; [|split]].
  - unfold LCS.lcs_iteration.
    destruct (Z.ltb_spec (Z.of_nat (Nat.min len1 len2)) min_len); [lia|].
    rewrite Hw. reflexivity.
  - split.
    + split; eexists _, _; eassumption.
    + intros w' [(p1' & q1' & E1) (p2' & q2' & E2)]. rewrite Hw.
      destruct (decide (length w' = 0)) as [->|Hpos]; [lia|].
      pose proof (common_suffix_occurrences _ _ _ _ _ _ _ E1 E2) as Hge.
      pose proof (occurrence_length _ _ _ _ E1).
      pose proof (occurrence_length _ _ _ _ E2).
      specialize (Hall (length p1' + length w') (length p2' + length w')
                    ltac:(lia) ltac:(lia)).
      lia.
  - split; [assumption|]. intros p' q' E. rewrite Hp1.
    destruct (decide (xl - L <= length p')) as [|Hlt]; [assumption|].
    exfalso.
    pose proof (common_suffix_occurrences _ _ _ _ _ _ _ E H2) as Hge.
    rewrite Hw, Hp2 in Hge.
    replace (yl - L + L) with yl in Hge by lia.
    assert (L <> 0) by (intros HL; destruct (Hzero HL); lia).
    specialize (Hmin (length p' + L) yl ltac:(lia) ltac:(lia)
                  ltac:(unfold earlier; lia)).
    lia.
  - split; [assumption|]. intros p' q' E. rewrite Hp2.
    destruct (decide (yl - L <= length p')) as [|Hlt]; [assumption|].
    exfalso.
    pose proof (common_suffix_occurrences _ _ _ _ _ _ _ H1 E) as Hge.
    rewrite Hw, Hp1 in Hge.
    replace (xl - L + L) with xl in Hge by lia.
    pose proof (occurrence_length _ _ _ _ E) as Hocc. rewrite Hw in Hocc.
    assert (L <> 0) by (intros HL; destruct (Hzero HL); lia).
    specialize (Hmin xl (length p' + L) ltac:(lia) ltac:(lia)
                  ltac:(unfold earlier; lia)).
    lia.
Qed.

End LCSRound.

(** ** Longest common substring: the loop and the score *)

Lemma common_substring_length (w s1 s2 : pystr) :
  common_substring w s1 s2 ->
  length w <= Nat.min (length s1) (length s2).
Proof.
  intros [(p1 & q1 & E1) (p2 & q2 & E2)].
  pose proof (occurrence_length _ _ _ _ E1).
  pose proof (occurrence_length _ _ _ _ E2). lia.
Qed.

Lemma accumulate_S (min_len : Z) (fuel : nat) (new_x : elem * elem)
  (lcs_acc : nat) :
  LCS.accumulate min_len (S fuel) new_x lcs_acc
  = let '(iter_x, iter_lcs) := LCS.lcs_iteration min_len new_x in
    if (Z.of_nat iter_lcs <? min_len)%Z then ret lcs_acc
    else LCS.accumulate min_len fuel iter_x (lcs_acc + iter_lcs).
Proof. reflexivity. Qed.

(** With [min_len >= 1] every round that goes on shortens the first string,
    so the loop ends; what it has accumulated is the total of a greedy
    extraction. *)
Lemma accumulate_greedy (min_len : Z) (fuel : nat) (s1 s2 : pystr)
  (acc : nat) :
  (1 <= min_len)%Z -> length s1 < fuel ->
  exists n,
    LCS.accumulate min_len fuel (Some s1, Some s2) acc = ret (acc + n)
    /\ greedy_total min_len s1 s2 n.
Proof.
  intros Hmin. revert s1 s2 acc.
  induction fuel as [|fuel IH]; intros s1 s2 acc Hfuel; [lia|].
  rewrite accumulate_S.
  destruct (Z.ltb_spec (Z.of_nat (Nat.min (length s1) (length s2))) min_len)
    as [Hshort|Hlong].
  - exists 0. unfold LCS.lcs_iteration.
    destruct (Z.ltb_spec (Z.of_nat (Nat.min (length s1) (length s2)))
                min_len); [|lia].
    destruct (Z.ltb_spec (Z.of_nat 0) min_len); [|lia].
    rewrite Nat.add_0_r. split; [reflexivity|].
    apply greedy_stop. intros w Hw.
    apply common_substring_length in Hw. lia.
  - destruct (lcs_iteration_round s1 s2 min_len ltac:(lia))
      as (w & p1 & q1 & p2 & q2 & Eit & Hlong' & Hf1 & Hf2).
    rewrite Eit.
    destruct (Z.ltb_spec (Z.of_nat (length w)) min_len) as [Hstop|Hgo].
    + exists 0. rewrite Nat.add_0_r. split; [reflexivity|].
      apply greedy_stop. intros w' Hw'. apply Hlong' in Hw'. lia.
    + destruct (IH (p1 ++ q1) (p2 ++ q2) (acc + length w)) as (n & En & Hn).
      { destruct Hf1 as [E1 _]. apply (f_equal length) in E1.
        rewrite !length_app in E1. rewrite length_app. lia. }
      exists (length w + n). rewrite En, Nat.add_assoc.
      split; [reflexivity|].
      eapply greedy_round; eassumption.
Qed.

Lemma bind_returned {A B} (w : list string) (a : A) (k : A -> M B) :
  bind (w, Returned a) k = (w ++ fst (k a), snd (k a)).
Proof. unfold bind. destruct (k a). reflexivity. Qed.

Lemma bind_raised {A B} (w : list string) (e : exn) (k : A -> M B) :
  bind (w, Raised e) k = (w, Raised e).
Proof. reflexivity. Qed.

Lemma py_truediv_two (v : Q) : py_truediv v 2 = ret (Qred (v / 2)).
Proof. reflexivity. Qed.

Lemma greedy_total_le (min_len : Z) (s1 s2 : pystr) (n : nat) :
  greedy_total min_len s1 s2 n -> n <= Nat.min (length s1) (length s2).
Proof.
  induction 1 as [s1 s2 _ | s1 s2 w p1 q1 p2 q2 n _ _ [E1 _] [E2 _] _ IH];
    [lia|].
  apply (f_equal length) in E1, E2. rewrite !length_app in *. lia.
Qed.

Lemma inject_nat_le (n k : nat) :
  n <= k -> (inject_Z (Z.of_nat n) <= inject_Z (Z.of_nat k))%Q.
Proof. intros H. rewrite <- Zle_Qle. lia. Qed.

Lemma inject_nat_pos (n : nat) : 0 < n -> (0 < inject_Z (Z.of_nat n))%Q.
Proof.
  intros H. change 0%Q with (inject_Z 0). rewrite <- Zlt_Qlt. lia.
Qed.

Lemma inject_nat_nonneg (n : nat) : (0 <= inject_Z (Z.of_nat n))%Q.
Proof. change 0%Q with (inject_Z 0). rewrite <- Zle_Qle. lia. Qed.

Lemma warn_bind {A} (msg : string) (c : M A) :
  (let* _ := warn msg in c) = (msg :: fst c, snd c).
Proof. destruct c. reflexivity. Qed.

Lemma mean_returned (c1 c2 : M Q) (w1 w2 : list string) (v1 v2 : Q) :
  c1 = (w1, Returned v1) -> c2 = (w2, Returned v2) ->
  (let* x1 := c1 in let* x2 := c2 in let* r := py_truediv (x1 + x2) 2 in
   ret (PyNum (Fin r)))
  = (w1 ++ w2, Returned (PyNum (Fin (Qred ((v1 + v2) / 2))))).
Proof.
  intros -> ->. rewrite !bind_returned, py_truediv_two, bind_ret.
  unfold ret. cbn [fst snd]. rewrite app_nil_r. reflexivity.
Qed.





(** ** Smith-Waterman: where the scores stay between 0 and 1

    The promise of the docstring holds when [match] is positive and no gap
    score is: then no cell exceeds [match] times the smaller of its two
    indices. *)

Lemma div_unit_interval (h d : Q) :
  (0 < d)%Q -> (0 <= h)%Q -> (h <= d)%Q -> (0 <= h / d)%Q /\ (h / d <= 1)%Q.
Proof.
  intros Hd H0 H1. split.
  - apply Qle_shift_div_l; [assumption|]. lra.
  - apply Qle_shift_div_r; [assumption|]. lra.
Qed.

Lemma py_truediv_unit_interval (h d : Q) :
  (0 < d)%Q -> (0 <= h)%Q -> (h <= d)%Q ->
  exists r, py_truediv h d = ret r /\ (0 <= r)%Q /\ (r <= 1)%Q.
Proof.
  intros Hd H0 H1. unfold py_truediv.
  destruct (Qeq_bool d 0) eqn:E; [apply Qeq_bool_iff in E; lra|].
  eexists. split; [reflexivity|]. rewrite Qred_correct.
  apply div_unit_interval; assumption.
Qed.

Section SmithWatermanBound.
Variables (match_ mismatch gap_start gap_continue : Q) (str1 str2 : pystr).
Hypothesis match_pos : (0 < match_)%Q.
Hypothesis mismatch_le : (mismatch <= match_)%Q.
Hypothesis gap_start_le : (gap_start <= 0)%Q.
Hypothesis gap_continue_le : (gap_continue <= 0)%Q.

Local Abbreviation final :=
  (SmithWaterman.run match_ mismatch gap_start gap_continue str1 str2).

Local Abbreviation cap := (score_cap match_).

Lemma cap_succ (k : nat) : (cap (S k) == cap k + match_)%Q.
Proof.
  unfold score_cap. rewrite Nat2Z.inj_succ, <- Z.add_1_r, inject_Z_plus. ring.
Qed.

Lemma cap_mono (k k' : nat) : k <= k' -> (cap k <= cap k')%Q.
Proof.
  intros H. unfold score_cap. apply Qmult_le_l; [assumption|].
  rewrite <- Zle_Qle. lia.
Qed.

Lemma cap_nonneg (k : nat) : (0 <= cap k)%Q.
Proof.
  unfold score_cap. apply Qmult_le_0_compat; [lra|].
  change 0%Q with (inject_Z 0). rewrite <- Zle_Qle. lia.
Qed.

Lemma cell_below_cap (n x y : nat) :
  x + y <= n -> x <= length str1 -> y <= length str2 ->
  (0 <= sw_score final x y)%Q /\ (sw_score final x y <= cap (Nat.min x y))%Q.
Proof.
  destruct (sw_inv_run match_ mismatch gap_start gap_continue str1 str2)
    as [_ _ Hfresh Hcells _ _].
  revert x y. induction n as [|n IH]; intros x y Hn Hx Hy.
  - assert (Hnp : ~ processed (length str2) (1 + length str1) 1 x y)
      by (unfold processed; lia).
    destruct (Hfresh x y Hnp) as [-> _].
    pose proof (cap_nonneg (Nat.min x y)). split; lra.
  - destruct (decide (1 <= x /\ 1 <= y)) as [[Hx1 Hy1]|Hb].
    + destruct (Hcells x y) as [Hs _]; [unfold processed; lia|].
      rewrite Hs. unfold cell_score.
      destruct (IH (x - 1) (y - 1) ltac:(lia) ltac:(lia) ltac:(lia))
        as [_ Hd].
      destruct (IH (x - 1) y ltac:(lia) ltac:(lia) ltac:(lia)) as [_ Hl].
      destruct (IH x (y - 1) ltac:(lia) ltac:(lia) ltac:(lia)) as [_ Ha].
      pose proof (cap_succ (Nat.min (x - 1) (y - 1))) as Hsucc.
      replace (S (Nat.min (x - 1) (y - 1))) with (Nat.min x y) in Hsucc
        by lia.
      pose proof (cap_mono (Nat.min (x - 1) y) (Nat.min x y) ltac:(lia)).
      pose proof (cap_mono (Nat.min x (y - 1)) (Nat.min x y) ltac:(lia)).
      pose proof (cap_nonneg (Nat.min x y)) as Hcap0.
      assert (Hbest : (sw_best match_ mismatch gap_start gap_continue
                         str1 str2 final x y <= cap (Nat.min x y))%Q).
      { unfold sw_best, sw_diagonal, sw_gap_left, sw_gap_above.
        apply Q.max_lub; [apply Q.max_lub|].
        - destruct (char_eqb str1 (x - 1) str2 (y - 1)); lra.
        - destruct (bool_decide _); lra.
        - destruct (bool_decide _); lra. }
      destruct (Qle_bool _ 0) eqn:E; [split; lra|].
      split; [|assumption].
      destruct (Qlt_le_dec 0 (sw_best match_ mismatch gap_start
                                gap_continue str1 str2 final x y))
        as [H'|H']; [lra|].
      apply Qle_bool_iff in H'. congruence.
    + assert (Hnp : ~ processed (length str2) (1 + length str1) 1 x y)
        by (unfold processed; lia).
      destruct (Hfresh x y Hnp) as [-> _].
      pose proof (cap_nonneg (Nat.min x y)). split; lra.
Qed.

Lemma compute_score_below_cap :
  (0 <= SmithWaterman.compute_score match_ mismatch gap_start gap_continue
          str1 str2)%Q
  /\ (SmithWaterman.compute_score match_ mismatch gap_start gap_continue
        str1 str2 <= cap (Nat.min (length str1) (length str2)))%Q.
Proof.
  destruct (sw_inv_run match_ mismatch gap_start gap_continue str1 str2)
    as [_ _ _ _ _ (i & j & Hi & Hj & Heq)].
  unfold SmithWaterman.compute_score. rewrite <- Heq.
  destruct (cell_below_cap (i + j) i j ltac:(lia) Hi Hj) as [H0 H1].
  pose proof (cap_mono (Nat.min i j)
                (Nat.min (length str1) (length str2)) ltac:(lia)).
  split; lra.
Qed.

(** With a positive [match], a mismatch score at most [match] and gap
    scores at most 0, the score of two present non-empty strings lies
    between 0 and 1 under each of the three normalizations. *)
Lemma smith_waterman_unit_interval (norm : string) :
  str1 <> [] -> str2 <> [] ->
  norm = "min"%string \/ norm = "max"%string \/ norm = "mean"%string ->
  exists r,
    SmithWaterman.sw_apply match_ mismatch gap_start gap_continue norm
      (Some str1, Some str2) = ret (PyNum (Fin r))
    /\ (0 <= r)%Q /\ (r <= 1)%Q.
Proof.
  intros H1 H2 Hnorm.
  destruct compute_score_below_cap as [Hlo Hhi].
  set (h := SmithWaterman.compute_score match_ mismatch gap_start
              gap_continue str1 str2) in *.
  assert (Hl1 : 1 <= length str1) by (destruct str1; [congruence|simpl; lia]).
  assert (Hl2 : 1 <= length str2) by (destruct str2; [congruence|simpl; lia]).
  pose proof (cap_mono 1 (Nat.min (length str1) (length str2)) ltac:(lia))
    as Hmin1.
  pose proof (cap_mono (Nat.min (length str1) (length str2))
                (Nat.max (length str1) (length str2)) ltac:(lia)) as Hmax.
  assert (Hcap1 : (cap 1 == match_)%Q) by (unfold score_cap; simpl; ring).
  assert (Hsum : (cap (length str1 + length str2)
                  == cap (length str1) + cap (length str2))%Q).
  { unfold score_cap. rewrite Nat2Z.inj_add, inject_Z_plus. ring. }
  pose proof (cap_mono (Nat.min (length str1) (length str2)) (length str1)
                ltac:(lia)).
  pose proof (cap_mono (Nat.min (length str1) (length str2)) (length str2)
                ltac:(lia)).
  assert (Hres : exists r,
            SmithWaterman.normalize match_ norm str1 str2 h
            = ret (PyNum (Fin r)) /\ (0 <= r)%Q /\ (r <= 1)%Q).
  { unfold SmithWaterman.normalize.
    destruct Hnorm as [-> | [-> | ->]]; simpl.
    - destruct (py_truediv_unit_interval h
                  (inject_Z (Z.of_nat (Nat.min (length str1) (length str2)))
                   * match_)%Q) as (r & -> & Hr);
        [unfold score_cap in *; lra..|].
      exists r. split; [reflexivity|assumption].
    - destruct (py_truediv_unit_interval h
                  (inject_Z (Z.of_nat (Nat.max (length str1) (length str2)))
                   * match_)%Q) as (r & -> & Hr);
        [unfold score_cap in *; lra..|].
      exists r. split; [reflexivity|assumption].
    - destruct (py_truediv_unit_interval (2 * h)%Q
                  (inject_Z (Z.of_nat (length str1 + length str2))
                   * match_)%Q) as (r & -> & Hr);
        [unfold score_cap in *; lra..|].
      exists r. split; [reflexivity|assumption]. }
  destruct Hres as (r & Hr & Hbounds). exists r. split; [|assumption].
  unfold SmithWaterman.sw_apply.
  destruct str1 as [|c1 s1']; [congruence|].
  destruct str2 as [|c2 s2']; [congruence|].
  simpl. simpl in Hr. fold h. rewrite Hr. reflexivity.
Qed.

End SmithWatermanBound.

(** ** The reference primitives are symmetric *)

Lemma levenshtein_cons (x y : ascii) (a b : pystr) :
  Reference.levenshtein (x :: a) (y :: b)
  = Nat.min (Nat.min (S (Reference.levenshtein a (y :: b)))
                     (S (Reference.levenshtein (x :: a) b)))
            ((if bool_decide (x = y) then 0 else 1)
             + Reference.levenshtein a b).
Proof. reflexivity. Qed.

Lemma levenshtein_nil_r (a : pystr) : Reference.levenshtein a [] = length a.
Proof. destruct a; reflexivity. Qed.

Lemma levenshtein_sym (a b : pystr) :
  Reference.levenshtein a b = Reference.levenshtein b a.
Proof.
  revert b. induction a as [|x a IHa]; intros b.
  - rewrite levenshtein_nil_r. reflexivity.
  - induction b as [|y b IHb]; [rewrite levenshtein_nil_r; reflexivity|].
    rewrite !levenshtein_cons, IHb, (IHa (y :: b)), (IHa b).
    rewrite (bool_decide_ext (y = x) (x = y)) by (split; congruence).
    lia.
Qed.

(** *** Searching a range of positions *)

Lemma find_seq_Some_elim (p : nat -> bool) (s n j : nat) :
  find p (seq s n) = Some j ->
  s <= j < s + n /\ p j = true /\ forall j', s <= j' < j -> p j' = false.
Proof.
  revert s. induction n as [|n IH]; intros s; simpl; [discriminate|].
  destruct (p s) eqn:E.
  - intros [= <-]. split; [lia|]. split; [exact E|]. intros j' Hj'. lia.
  - intros H. destruct (IH _ H) as (Hr & Hp & Hmin).
    split; [lia|]. split; [exact Hp|]. intros j' Hj'.
    destruct (decide (j' = s)) as [->|]; [exact E|]. apply Hmin. lia.
Qed.

Lemma find_seq_None_elim (p : nat -> bool) (s n : nat) :
  find p (seq s n) = None -> forall j, s <= j < s + n -> p j = false.
Proof.
  revert s. induction n as [|n IH]; intros s; simpl; [intros _ j Hj; lia|].
  destruct (p s) eqn:E; [discriminate|]. intros H j Hj.
  destruct (decide (j = s)) as [->|]; [exact E|]. apply (IH _ H). lia.
Qed.

(** Two searches that look for the same positions find the same one. *)
Lemma find_seq_same (p q : nat -> bool) (s n s' n' : nat) :
  (forall j, (s <= j < s + n /\ p j = true)
             <-> (s' <= j < s' + n' /\ q j = true)) ->
  find p (seq s n) = find q (seq s' n').
Proof.
  intros H.
  destruct (find p (seq s n)) as [j|] eqn:Ep,
           (find q (seq s' n')) as [j'|] eqn:Eq; [| | |reflexivity].
  - apply find_seq_Some_elim in Ep, Eq.
    destruct Ep as (Hr & Hp & Hmin), Eq as (Hr' & Hq & Hmin').
    destruct (proj1 (H j) (conj Hr Hp)) as [Hr2 Hq2].
    destruct (proj2 (H j') (conj Hr' Hq)) as [Hr3 Hp3].
    f_equal. destruct (Nat.lt_total j j') as [Hlt|[->|Hlt]];
      [|reflexivity|].
    + rewrite (Hmin' j) in Hq2 by lia. discriminate.
    + rewrite (Hmin j') in Hp3 by lia. discriminate.
  - apply find_seq_Some_elim in Ep. destruct Ep as (Hr & Hp & _).
    destruct (proj1 (H j) (conj Hr Hp)) as [Hr2 Hq2].
    rewrite (find_seq_None_elim _ _ _ Eq j Hr2) in Hq2. discriminate.
  - apply find_seq_Some_elim in Eq. destruct Eq as (Hr & Hq & _).
    destruct (proj2 (H j') (conj Hr Hq)) as [Hr2 Hp2].
    rewrite (find_seq_None_elim _ _ _ Ep j' Hr2) in Hp2. discriminate.
Qed.

(** *** First fit is stable *)

Lemma taken_spec (M : list (nat * nat)) (j : nat) :
  taken M j = true <-> exists i, (i, j) ∈ M.
Proof.
  unfold taken. rewrite bool_decide_eq_true, list_elem_of_fmap. split.
  - intros ([i j'] & -> & H). exists i. exact H.
  - intros [i H]. exists (i, j). split; [reflexivity|exact H].
Qed.

(** What holds of the pairs when first fit has gone through the positions
    below [k] of the first side. *)
Lemma first_fit_invariant (E : nat -> nat -> bool) (n1 n2 : nat) :
  let M := first_fit E n1 n2 in
  stable E n1 n2 M /\ NoDup M.*1 /\ NoDup M.*2.
Proof.
  cbv zeta. unfold first_fit.
  apply (fold_left_seq_invariant (first_fit_step E n2)
           (fun k M => stable E k n2 M /\ NoDup M.*1 /\ NoDup M.*2) n1 0).
  - split; [|split; constructor].
    split; [intros i j H; inversion H|].
    split; [intros i j j' H; inversion H|].
    split; [intros i i' j H; inversion H|]. intros i j Hi. lia.
  - intros k M Hk ((Hin & Hf1 & Hf2 & Hst) & Hn1 & Hn2).
    unfold first_fit_step.
    destruct (find _ (seq 0 n2)) as [j|] eqn:Efind.
    + apply find_seq_Some_elim in Efind.
      destruct Efind as (Hj & Hp & Hmin).
      apply andb_true_iff in Hp. destruct Hp as [HE Hfree].
      apply negb_true_iff in Hfree.
      assert (Hfresh : forall i', ~ (i', j) ∈ M).
      { intros i' H. assert (taken M j = true) by (apply taken_spec; eauto).
        congruence. }
      split; [split; [|split; [|split]]|split].
      * intros i j0 H. apply elem_of_cons in H. destruct H as [Heq|H].
        -- injection Heq as -> ->. split; [lia|]. split; [lia|exact HE].
        -- destruct (Hin i j0 H) as (? & ? & ?).
           split; [lia|]. split; assumption.
      * intros i j1 j2 H1 H2. apply elem_of_cons in H1, H2.
        destruct H1 as [Heq1|H1], H2 as [Heq2|H2].
        -- congruence.
        -- injection Heq1 as -> ->. destruct (Hin _ _ H2). lia.
        -- injection Heq2 as -> ->. destruct (Hin _ _ H1). lia.
        -- apply (Hf1 i); assumption.
      * intros i1 i2 j0 H1 H2. apply elem_of_cons in H1, H2.
        destruct H1 as [Heq1|H1], H2 as [Heq2|H2].
        -- congruence.
        -- injection Heq1 as -> ->. destruct (Hfresh _ H2).
        -- injection Heq2 as -> ->. destruct (Hfresh _ H1).
        -- apply (Hf2 i1 i2 j0); assumption.
      * intros i j0 Hi Hj0 Hedge.
        destruct (decide (i = k)) as [->|Hne].
        -- destruct (le_lt_dec j j0) as [Hle|Hlt].
           ++ left. exists j. split; [exact Hle|]. left.
           ++ right. pose proof (Hmin j0 ltac:(lia)) as Hq.
              cbv beta in Hq. rewrite Hedge in Hq. simpl in Hq.
              apply negb_false_iff in Hq.
              apply taken_spec in Hq. destruct Hq as [i' Hi'].
              exists i'. destruct (Hin _ _ Hi'). split; [lia|].
              right. exact Hi'.
        -- destruct (Hst i j0 ltac:(lia) Hj0 Hedge)
             as [(j' & Hle & H)|(i' & Hle & H)].
           ++ left. exists j'. split; [exact Hle|]. right. exact H.
           ++ right. exists i'. split; [exact Hle|]. right. exact H.
      * simpl. constructor; [|exact Hn1]. intros H.
        apply list_elem_of_fmap in H. destruct H as ([i j0] & -> & H).
        destruct (Hin _ _ H). simpl in *. lia.
      * simpl. constructor; [|exact Hn2]. intros H.
        apply list_elem_of_fmap in H. destruct H as ([i j0] & -> & H).
        apply (Hfresh i). exact H.
    + split; [split; [|split; [|split]]|split]; try assumption.
      * intros i j0 H. destruct (Hin i j0 H) as (? & ? & ?).
        split; [lia|]. split; assumption.
      * intros i j0 Hi Hj0 Hedge.
        destruct (decide (i = k)) as [->|Hne].
        -- right. pose proof (find_seq_None_elim _ _ _ Efind j0 ltac:(lia))
             as Hq.
           cbv beta in Hq. rewrite Hedge in Hq. simpl in Hq.
           apply negb_false_iff in Hq.
           apply taken_spec in Hq. destruct Hq as [i' Hi'].
           exists i'. destruct (Hin _ _ Hi'). split; [lia|exact Hi'].
        -- apply Hst; [lia|assumption..].
Qed.

(** *** A stable set of pairs is unique *)

Lemma stable_included (E : nat -> nat -> bool) (n1 n2 n : nat) :
  forall M M' i j,
    stable E n1 n2 M -> stable E n1 n2 M' -> i + j < n ->
    (i, j) ∈ M -> (i, j) ∈ M'.
Proof.
  induction n as [|n IH]; intros M M' i j HM HM' Hn Hin; [lia|].
  destruct HM as (Hin1 & Hf1 & Hf2 & Hst1).
  destruct (Hin1 i j Hin) as (Hi & Hj & Hedge).
  pose proof HM' as (Hin2 & Hg1 & Hg2 & Hst2).
  destruct (Hst2 i j Hi Hj Hedge) as [(j' & Hle & H)|(i' & Hle & H)].
  - destruct (decide (j' = j)) as [->|Hne]; [exact H|].
    assert (H' : (i, j') ∈ M).
    { apply (IH M' M i j' HM' (conj Hin1 (conj Hf1 (conj Hf2 Hst1))));
        [lia|exact H]. }
    rewrite (Hf1 i j j' Hin H') in Hne. contradiction.
  - destruct (decide (i' = i)) as [->|Hne]; [exact H|].
    assert (H' : (i', j) ∈ M).
    { apply (IH M' M i' j HM' (conj Hin1 (conj Hf1 (conj Hf2 Hst1))));
        [lia|exact H]. }
    rewrite (Hf2 i i' j Hin H') in Hne. contradiction.
Qed.

Lemma stable_unique (E : nat -> nat -> bool) (n1 n2 : nat)
  (M M' : list (nat * nat)) (i j : nat) :
  stable E n1 n2 M -> stable E n1 n2 M' -> (i, j) ∈ M <-> (i, j) ∈ M'.
Proof.
  intros HM HM'. split; apply (stable_included E n1 n2 (S (i + j)));
    try assumption; lia.
Qed.

Lemma elem_of_swap (M : list (nat * nat)) (i j : nat) :
  (j, i) ∈ prod_swap <$> M <-> (i, j) ∈ M.
Proof.
  rewrite list_elem_of_fmap. split.
  - intros ([i' j'] & Heq & H). injection Heq as -> ->. exact H.
  - intros H. exists (i, j). split; [reflexivity|exact H].
Qed.

(** Stability does not prefer a side. *)
Lemma stable_swap (E E' : nat -> nat -> bool) (n1 n2 : nat)
  (M : list (nat * nat)) :
  (forall i j, E' j i = E i j) ->
  stable E n1 n2 M -> stable E' n2 n1 (prod_swap <$> M).
Proof.
  intros HE (Hin & Hf1 & Hf2 & Hst).
  split; [|split; [|split]].
  - intros j i H. apply (proj1 (elem_of_swap M _ _)) in H.
    destruct (Hin i j H) as (? & ? & ?). rewrite HE. auto.
  - intros j i i' H H'. apply (proj1 (elem_of_swap M _ _)) in H, H'.
    apply (Hf2 i i' j); assumption.
  - intros j j' i H H'. apply (proj1 (elem_of_swap M _ _)) in H, H'.
    apply (Hf1 i j j'); assumption.
  - intros j i Hj Hi Hedge. rewrite HE in Hedge.
    destruct (Hst i j Hi Hj Hedge) as [(j' & Hle & H)|(i' & Hle & H)].
    + right. exists j'. split; [exact Hle|].
      apply (proj2 (elem_of_swap M _ _)). exact H.
    + left. exists i'. split; [exact Hle|].
      apply (proj2 (elem_of_swap M _ _)). exact H.
Qed.

(** First fit from the second side finds the same pairs. *)
Lemma first_fit_swap (E E' : nat -> nat -> bool) (n1 n2 : nat) (i j : nat) :
  (forall i j, E' j i = E i j) ->
  (j, i) ∈ first_fit E' n2 n1 <-> (i, j) ∈ first_fit E n1 n2.
Proof.
  intros HE.
  destruct (first_fit_invariant E n1 n2) as [HM _].
  destruct (first_fit_invariant E' n2 n1) as [HM' _].
  rewrite <- elem_of_swap.
  apply (stable_unique E n1 n2); [|exact HM].
  apply (stable_swap E' E n2 n1); [|exact HM'].
  intros j' i'. symmetry. apply HE.
Qed.

(** *** The flags of Jaro's matching are those of a first fit *)

Lemma length_flags_of (n : nat) (S : list nat) : length (flags_of n S) = n.
Proof. unfold flags_of. rewrite length_fmap, length_seq. reflexivity. Qed.

Lemma flags_of_lookup (n : nat) (S : list nat) (k : nat) :
  k < n -> flags_of n S !! k = Some (bool_decide (k ∈ S)).
Proof.
  intros H. unfold flags_of.
  rewrite list_lookup_fmap, lookup_seq_lt by exact H. reflexivity.
Qed.

Lemma flags_of_nil (n : nat) : flags_of n [] = replicate n false.
Proof.
  apply list_eq. intros k. destruct (decide (k < n)) as [H|H].
  - rewrite flags_of_lookup, lookup_replicate_2 by exact H.
    rewrite bool_decide_eq_false_2; [reflexivity|]. intros Hin. inversion Hin.
  - rewrite !lookup_ge_None_2; [reflexivity|..].
    + rewrite length_replicate. lia.
    + rewrite length_flags_of. lia.
Qed.

Lemma flags_of_insert (n : nat) (S : list nat) (j : nat) :
  <[j := true]> (flags_of n S) = flags_of n (j :: S).
Proof.
  apply list_eq. intros k. destruct (decide (k < n)) as [H|H].
  - rewrite (flags_of_lookup n (j :: S)) by exact H.
    destruct (decide (k = j)) as [->|Hne].
    + rewrite list_lookup_insert_eq by (rewrite length_flags_of; exact H).
      rewrite bool_decide_eq_true_2; [reflexivity|left].
    + rewrite list_lookup_insert_ne by congruence.
      rewrite flags_of_lookup by exact H. f_equal.
      apply bool_decide_ext. rewrite elem_of_cons. tauto.
  - rewrite !lookup_ge_None_2; [reflexivity|..].
    + rewrite length_flags_of. lia.
    + rewrite length_insert, length_flags_of. lia.
Qed.

Lemma flags_of_ext (n : nat) (S S' : list nat) :
  (forall k, k ∈ S <-> k ∈ S') -> flags_of n S = flags_of n S'.
Proof.
  intros H. unfold flags_of. apply list_fmap_ext. intros _ k _.
  apply bool_decide_ext, H.
Qed.

Lemma jaro_edge_sym (s1 s2 : pystr) (i j : nat) :
  jaro_edge s2 s1 j i = jaro_edge s1 s2 i j.
Proof.
  unfold jaro_edge. cbv zeta.
  rewrite (Nat.max_comm (length s2) (length s1)).
  rewrite (andb_comm (j <=? _) (i <=? _)). f_equal.
  destruct (s1 !! i) as [c|], (s2 !! j) as [c'|]; try reflexivity.
  apply bool_decide_ext. split; congruence.
Qed.

(** The search of [find_match] in its window is the search of a free
    admissible position among all positions of the second string. *)
Lemma find_match_first_fit (s1 s2 : pystr) (M : list (nat * nat))
  (i : nat) (c : ascii) :
  let search_range := Nat.max (length s1) (length s2) / 2 - 1 in
  s1 !! i = Some c ->
  Reference.find_match c s2 (flags_of (length s2) M.*2)
    (i - search_range) (Nat.min (i + search_range) (length s2 - 1))
  = find (fun j => jaro_edge s1 s2 i j && negb (taken M j))
      (seq 0 (length s2)).
Proof.
  intros r Hc. unfold Reference.find_match. apply find_seq_same.
  intros j. unfold jaro_edge. fold r. rewrite Hc. split.
  - intros [Hwin Hp]. apply andb_true_iff in Hp. destruct Hp as [Hflag Hch].
    apply bool_decide_eq_true in Hch.
    assert (Hj : j < length s2) by (eapply lookup_lt_Some, Hch).
    split; [lia|]. rewrite Hch.
    rewrite flags_of_lookup in Hflag by exact Hj. simpl in Hflag.
    unfold taken. rewrite Hflag. rewrite bool_decide_eq_true_2 by reflexivity.
    rewrite andb_true_r, andb_true_r.
    apply andb_true_iff. split; apply Nat.leb_le; lia.
  - intros [Hj Hq]. apply andb_true_iff in Hq. destruct Hq as [Hq Hfree].
    apply andb_true_iff in Hq. destruct Hq as [Hq Hch].
    apply andb_true_iff in Hq. destruct Hq as [H1 H2].
    apply Nat.leb_le in H1, H2.
    destruct (s2 !! j) as [c'|] eqn:Ec; [|discriminate].
    apply bool_decide_eq_true in Hch. subst c'.
    split; [lia|]. rewrite flags_of_lookup by lia. simpl.
    unfold taken in Hfree. rewrite Hfree.
    rewrite bool_decide_eq_true_2 by reflexivity. reflexivity.
Qed.

Lemma fold_left_related {S T A} (R : S -> T -> Prop) (f : S -> A -> S)
  (g : T -> A -> T) (l : list A) (s : S) (t : T) :
  R s t ->
  (forall k s t, In k l -> R s t -> R (f s k) (g t k)) ->
  R (fold_left f l s) (fold_left g l t).
Proof.
  revert s t. induction l as [|k l IH]; intros s t H0 Hstep; [exact H0|].
  simpl. apply IH.
  - apply Hstep; [left; reflexivity|exact H0].
  - intros k' s' t' Hin. apply Hstep. right. exact Hin.
Qed.

Lemma matching_first_fit (s1 s2 : pystr) :
  let M := first_fit (jaro_edge s1 s2) (length s1) (length s2) in
  Reference.matching s1 s2
  = (flags_of (length s1) M.*1, flags_of (length s2) M.*2).
Proof.
  cbv zeta. unfold Reference.matching, first_fit.
  apply (fold_left_related
           (fun (fl : list bool * list bool) (M : list (nat * nat)) =>
              fl = (flags_of (length s1) M.*1, flags_of (length s2) M.*2))).
  - rewrite !flags_of_nil. reflexivity.
  - intros k fl M Hin ->. apply in_seq in Hin.
    destruct (lookup_lt_is_Some_2 s1 k ltac:(lia)) as [c Hc].
    rewrite Hc. rewrite (find_match_first_fit s1 s2 M k c Hc).
    unfold first_fit_step.
    destruct (find _ (seq 0 (length s2))) as [j|]; [|reflexivity].
    rewrite !flags_of_insert. reflexivity.
Qed.

Lemma elem_of_fst_pairs (M : list (nat * nat)) (i : nat) :
  i ∈ M.*1 <-> exists j, (i, j) ∈ M.
Proof.
  rewrite list_elem_of_fmap. split.
  - intros ([i' j] & -> & H). exists j. exact H.
  - intros [j H]. exists (i, j). split; [reflexivity|exact H].
Qed.

Lemma elem_of_snd_pairs (M : list (nat * nat)) (j : nat) :
  j ∈ M.*2 <-> exists i, (i, j) ∈ M.
Proof.
  rewrite list_elem_of_fmap. split.
  - intros ([i j'] & -> & H). exists i. exact H.
  - intros [i H]. exists (i, j). split; [reflexivity|exact H].
Qed.

(** Jaro's matching flags the same positions whichever string comes
    first. *)
Lemma matching_swap (s1 s2 : pystr) :
  Reference.matching s2 s1
  = (snd (Reference.matching s1 s2), fst (Reference.matching s1 s2)).
Proof.
  rewrite (matching_first_fit s1 s2), (matching_first_fit s2 s1).
  cbn [fst snd].
  pose proof (fun i j => first_fit_swap (jaro_edge s1 s2) (jaro_edge s2 s1)
                           (length s1) (length s2) i j
                           (jaro_edge_sym s1 s2)) as Hswap.
  f_equal; apply flags_of_ext; intros k.
  - rewrite elem_of_fst_pairs, elem_of_snd_pairs.
    split; intros [i H]; exists i; apply Hswap; exact H.
  - rewrite elem_of_fst_pairs, elem_of_snd_pairs.
    split; intros [j H]; exists j; apply Hswap; exact H.
Qed.

Lemma length_flagged_filter (s : pystr) (S : list nat) (a : nat) :
  length (Reference.flagged s
            ((fun k => bool_decide (k ∈ S)) <$> seq a (length s)))
  = length (filter (fun k => k ∈ S) (seq a (length s))).
Proof.
  unfold Reference.flagged. rewrite length_map.
  revert a. induction s as [|c s IH]; intros a; [reflexivity|].
  cbn [length seq fmap list_fmap zip zip_with].
  rewrite !filter_cons. cbn [snd].
  destruct (decide (a ∈ S)) as [Hin|Hout].
  - rewrite bool_decide_eq_true_2 by exact Hin.
    rewrite decide_True by reflexivity. cbn [length]. f_equal. apply IH.
  - rewrite bool_decide_eq_false_2 by exact Hout.
    rewrite decide_False by discriminate. apply IH.
Qed.

Lemma length_flagged (s : pystr) (S : list nat) :
  NoDup S -> (forall k, k ∈ S -> k < length s) ->
  length (Reference.flagged s (flags_of (length s) S)) = length S.
Proof.
  intros Hnd Hlt. unfold flags_of. rewrite length_flagged_filter.
  apply Permutation_length, NoDup_Permutation;
    [apply NoDup_filter, NoDup_seq|exact Hnd|].
  intros k. rewrite list_elem_of_filter, elem_of_seq. split.
  - intros [H _]. exact H.
  - intros H. split; [exact H|]. specialize (Hlt k H). lia.
Qed.

Lemma length_mismatches_swap {A} `{EqDecision A} (m1 m2 : list A) :
  length (filter (fun p => fst p ≠ snd p) (zip m2 m1))
  = length (filter (fun p => fst p ≠ snd p) (zip m1 m2)).
Proof.
  revert m2. induction m1 as [|x m1 IH]; intros [|y m2]; try reflexivity.
  cbn [zip zip_with]. rewrite !filter_cons. cbn [fst snd].
  destruct (decide (x = y)) as [->|Hne].
  - rewrite !decide_False by (intros H; apply H; reflexivity). apply IH.
  - rewrite !decide_True by congruence. cbn [length]. f_equal. apply IH.
Qed.

Lemma jaro_sym (s1 s2 : pystr) : Reference.jaro s1 s2 = Reference.jaro s2 s1.
Proof.
  unfold Reference.jaro.
  rewrite (orb_comm (length s2 =? 0)).
  destruct ((length s1 =? 0) || (length s2 =? 0)); [reflexivity|].
  rewrite (matching_swap s1 s2).
  pose proof (matching_first_fit s1 s2) as HM. cbv zeta in HM.
  destruct (first_fit_invariant (jaro_edge s1 s2) (length s1) (length s2))
    as ((Hin & _) & Hn1 & Hn2).
  set (M := first_fit (jaro_edge s1 s2) (length s1) (length s2)) in *.
  destruct (Reference.matching s1 s2) as [f1 f2].
  injection HM as -> ->. cbn [fst snd]. cbv zeta.
  assert (H1 : length (Reference.flagged s1 (flags_of (length s1) M.*1))
               = length M).
  { rewrite length_flagged, length_fmap; [reflexivity|exact Hn1|].
    intros k Hk. apply elem_of_fst_pairs in Hk. destruct Hk as [j Hk].
    apply (Hin k j Hk). }
  assert (H2 : length (Reference.flagged s2 (flags_of (length s2) M.*2))
               = length M).
  { rewrite length_flagged, length_fmap; [reflexivity|exact Hn2|].
    intros k Hk. apply elem_of_snd_pairs in Hk. destruct Hk as [i Hk].
    apply (Hin i k Hk). }
  rewrite H1, H2. destruct (length M =? 0); [reflexivity|].
  rewrite (length_mismatches_swap
             (Reference.flagged s1 (flags_of (length s1) M.*1))
             (Reference.flagged s2 (flags_of (length s2) M.*2))).
  apply Qred_complete.
  rewrite (Qplus_comm (inject_Z (Z.of_nat (length M))
                       / inject_Z (Z.of_nat (length s1)))).
  reflexivity.
Qed.

(** C9. Swapping the two Series leaves the scores of the Jaro, Levenshtein,
    q-gram and cosine similarities unchanged, and the shared vocabulary is
    the same list of n-grams whichever Series comes first.  The two
    primitives of jellyfish are the reference definitions, whose symmetry
    is proved above: Jaro's matching flags the same positions from either
    side, and Levenshtein's recurrence does not prefer a string. *)
Theorem similarity_symmetric (build : analyzer_builder) (s1 s2 : series)
  (include_wb : bool) (ngram : nat * nat) :
  jaro_similarity Reference.jf s1 s2 = jaro_similarity Reference.jf s2 s1
  /\ levenshtein_similarity Reference.jf s1 s2
     = levenshtein_similarity Reference.jf s2 s1
  /\ qgram_similarity build s1 s2 include_wb ngram
     = qgram_similarity build s2 s1 include_wb ngram
  /\ cosine_similarity build s1 s2 include_wb ngram
     = cosine_similarity build s2 s1 include_wb ngram
  /\ vocabulary (build (if include_wb then char_wb else char) ngram)
       (fillna (s1 ++ s2))
     = vocabulary (build (if include_wb then char_wb else char) ngram)
         (fillna (s2 ++ s1)).
Proof.
  apply symmetric_primitives_symmetric_scores.
  intros i a b _ _. unfold Reference.jf.
  cbn [jaro_distance levenshtein_distance].
  rewrite (jaro_sym a b), (levenshtein_sym a b). split; reflexivity.
Qed.

(** * Further properties

    ** Longest common substring: the two orderings *)

Lemma accumulate_outcome (min_len : Z) (fuel : nat) (x : elem * elem)
  (acc : nat) :
  LCS.accumulate min_len fuel x acc = unfinished
  \/ exists n, LCS.accumulate min_len fuel x acc = ret n.
Proof.
  revert x acc. induction fuel as [|fuel IH]; intros x acc;
    [left; reflexivity|].
  rewrite accumulate_S. destruct (LCS.lcs_iteration min_len x) as [x' l].
  destruct (Z.of_nat l <? min_len)%Z; [right; eexists; reflexivity|].
  apply IH.
Qed.

Lemma normalize_lcs_swap (norm : string) (a b : pystr) (n : nat) :
  LCS.normalize_lcs norm (b, a) n = LCS.normalize_lcs norm (a, b) n.
Proof.
  unfold LCS.normalize_lcs, LCS.dice. cbn [fst snd].
  rewrite (Nat.min_comm (length b)), (Nat.add_comm (length b)),
    (Z.add_comm (Z.of_nat (length b))).
  reflexivity.
Qed.

(** Half the sum of two computed numbers, as [lcs_apply] ends. *)
Lemma mean_commute (c1 c2 : M Q) (w : list string) (e : exn) :
  (c1 = (w, Raised e) \/ exists q, c1 = (w, Returned q)) ->
  (c2 = (w, Raised e) \/ exists q, c2 = (w, Returned q)) ->
  (w = [] \/ (c1 = (w, Raised e) /\ c2 = (w, Raised e))
   \/ ((exists q, c1 = (w, Returned q)) /\ exists q, c2 = (w, Returned q))) ->
  (let* v1 := c1 in let* v2 := c2 in let* r := py_truediv (v1 + v2) 2 in
   ret (PyNum (Fin r)))
  = (let* v1 := c2 in let* v2 := c1 in let* r := py_truediv (v1 + v2) 2 in
     ret (PyNum (Fin r))).
Proof.
  intros [-> | [q1 ->]] [-> | [q2 ->]] Hw; try reflexivity.
  - rewrite bind_returned, !bind_raised. cbn [fst snd].
    destruct Hw as [-> | [[_ H] | [[q H] _]]]; try discriminate.
    reflexivity.
  - rewrite bind_returned, !bind_raised. cbn [fst snd].
    destruct Hw as [-> | [[H _] | [_ [q H]]]]; try discriminate.
    reflexivity.
  - rewrite !bind_returned, !py_truediv_two, !bind_ret. unfold ret.
    cbn [fst snd]. do 4 f_equal. apply Qred_complete.
    rewrite (Qplus_comm q1 q2). reflexivity.
Qed.

(** What [normalize_lcs] can do, for a given pair and normalization: its
    warnings do not depend on the total, and it raises nothing but
    [ZeroDivisionError]; when it warns, the divisor does not depend on the
    total either. *)
Lemma normalize_lcs_shape (norm : string) (x : pystr * pystr) :
  exists w,
    (w = [] \/ (forall n, LCS.normalize_lcs norm x n
                          = (w, Raised ZeroDivisionError))
     \/ (forall n, exists q, LCS.normalize_lcs norm x n = (w, Returned q)))
    /\ forall n,
         LCS.normalize_lcs norm x n = (w, Raised ZeroDivisionError)
         \/ exists q, LCS.normalize_lcs norm x n = (w, Returned q).
Proof.
  unfold LCS.normalize_lcs.
  destruct (String.eqb norm "overlap");
    [|destruct (String.eqb norm "jaccard");
      [|destruct (String.eqb norm "dice")]].
  - exists []. split; [left; reflexivity|]. intros n. unfold py_truediv.
    destruct (Qeq_bool _ 0); [left|right; eexists]; reflexivity.
  - exists []. split; [left; reflexivity|]. intros n. unfold py_truediv.
    destruct (Qeq_bool _ 0); [left|right; eexists]; reflexivity.
  - exists []. split; [left; reflexivity|]. intros n.
    unfold LCS.dice, py_truediv.
    destruct (Qeq_bool _ 0); [left|right; eexists]; reflexivity.
  - eexists [_]. unfold LCS.dice, py_truediv.
    destruct (Qeq_bool _ 0).
    + split; [right; left; intros n; reflexivity|].
      intros n. left. reflexivity.
    + split; [right; right; intros n; eexists; reflexivity|].
      intros n. right. eexists. reflexivity.
Qed.

Lemma bind_unfinished {A B} (k : A -> M B) : bind unfinished k = unfinished.
Proof. reflexivity. Qed.

(** Two loops that end or run out of fuel without warnings can be run in
    either order. *)
Lemma two_loops_swap {A} (c1 c2 : M nat) (F G : nat -> nat -> M A) :
  (c1 = unfinished \/ exists n, c1 = ret n) ->
  (c2 = unfinished \/ exists n, c2 = ret n) ->
  (forall n1 n2, G n2 n1 = F n1 n2) ->
  (let* m1 := c2 in let* m2 := c1 in G m1 m2)
  = (let* n1 := c1 in let* n2 := c2 in F n1 n2).
Proof.
  intros [-> | [n1 ->]] [-> | [n2 ->]] H.
  - reflexivity.
  - rewrite bind_ret. reflexivity.
  - rewrite (bind_ret n1). reflexivity.
  - rewrite !bind_ret. apply H.
Qed.

Lemma lcs_apply_swap (norm : string) (min_len : Z) (fuel : nat)
  (x0 x1 : elem) :
  LCS.lcs_apply norm min_len fuel (x1, x0)
  = LCS.lcs_apply norm min_len fuel (x0, x1).
Proof.
  destruct x0 as [a|], x1 as [b|];
    [|reflexivity|reflexivity|reflexivity].
  unfold LCS.lcs_apply.
  apply (two_loops_swap
           (LCS.accumulate min_len fuel (Some a, Some b) 0)
           (LCS.accumulate min_len fuel (Some b, Some a) 0)
           (fun n1 n2 =>
              let* v1 := LCS.normalize_lcs norm (a, b) n1 in
              let* v2 := LCS.normalize_lcs norm (a, b) n2 in
              let* r := py_truediv (v1 + v2) 2 in
              ret (PyNum (Fin r)))
           (fun m1 m2 =>
              let* v1 := LCS.normalize_lcs norm (b, a) m1 in
              let* v2 := LCS.normalize_lcs norm (b, a) m2 in
              let* r := py_truediv (v1 + v2) 2 in
              ret (PyNum (Fin r)))).
  - apply accumulate_outcome.
  - apply accumulate_outcome.
  - intros n1 n2. cbv beta.
    rewrite (normalize_lcs_swap norm a b n2), (normalize_lcs_swap norm a b n1).
    destruct (normalize_lcs_shape norm (a, b)) as (w & Hw & Hn).
    apply (mean_commute (LCS.normalize_lcs norm (a, b) n2)
             (LCS.normalize_lcs norm (a, b) n1) w ZeroDivisionError);
      try apply Hn.
    destruct Hw as [-> | [H | H]];
      [left; reflexivity|right; left|right; right]; split; apply H.
Qed.

(** X1. Swapping the two Series leaves the longest common substring
    similarity unchanged, whatever the options: errors, warnings and
    scores are the same, because each pair is scored in both orderings. *)
Theorem lcs_similarity_symmetric (norm : string) (min_len : Z) (fuel : nat)
  (s1 s2 : series) :
  LCS.longest_common_substring_similarity norm min_len fuel s2 s1
  = LCS.longest_common_substring_similarity norm min_len fuel s1 s2.
Proof.
  unfold LCS.longest_common_substring_similarity.
  rewrite (Nat.eqb_sym (length s2)), (andb_comm (length s2 =? 0)).
  destruct (negb (length s1 =? length s2)); [reflexivity|].
  destruct ((length s1 =? 0) && (length s2 =? 0)); [reflexivity|].
  cbv zeta. rewrite (concat_axis1_swap s1 s2), apply_axis1_map.
  apply apply_axis1_ext. intros [x0 x1] _. apply lcs_apply_swap.
Qed.

(** ** Longest common substring: a [min_len] below 1 *)

Lemma lcs_iteration_keeps (min_len : Z) (a b : pystr) :
  (min_len <= 0)%Z ->
  exists a' b' l,
    LCS.lcs_iteration min_len (Some a, Some b) = ((Some a', Some b'), l).
Proof.
  intros H. unfold LCS.lcs_iteration.
  destruct (Z.ltb_spec (Z.of_nat (Nat.min (length a) (length b))) min_len);
    [lia|].
  do 3 eexists. reflexivity.
Qed.

Lemma accumulate_never_ends (min_len : Z) (fuel : nat) (a b : pystr)
  (acc : nat) :
  (min_len <= 0)%Z ->
  LCS.accumulate min_len fuel (Some a, Some b) acc = unfinished.
Proof.
  intros H. revert a b acc.
  induction fuel as [|fuel IH]; intros a b acc; [reflexivity|].
  rewrite accumulate_S.
  destruct (lcs_iteration_keeps min_len a b H) as (a' & b' & l & ->).
  destruct (Z.ltb_spec (Z.of_nat l) min_len); [lia|]. apply IH.
Qed.

Lemma apply_axis1_unfinished {A B} (f : A -> M B) (rows : list A) :
  (forall r, In r rows -> f r = unfinished \/ exists v, f r = ret v) ->
  (exists r, In r rows /\ f r = unfinished) ->
  apply_axis1 f rows = unfinished.
Proof.
  induction rows as [|r rows IH]; intros Hall (r0 & Hin & Hr0);
    [destruct Hin|].
  simpl. destruct (Hall r (or_introl eq_refl)) as [-> | [v Hv]];
    [reflexivity|].
  rewrite Hv, bind_ret, IH; [reflexivity| |].
  - intros r' Hr'. apply Hall. right. exact Hr'.
  - destruct Hin as [-> | Hin]; [rewrite Hv in Hr0; discriminate Hr0|].
    exists r0. split; assumption.
Qed.

Lemma concat_axis1_lookup (s1 s2 : series) (i : nat) (x y : elem) :
  s1 !! i = Some x -> s2 !! i = Some y ->
  concat_axis1 s1 s2 !! i = Some (x, y).
Proof.
  revert s2 i. induction s1 as [|x' s1 IH]; intros [|y' s2] [|i] H1 H2;
    try discriminate; simpl in *.
  - congruence.
  - apply IH; assumption.
Qed.

(** X2. With [min_len] at most 0 the loop of [lcs_apply] never ends on two
    present strings: a round keeps both strings present and its length is
    never below [min_len], so no amount of fuel gives a result, for the
    pair and for every call on Series of equal length that hold such a
    row. *)
Theorem lcs_min_len_below_one_never_ends (norm : string) (min_len : Z)
  (fuel : nat) (s1 s2 : series) (i : nat) (a b : pystr) :
  (min_len <= 0)%Z -> length s1 = length s2 ->
  s1 !! i = Some (Some a) -> s2 !! i = Some (Some b) ->
  LCS.lcs_apply norm min_len fuel (Some a, Some b) = unfinished
  /\ LCS.longest_common_substring_similarity norm min_len fuel s1 s2
     = unfinished.
Proof.
  intros Hmin Hlen Ha Hb.
  assert (Hpair : forall a b,
            LCS.lcs_apply norm min_len fuel (Some a, Some b) = unfinished).
  { intros a' b'. unfold LCS.lcs_apply.
    rewrite accumulate_never_ends by assumption. reflexivity. }
  split; [apply Hpair|].
  unfold LCS.longest_common_substring_similarity.
  rewrite Hlen, Nat.eqb_refl. simpl negb. cbv iota.
  destruct (Nat.eqb_spec (length s2) 0) as [E|_].
  { apply lookup_lt_Some in Hb. lia. }
  simpl andb. cbv iota zeta.
  apply apply_axis1_unfinished.
  - intros [[x0|] [x1|]] _; [left; apply Hpair|right..];
      exists (PyNum NaN); reflexivity.
  - exists (Some a, Some b). split; [|apply Hpair].
    apply list_elem_of_In. eapply list_elem_of_lookup_2.
    apply concat_axis1_lookup; eassumption.
Qed.

Lemma lcs_min_len_below_one_never_ends_witness :
  LCS.lcs_apply "dice" 0 1000 (Some (str "ab"), Some (str "cd")) = unfinished
  /\ LCS.longest_common_substring_similarity "dice" 0 1000
       [None; Some (str "ab")] [None; Some (str "cd")] = unfinished.
Proof.
  apply (lcs_min_len_below_one_never_ends "dice" 0 1000
           [None; Some (str "ab")] [None; Some (str "cd")] 1
           (str "ab") (str "cd")); [lia|reflexivity..].
Defined.

(** ** Longest common substring: the range of the scores *)

(** The three quotients of [normalize_lcs], for a total that is at most
    the length of the shorter string. *)
Lemma normalize_lcs_unit (norm : string) (a b : pystr) (n : nat) :
  n <= Nat.min (length a) (length b) ->
  (norm = "overlap"%string -> 0 < Nat.min (length a) (length b)) ->
  0 < length a + length b ->
  exists w v,
    LCS.normalize_lcs norm (a, b) n = (w, Returned v)
    /\ (0 <= v)%Q /\ (v <= 1)%Q.
Proof.
  intros Hn Hov Hlen. unfold LCS.normalize_lcs, LCS.dice. cbn [fst snd].
  pose proof (inject_nat_nonneg n) as H0.
  assert (Hdice : exists v,
            py_truediv (inject_Z (Z.of_nat n * 2))
              (inject_Z (Z.of_nat (length a + length b))) = ret v
            /\ (0 <= v)%Q /\ (v <= 1)%Q).
  { apply py_truediv_unit_interval.
    - apply inject_nat_pos. assumption.
    - change 0%Q with (inject_Z 0). rewrite <- Zle_Qle. lia.
    - rewrite <- Zle_Qle. lia. }
  destruct (String.eqb_spec norm "overlap") as [E|_].
  - destruct (py_truediv_unit_interval (inject_Z (Z.of_nat n))
                (inject_Z (Z.of_nat (Nat.min (length a) (length b)))))
      as (v & -> & Hv).
    + apply inject_nat_pos, Hov, E.
    + assumption.
    + apply inject_nat_le. assumption.
    + exists [], v. split; [reflexivity|assumption].
  - destruct (String.eqb norm "jaccard").
    + destruct (py_truediv_unit_interval (inject_Z (Z.of_nat n))
                  (inject_Z (Z.of_nat (length a) + Z.of_nat (length b)
                             - Z.abs (Z.of_nat n))))
        as (v & -> & Hv).
      * change 0%Q with (inject_Z 0). rewrite <- Zlt_Qlt. lia.
      * assumption.
      * rewrite <- Zle_Qle. lia.
      * exists [], v. split; [reflexivity|assumption].
    + destruct Hdice as (v & Ev & Hv).
      destruct (String.eqb norm "dice").
      * exists [], v. split; assumption.
      * rewrite warn_bind, Ev. eexists _, v. split; [reflexivity|assumption].
Qed.

Lemma mean_unit (v1 v2 : Q) :
  (0 <= v1)%Q -> (v1 <= 1)%Q -> (0 <= v2)%Q -> (v2 <= 1)%Q ->
  (0 <= Qred ((v1 + v2) / 2))%Q /\ (Qred ((v1 + v2) / 2) <= 1)%Q.
Proof.
  intros. rewrite Qred_correct. split.
  - apply Qle_shift_div_l; lra.
  - apply Qle_shift_div_r; lra.
Qed.

(** Where [lcs_apply] returns a number, and in which range. *)
Lemma lcs_apply_returns (norm : string) (min_len : Z) (fuel : nat)
  (a b : pystr) :
  (1 <= min_len)%Z -> length a < fuel -> length b < fuel ->
  (norm = "overlap"%string -> a <> [] /\ b <> []) -> (a <> [] \/ b <> []) ->
  exists w r,
    LCS.lcs_apply norm min_len fuel (Some a, Some b)
    = (w, Returned (PyNum (Fin r)))
    /\ (0 <= r)%Q /\ (r <= 1)%Q.
Proof.
  intros Hmin Ha Hb Hov Hne.
  destruct (accumulate_greedy min_len fuel a b 0 Hmin Ha) as (n1 & E1 & G1).
  destruct (accumulate_greedy min_len fuel b a 0 Hmin Hb) as (n2 & E2 & G2).
  apply greedy_total_le in G1, G2.
  assert (Hlen : 0 < length a + length b).
  { destruct a, b; simpl; try lia. destruct Hne; congruence. }
  assert (Hov' : norm = "overlap"%string
                 -> 0 < Nat.min (length a) (length b)).
  { intros E. destruct (Hov E) as [Ha' Hb'].
    destruct a, b; simpl; try lia; congruence. }
  destruct (normalize_lcs_unit norm a b n1 G1 Hov' Hlen)
    as (w1 & v1 & N1 & Hv1a & Hv1b).
  destruct (normalize_lcs_unit norm a b n2 ltac:(lia) Hov' Hlen)
    as (w2 & v2 & N2 & Hv2a & Hv2b).
  exists (w1 ++ w2), (Qred ((v1 + v2) / 2)).
  split; [|apply mean_unit; assumption].
  unfold LCS.lcs_apply. rewrite E1, E2, !bind_ret.
  apply mean_returned; assumption.
Qed.

Lemma length_concat_axis1 (s1 s2 : series) :
  length (concat_axis1 s1 s2) = Nat.max (length s1) (length s2).
Proof.
  revert s2. induction s1 as [|x s1 IH]; intros [|y s2]; simpl;
    rewrite ?length_map; try reflexivity.
  rewrite IH. reflexivity.
Qed.

(** Rows that all return give a result of one value per row. *)
Lemma apply_axis1_Forall {A B} (f : A -> M B) (P : B -> Prop)
  (rows : list A) :
  (forall r, In r rows -> exists w v, f r = (w, Returned v) /\ P v) ->
  exists w vs,
    apply_axis1 f rows = (w, Returned vs)
    /\ length vs = length rows /\ Forall P vs.
Proof.
  induction rows as [|r rows IH]; intros Hall.
  - exists [], []. split; [reflexivity|]. split; [reflexivity|constructor].
  - destruct (Hall r (or_introl eq_refl)) as (w & v & Ev & Hv).
    destruct IH as (w' & vs & Evs & Hlen & Hvs).
    { intros r' Hr'. apply Hall. right. exact Hr'. }
    exists (w ++ w'), (v :: vs). simpl. rewrite Ev, bind_returned, Evs.
    cbn [fst snd]. rewrite bind_returned. unfold ret. cbn [fst snd].
    rewrite app_nil_r. split; [reflexivity|].
    split; [simpl; lia|constructor; assumption].
Qed.

(** X3. With [min_len >= 1] and fuel beyond the lengths of the strings,
    the longest common substring similarity of two Series of equal length
    returns one score per row, each the missing-value marker or a number
    between 0 and 1, provided no row divides by zero: no row holds two
    empty strings, nor, under the "overlap" normalization, one empty
    string. *)
Theorem lcs_scores_in_unit_interval (norm : string) (min_len : Z)
  (fuel : nat) (s1 s2 : series) :
  (1 <= min_len)%Z -> length s1 = length s2 ->
  (forall i a b, s1 !! i = Some (Some a) -> s2 !! i = Some (Some b) ->
     length a < fuel /\ length b < fuel /\ (a <> [] \/ b <> [])
     /\ (norm = "overlap"%string -> a <> [] /\ b <> [])) ->
  exists w scores,
    LCS.longest_common_substring_similarity norm min_len fuel s1 s2
    = (w, Returned scores)
    /\ length scores = length s1 /\ Forall unit_score scores.
Proof.
  intros Hmin Hlen Hrows.
  unfold LCS.longest_common_substring_similarity.
  rewrite Hlen, Nat.eqb_refl. simpl negb. cbv iota.
  destruct (Nat.eqb_spec (length s2) 0) as [E|_].
  { simpl andb. cbv iota. exists [], [].
    split; [reflexivity|]. split; [simpl; lia|constructor]. }
  simpl andb. cbv iota zeta.
  destruct (apply_axis1_Forall (LCS.lcs_apply norm min_len fuel) unit_score
              (concat_axis1 s1 s2)) as (w & vs & E & Hl & Hvs).
  - intros [[a|] [b|]] Hin.
    + destruct (concat_axis1_present s1 s2 a b Hin) as (i & Hi1 & Hi2).
      destruct (Hrows i a b Hi1 Hi2) as (Ha & Hb & Hne & Hov).
      destruct (lcs_apply_returns norm min_len fuel a b Hmin Ha Hb Hov Hne)
        as (w & r & Er & Hr).
      exists w, (PyNum (Fin r)). split; [exact Er|].
      right. exists r. split; [reflexivity|exact Hr].
    + exists [], (PyNum NaN). split; [reflexivity|left; reflexivity].
    + exists [], (PyNum NaN). split; [reflexivity|left; reflexivity].
    + exists [], (PyNum NaN). split; [reflexivity|left; reflexivity].
  - exists w, vs. split; [exact E|]. split; [|exact Hvs].
    rewrite Hl, length_concat_axis1. lia.
Qed.

Lemma lcs_scores_in_unit_interval_witness :
  exists w scores,
    LCS.longest_common_substring_similarity "overlap" 2 10
      [Some (str "ABCDE"); None] [Some (str "ABCXE"); Some (str "x")]
    = (w, Returned scores)
    /\ length scores = 2 /\ Forall unit_score scores.
Proof.
  apply (lcs_scores_in_unit_interval "overlap" 2 10
           [Some (str "ABCDE"); None] [Some (str "ABCXE"); Some (str "x")]);
    [lia|reflexivity|].
  intros [|[|i]] a b H1 H2; try discriminate.
  injection H1 as <-. injection H2 as <-.
  split; [simpl; lia|]. split; [simpl; lia|].
  split; [left; discriminate|]. intros _. split; discriminate.
Defined.

(** ** Longest common substring: zero denominators *)

Lemma accumulate_short (min_len : Z) (fuel : nat) (a b : pystr) (acc : nat) :
  (1 <= min_len)%Z ->
  (Z.of_nat (Nat.min (length a) (length b)) < min_len)%Z ->
  LCS.accumulate min_len (S fuel) (Some a, Some b) acc = ret acc.
Proof.
  intros Hmin Hshort. rewrite accumulate_S. unfold LCS.lcs_iteration.
  destruct (Z.ltb_spec (Z.of_nat (Nat.min (length a) (length b))) min_len);
    [|lia].
  destruct (Z.ltb_spec (Z.of_nat 0) min_len); [reflexivity|lia].
Qed.

(** X4. With [min_len >= 1] and fuel beyond the lengths of the strings,
    [lcs_apply] raises [ZeroDivisionError] on two present strings exactly
    when both are empty or, under the "overlap" normalization, when one of
    them is: the divisions of [normalize_lcs] have no guard. *)
Theorem lcs_zero_division (norm : string) (min_len : Z) (fuel : nat)
  (a b : pystr) :
  (1 <= min_len)%Z -> length a < fuel -> length b < fuel ->
  snd (LCS.lcs_apply norm min_len fuel (Some a, Some b))
  = Raised ZeroDivisionError
  <-> (a = [] /\ b = []) \/ (norm = "overlap"%string /\ (a = [] \/ b = [])).
Proof.
  intros Hmin Ha Hb. split.
  - intros Hraise.
    destruct (String.eqb_spec norm "overlap") as [Eov|Nov].
    + destruct a as [|c a']; [right; split; [assumption|left; reflexivity]|].
      destruct b as [|c' b']; [right; split; [assumption|right; reflexivity]|].
      destruct (lcs_apply_returns norm min_len fuel (c :: a') (c' :: b')
                  Hmin Ha Hb) as (w & r & E & _).
      * intros _. split; discriminate.
      * left. discriminate.
      * rewrite E in Hraise. discriminate Hraise.
    + destruct (decide (a = [] /\ b = [])) as [|Hboth]; [left; assumption|].
      destruct (lcs_apply_returns norm min_len fuel a b Hmin Ha Hb)
        as (w & r & E & _).
      * intros E. contradiction.
      * destruct a, b; try (left; discriminate); try (right; discriminate).
        exfalso. apply Hboth. split; reflexivity.
      * rewrite E in Hraise. discriminate Hraise.
  - intros Hzero.
    assert (Hshort : (Z.of_nat (Nat.min (length a) (length b)) < min_len)%Z).
    { destruct Hzero as [[-> ->] | [_ [-> | ->]]]; simpl; lia. }
    destruct fuel as [|fuel]; [lia|].
    unfold LCS.lcs_apply.
    rewrite !accumulate_short, !bind_ret by (rewrite 1?Nat.min_comm; lia).
    unfold LCS.normalize_lcs, LCS.dice. cbn [fst snd].
    destruct Hzero as [[-> ->] | [-> Hz]].
    + simpl length. simpl Nat.min. simpl Nat.add.
      destruct (String.eqb norm "overlap"); [reflexivity|].
      destruct (String.eqb norm "jaccard"); [reflexivity|].
      destruct (String.eqb norm "dice"); reflexivity.
    + replace (Nat.min (length a) (length b)) with 0
        by (destruct Hz as [-> | ->]; simpl; lia).
      reflexivity.
Qed.

Lemma lcs_zero_division_witness :
  snd (LCS.lcs_apply "overlap" 2 10 (Some (str "abc"), Some []))
  = Raised ZeroDivisionError.
Proof.
  apply (lcs_zero_division "overlap" 2 10 (str "abc") []);
    [lia|simpl; lia|simpl; lia|].
  right. split; [reflexivity|right; reflexivity].
Defined.

(** ** Longest common substring: nothing in common, and a string against
    itself *)

Lemma common_substring_sym (w s1 s2 : pystr) :
  common_substring w s1 s2 -> common_substring w s2 s1.
Proof. intros [H1 H2]. split; assumption. Qed.

Lemma greedy_total_nothing (min_len : Z) (s1 s2 : pystr) (n : nat) :
  (forall w, common_substring w s1 s2 -> (Z.of_nat (length w) < min_len)%Z) ->
  greedy_total min_len s1 s2 n -> n = 0.
Proof.
  intros Hnone H.
  destruct H as [s1 s2 _ | s1 s2 w p1 q1 p2 q2 n [Hw _] Hlen _ _ _];
    [reflexivity|].
  apply Hnone in Hw. lia.
Qed.

Lemma greedy_total_ge (min_len : Z) (s1 s2 w0 : pystr) (n : nat) :
  greedy_total min_len s1 s2 n -> common_substring w0 s1 s2 ->
  (min_len <= Z.of_nat (length w0))%Z -> length w0 <= n.
Proof.
  intros H Hw0 Hlong.
  destruct H as [s1 s2 Hnone | s1 s2 w p1 q1 p2 q2 n [_ Hw] _ _ _ _].
  - apply Hnone in Hw0. lia.
  - apply Hw in Hw0. lia.
Qed.

Lemma py_truediv_of_zero (d : Q) :
  ~ (d == 0)%Q -> py_truediv (inject_Z 0) d = ret 0%Q.
Proof.
  intros Hd. unfold py_truediv.
  destruct (Qeq_bool d 0) eqn:E; [apply Qeq_bool_iff in E; contradiction|].
  reflexivity.
Qed.

Lemma py_truediv_same (n d : Q) :
  ~ (d == 0)%Q -> (n == d)%Q -> py_truediv n d = ret 1%Q.
Proof.
  intros Hd Hn. unfold py_truediv.
  destruct (Qeq_bool d 0) eqn:E; [apply Qeq_bool_iff in E; contradiction|].
  replace (Qred (n / d)) with 1%Q; [reflexivity|].
  symmetry. transitivity (Qred 1); [apply Qred_complete|reflexivity].
  rewrite Hn. field. exact Hd.
Qed.

Lemma inject_nat_nonzero (n : nat) :
  0 < n -> ~ (inject_Z (Z.of_nat n) == 0)%Q.
Proof. intros H E. pose proof (inject_nat_pos n H). lra. Qed.

(** [normalize_lcs] on a total of 0, where it does not divide by zero. *)
Lemma normalize_lcs_zero (norm : string) (a b : pystr) :
  (norm = "overlap"%string -> 0 < Nat.min (length a) (length b)) ->
  0 < length a + length b ->
  exists w, LCS.normalize_lcs norm (a, b) 0 = (w, Returned 0%Q).
Proof.
  intros Hov Hlen. unfold LCS.normalize_lcs, LCS.dice. cbn [fst snd].
  change (inject_Z (Z.of_nat 0 * 2)) with (inject_Z 0).
  change (inject_Z (Z.of_nat 0)) with (inject_Z 0).
  destruct (String.eqb_spec norm "overlap") as [E|_].
  - rewrite py_truediv_of_zero by (apply inject_nat_nonzero, Hov, E).
    exists []. reflexivity.
  - destruct (String.eqb norm "jaccard").
    + rewrite py_truediv_of_zero.
      * exists []. reflexivity.
      * intros E. change 0%Q with (inject_Z 0) in E.
        apply (proj1 (inject_Z_injective _ _)) in E. simpl in E. lia.
    + rewrite py_truediv_of_zero by (apply inject_nat_nonzero, Hlen).
      destruct (String.eqb norm "dice"); [exists []; reflexivity|].
      rewrite warn_bind. eexists. reflexivity.
Qed.

(** [normalize_lcs] on a total that is the whole of two strings of the
    same length. *)
Lemma normalize_lcs_whole (norm : string) (a b : pystr) :
  0 < length a -> length b = length a ->
  exists w, LCS.normalize_lcs norm (a, b) (length a) = (w, Returned 1%Q).
Proof.
  intros Hlen Hb. unfold LCS.normalize_lcs, LCS.dice. cbn [fst snd].
  rewrite Hb, Nat.min_id.
  destruct (String.eqb norm "overlap").
  - rewrite py_truediv_same;
      [exists []; reflexivity|apply inject_nat_nonzero, Hlen|reflexivity].
  - destruct (String.eqb norm "jaccard").
    + rewrite py_truediv_same; [exists []; reflexivity| |].
      * replace (Z.of_nat (length a) + Z.of_nat (length a)
                 - Z.abs (Z.of_nat (length a)))%Z
          with (Z.of_nat (length a)) by lia.
        apply inject_nat_nonzero, Hlen.
      * replace (Z.of_nat (length a) + Z.of_nat (length a)
                 - Z.abs (Z.of_nat (length a)))%Z
          with (Z.of_nat (length a)) by lia.
        reflexivity.
    + rewrite py_truediv_same.
      * destruct (String.eqb norm "dice"); [exists []; reflexivity|].
        rewrite warn_bind. eexists. reflexivity.
      * apply inject_nat_nonzero. lia.
      * replace (Z.of_nat (length a + length a))
          with (Z.of_nat (length a) * 2)%Z by lia.
        reflexivity.
Qed.

(** X5. Two present strings without a common substring of at least
    [min_len] characters score exactly 0 (for [min_len >= 1], enough fuel
    and outside the zero denominators): nothing shorter than [min_len] is
    ever counted. *)
Theorem lcs_nothing_in_common (norm : string) (min_len : Z) (fuel : nat)
  (a b : pystr) :
  (1 <= min_len)%Z -> length a < fuel -> length b < fuel ->
  (norm = "overlap"%string -> a <> [] /\ b <> []) -> (a <> [] \/ b <> []) ->
  (forall w, common_substring w a b -> (Z.of_nat (length w) < min_len)%Z) ->
  exists w,
    LCS.lcs_apply norm min_len fuel (Some a, Some b)
    = (w, Returned (PyNum (Fin 0))).
Proof.
  intros Hmin Ha Hb Hov Hne Hnone.
  destruct (accumulate_greedy min_len fuel a b 0 Hmin Ha) as (n1 & E1 & G1).
  destruct (accumulate_greedy min_len fuel b a 0 Hmin Hb) as (n2 & E2 & G2).
  apply (greedy_total_nothing min_len a b n1 Hnone) in G1.
  apply (greedy_total_nothing min_len b a n2) in G2;
    [|intros w Hw; apply Hnone, common_substring_sym, Hw].
  subst n1 n2.
  assert (Hlen : 0 < length a + length b).
  { destruct a, b; simpl; try lia. destruct Hne; congruence. }
  assert (Hov' : norm = "overlap"%string
                 -> 0 < Nat.min (length a) (length b)).
  { intros E. destruct (Hov E) as [Ha' Hb'].
    destruct a, b; simpl; try lia; congruence. }
  destruct (normalize_lcs_zero norm a b Hov' Hlen) as (w & N).
  exists (w ++ w). unfold LCS.lcs_apply. rewrite E1, E2, !bind_ret.
  apply (mean_returned _ _ w w 0%Q 0%Q); exact N.
Qed.

Lemma lcs_nothing_in_common_witness :
  exists w,
    LCS.lcs_apply "dice" 2 10 (Some (str "a"), Some (str "xay"))
    = (w, Returned (PyNum (Fin 0))).
Proof.
  apply (lcs_nothing_in_common "dice" 2 10 (str "a") (str "xay"));
    [lia|simpl; lia|simpl; lia|discriminate|left; discriminate|].
  intros w Hw. apply common_substring_length in Hw. simpl in Hw. lia.
Defined.

(** X6. A string at least [min_len] characters long scores exactly 1
    against itself, under every normalization (for [min_len >= 1] and
    enough fuel): the first round takes the whole string. *)
Theorem lcs_identity (norm : string) (min_len : Z) (fuel : nat) (a : pystr) :
  (1 <= min_len)%Z -> (min_len <= Z.of_nat (length a))%Z ->
  length a < fuel ->
  exists w,
    LCS.lcs_apply norm min_len fuel (Some a, Some a)
    = (w, Returned (PyNum (Fin 1))).
Proof.
  intros Hmin Hlong Ha.
  destruct (accumulate_greedy min_len fuel a a 0 Hmin Ha) as (n & E & G).
  assert (Hn : n = length a).
  { pose proof (greedy_total_le _ _ _ _ G) as Hle.
    assert (Hself : common_substring a a a).
    { split; exists [], []; rewrite app_nil_r; reflexivity. }
    pose proof (greedy_total_ge _ _ _ _ _ G Hself Hlong). lia. }
  subst n.
  destruct (normalize_lcs_whole norm a a ltac:(lia) eq_refl) as (w & N).
  exists (w ++ w). unfold LCS.lcs_apply. rewrite E, !bind_ret.
  apply (mean_returned _ _ w w 1%Q 1%Q); exact N.
Qed.

Lemma lcs_identity_witness :
  exists w,
    LCS.lcs_apply "jaccard" 2 10 (Some (str "abc"), Some (str "abc"))
    = (w, Returned (PyNum (Fin 1))).
Proof.
  apply (lcs_identity "jaccard" 2 10 (str "abc")); simpl; lia.
Defined.

(** ** Longest common substring: an unrecognized normalization *)

Lemma dice_cases (x : pystr * pystr) :
  (forall n, LCS.dice x n = raise ZeroDivisionError)
  \/ (forall n, exists v, LCS.dice x n = ret v).
Proof.
  unfold LCS.dice, py_truediv.
  destruct (Qeq_bool _ 0); [left|right]; intros n;
    [reflexivity|eexists; reflexivity].
Qed.

(** X7. A normalization other than "overlap", "jaccard" and "dice" gives
    the outcome of "dice" on every pair of present strings, with one call
    of [warnings.warn] for each call of [normalize_lcs]: two when the pair
    is scored, one when the first call divides by zero, none when the
    loops do not end.  (The filter the module installs when it is imported
    keeps these warnings from being shown.) *)
Theorem lcs_unrecognized_norm (norm : string) (min_len : Z) (fuel : nat)
  (a b : pystr) :
  norm <> "overlap"%string -> norm <> "jaccard"%string ->
  norm <> "dice"%string ->
  LCS.lcs_apply norm min_len fuel (Some a, Some b)
  = match snd (LCS.lcs_apply "dice" min_len fuel (Some a, Some b)) with
    | Returned v => ([unrecognized_norm; unrecognized_norm], Returned v)
    | Raised e => ([unrecognized_norm], Raised e)
    | Unfinished => unfinished
    end.
Proof.
  intros H1 H2 H3. apply String.eqb_neq in H1, H2, H3.
  assert (Hn : forall n,
            LCS.normalize_lcs norm (a, b) n
            = (unrecognized_norm :: fst (LCS.dice (a, b) n),
               snd (LCS.dice (a, b) n))).
  { intros n. unfold LCS.normalize_lcs. rewrite H1, H2, H3.
    apply warn_bind. }
  unfold LCS.lcs_apply.
  destruct (accumulate_outcome min_len fuel (Some a, Some b) 0)
    as [-> | [n1 ->]]; [reflexivity|].
  destruct (accumulate_outcome min_len fuel (Some b, Some a) 0)
    as [-> | [n2 ->]]; [reflexivity|].
  rewrite !bind_ret, !Hn.
  change (LCS.normalize_lcs "dice" (a, b)) with (LCS.dice (a, b)).
  destruct (dice_cases (a, b)) as [Hr | Hr].
  - rewrite !Hr. reflexivity.
  - destruct (Hr n1) as [v1 ->]. destruct (Hr n2) as [v2 ->].
    rewrite (mean_returned
               (unrecognized_norm :: fst (ret v1), snd (ret v1))
               (unrecognized_norm :: fst (ret v2), snd (ret v2))
               [unrecognized_norm] [unrecognized_norm] v1 v2
               eq_refl eq_refl).
    rewrite (mean_returned (ret v1) (ret v2) [] [] v1 v2 eq_refl eq_refl).
    reflexivity.
Qed.

Lemma lcs_unrecognized_norm_witness :
  LCS.lcs_apply "cosine" 2 10 (Some (str "ABCDE"), Some (str "ABCXE"))
  = ([unrecognized_norm; unrecognized_norm], Returned (PyNum (Fin (3 # 5)))).
Proof.
  apply (lcs_unrecognized_norm "cosine" 2 10 (str "ABCDE") (str "ABCXE"));
    discriminate.
Defined.

(** ** Longest common substring: one round *)

(** X8. One round of [lcs_iteration] on two present strings: when the
    shorter one has fewer than [min_len] characters it returns length 0
    and no strings; otherwise it returns the length of a longest common
    substring and the two strings with the first occurrence of that
    substring cut out, each shorter by that length. *)
Theorem lcs_iteration_spec (min_len : Z) (str1 str2 : pystr) :
  ((Z.of_nat (Nat.min (length str1) (length str2)) < min_len)%Z ->
   LCS.lcs_iteration min_len (Some str1, Some str2) = ((None, None), 0))
  /\ (~ (Z.of_nat (Nat.min (length str1) (length str2)) < min_len)%Z ->
      exists w p1 q1 p2 q2,
        LCS.lcs_iteration min_len (Some str1, Some str2)
        = ((Some (p1 ++ q1), Some (p2 ++ q2)), length w)
        /\ longest_common_substring w str1 str2
        /\ first_occurrence w p1 q1 str1
        /\ first_occurrence w p2 q2 str2
        /\ length (p1 ++ q1) + length w = length str1
        /\ length (p2 ++ q2) + length w = length str2).
Proof.
  split.
  - intros Hshort. unfold LCS.lcs_iteration.
    destruct (Z.ltb_spec (Z.of_nat (Nat.min (length str1) (length str2)))
                min_len); [reflexivity|lia].
  - intros Hlong.
    destruct (lcs_iteration_round str1 str2 min_len Hlong)
      as (w & p1 & q1 & p2 & q2 & E & Hw & H1 & H2).
    exists w, p1, q1, p2, q2.
    split; [exact E|]. split; [exact Hw|].
    split; [exact H1|]. split; [exact H2|].
    destruct H1 as [E1 _], H2 as [E2 _].
    apply (f_equal length) in E1, E2. rewrite !length_app in *. lia.
Qed.

Lemma lcs_iteration_spec_witness :
  exists w p1 q1 p2 q2,
    LCS.lcs_iteration 2 (Some (str "ABCDE"), Some (str "xABCy"))
    = ((Some (p1 ++ q1), Some (p2 ++ q2)), length w)
    /\ longest_common_substring w (str "ABCDE") (str "xABCy")
    /\ first_occurrence w p1 q1 (str "ABCDE")
    /\ first_occurrence w p2 q2 (str "xABCy")
    /\ length (p1 ++ q1) + length w = length (str "ABCDE")
    /\ length (p2 ++ q2) + length w = length (str "xABCy").
Proof.
  apply (proj2 (lcs_iteration_spec 2 (str "ABCDE") (str "xABCy"))).
  simpl. lia.
Defined.

(** ** Smith-Waterman: the scores of a whole call *)

(** Rows that all return without warnings give a result without
    warnings. *)
Lemma apply_axis1_ret {A B} (f : A -> M B) (P : B -> Prop) (rows : list A) :
  (forall r, In r rows -> exists v, f r = ret v /\ P v) ->
  exists vs,
    apply_axis1 f rows = ret vs /\ length vs = length rows /\ Forall P vs.
Proof.
  induction rows as [|r rows IH]; intros Hall.
  - exists []. split; [reflexivity|]. split; [reflexivity|constructor].
  - destruct (Hall r (or_introl eq_refl)) as (v & Ev & Hv).
    destruct IH as (vs & Evs & Hlen & Hvs).
    { intros r' Hr'. apply Hall. right. exact Hr'. }
    exists (v :: vs). simpl. rewrite Ev, bind_ret, Evs, bind_ret.
    split; [reflexivity|]. split; [simpl; lia|constructor; assumption].
Qed.

Lemma unit_score_zero : unit_score (PyNum (Fin 0)).
Proof. right. exists 0%Q. split; [reflexivity|]. split; lra. Qed.

Lemma unit_score_nan : unit_score (PyNum NaN).
Proof. left. reflexivity. Qed.

Lemma sw_assert_passes (match_ mismatch gap_start gap_continue : Q) :
  (mismatch <= match_)%Q -> (gap_start <= match_)%Q ->
  (gap_continue <= match_)%Q ->
  Qle_bool (Qmax (Qmax mismatch gap_start) gap_continue) match_ = true.
Proof.
  intros H1 H2 H3. apply Qle_bool_iff.
  apply Q.max_lub; [apply Q.max_lub|]; assumption.
Qed.

(** The scores of a whole call in exact arithmetic: with a positive
    [match], a mismatch score at most [match] and gap scores at most 0,
    every row is the missing-value marker or a number between 0 and 1. *)
Lemma rational_scores_in_unit_interval
  (match_ mismatch gap_start gap_continue : Q) (norm : string)
  (s1 s2 : series) :
  (0 < match_)%Q -> (mismatch <= match_)%Q ->
  (gap_start <= 0)%Q -> (gap_continue <= 0)%Q ->
  norm = "min"%string \/ norm = "max"%string \/ norm = "mean"%string ->
  length s1 = length s2 ->
  exists scores,
    SmithWaterman.smith_waterman_similarity
      match_ mismatch gap_start gap_continue norm s1 s2 = ret scores
    /\ length scores = length s1 /\ Forall unit_score scores.
Proof.
  intros Hm Hmm Hgs Hgc Hnorm Hlen.
  unfold SmithWaterman.smith_waterman_similarity.
  rewrite sw_assert_passes by lra. simpl negb. cbv iota.
  rewrite Hlen, Nat.eqb_refl. simpl negb. cbv iota.
  destruct (Nat.eqb_spec (length s2) 0) as [E|_].
  { simpl andb. cbv iota. exists [].
    split; [reflexivity|]. split; [simpl; lia|constructor]. }
  simpl andb. cbv iota zeta.
  destruct (apply_axis1_ret
              (SmithWaterman.sw_apply match_ mismatch gap_start gap_continue
                 norm) unit_score (concat_axis1 s1 s2))
    as (vs & E & Hl & Hvs).
  - intros [[[|c a]|] [[|c' b]|]] _;
      try (exists (PyNum (Fin 0)); split;
           [reflexivity|apply unit_score_zero]);
      try (exists (PyNum NaN); split;
           [reflexivity|apply unit_score_nan]).
    destruct (smith_waterman_unit_interval match_ mismatch gap_start
                gap_continue (c :: a) (c' :: b) Hm Hmm Hgs Hgc norm)
      as (r & Er & Hr); [discriminate|discriminate|assumption|].
    exists (PyNum (Fin r)). split; [exact Er|].
    right. exists r. split; [reflexivity|exact Hr].
  - exists vs. split; [exact E|]. split; [|exact Hvs].
    rewrite Hl, length_concat_axis1. lia.
Qed.

(** X9. With integer scores, as the defaults are: a positive [match], a
    mismatch score at most [match], gap scores at most 0 and one of the
    three normalizations.  Smith-Waterman on two Series of equal length
    then raises nothing and returns one score per row, each the
    missing-value marker or a number between 0 and 1, as the docstring
    promises.  (Python adds integers exactly, so the cells are those of
    the embedding; with floating-point scores the sums are rounded and the
    last digit of a score can pass 1.) *)
Theorem smith_waterman_scores_in_unit_interval
  (match_ mismatch gap_start gap_continue : Z) (norm : string)
  (s1 s2 : series) :
  (0 < match_)%Z -> (mismatch <= match_)%Z ->
  (gap_start <= 0)%Z -> (gap_continue <= 0)%Z ->
  norm = "min"%string \/ norm = "max"%string \/ norm = "mean"%string ->
  length s1 = length s2 ->
  exists scores,
    SmithWaterman.smith_waterman_similarity
      (inject_Z match_) (inject_Z mismatch) (inject_Z gap_start)
      (inject_Z gap_continue) norm s1 s2 = ret scores
    /\ length scores = length s1 /\ Forall unit_score scores.
Proof.
  intros Hm Hmm Hgs Hgc Hnorm Hlen.
  apply rational_scores_in_unit_interval; try assumption.
  - change 0%Q with (inject_Z 0). rewrite <- Zlt_Qlt. exact Hm.
  - rewrite <- Zle_Qle. exact Hmm.
  - change 0%Q with (inject_Z 0). rewrite <- Zle_Qle. exact Hgs.
  - change 0%Q with (inject_Z 0). rewrite <- Zle_Qle. exact Hgc.
Qed.

Lemma smith_waterman_scores_in_unit_interval_witness :
  exists scores,
    SmithWaterman.smith_waterman_similarity
      (inject_Z 5) (inject_Z (-5)) (inject_Z (-5)) (inject_Z (-1)) "mean"
      [Some (str "abcd"); None; Some []]
      [Some (str "abxd"); Some (str "x"); None] = ret scores
    /\ length scores = 3 /\ Forall unit_score scores.
Proof.
  apply (smith_waterman_scores_in_unit_interval 5 (-5) (-5) (-1) "mean"
           [Some (str "abcd"); None; Some []]
           [Some (str "abxd"); Some (str "x"); None]);
    try lia.
  - right. right. reflexivity.
  - reflexivity.
Defined.

(** ** Smith-Waterman: a string against itself, and a [match] of 0 *)

Lemma char_eqb_refl (s : pystr) (i : nat) : char_eqb s i s i = true.
Proof. unfold char_eqb. apply bool_decide_eq_true. reflexivity. Qed.

(** On the diagonal of a string against itself every cell holds at least
    [match] times its index. *)
Lemma diagonal_above_cap (match_ mismatch gap_start gap_continue : Q)
  (a : pystr) (i : nat) :
  (0 < match_)%Q -> i <= length a ->
  (score_cap match_ i
   <= sw_score (SmithWaterman.run match_ mismatch gap_start gap_continue a a)
        i i)%Q.
Proof.
  intros Hm.
  destruct (sw_inv_run match_ mismatch gap_start gap_continue a a)
    as [_ _ Hfresh Hcells _ _].
  induction i as [|i IH]; intros Hi.
  - destruct (Hfresh 0 0) as [-> _]; [unfold processed; lia|].
    unfold score_cap. change (inject_Z (Z.of_nat 0)) with 0%Q. lra.
  - destruct (Hcells (S i) (S i)) as [Hs _]; [unfold processed; lia|].
    rewrite Hs, cell_score_max, cap_succ.
    eapply Qle_trans; [|apply Q.le_max_r].
    unfold sw_best. eapply Qle_trans; [|apply Q.le_max_l].
    eapply Qle_trans; [|apply Q.le_max_l].
    unfold sw_diagonal. replace (S i - 1) with i by lia.
    rewrite char_eqb_refl. specialize (IH ltac:(lia)). lra.
Qed.

Lemma compute_score_self (match_ mismatch gap_start gap_continue : Q)
  (a : pystr) :
  (0 < match_)%Q -> (mismatch <= match_)%Q ->
  (gap_start <= 0)%Q -> (gap_continue <= 0)%Q ->
  (SmithWaterman.compute_score match_ mismatch gap_start gap_continue a a
   == score_cap match_ (length a))%Q.
Proof.
  intros Hm Hmm Hgs Hgc.
  destruct (compute_score_below_cap match_ mismatch gap_start gap_continue
              a a Hm Hmm Hgs Hgc) as [_ Hhi].
  rewrite Nat.min_id in Hhi.
  destruct (sw_inv_run match_ mismatch gap_start gap_continue a a)
    as [_ _ _ _ Hbound _].
  pose proof (Hbound (length a) (length a)) as Hb.
  pose proof (diagonal_above_cap match_ mismatch gap_start gap_continue a
                (length a) Hm ltac:(lia)) as Hd.
  unfold SmithWaterman.compute_score in *. apply Qle_antisym; lra.
Qed.

(** A string against itself in exact arithmetic: with a positive
    [match], a mismatch score at most [match] and gap scores at most 0 the
    score is 1. *)
Lemma rational_identity (match_ mismatch gap_start gap_continue : Q)
  (norm : string) (a : pystr) :
  (0 < match_)%Q -> (mismatch <= match_)%Q ->
  (gap_start <= 0)%Q -> (gap_continue <= 0)%Q ->
  norm = "min"%string \/ norm = "max"%string \/ norm = "mean"%string ->
  a <> [] ->
  SmithWaterman.sw_apply match_ mismatch gap_start gap_continue norm
    (Some a, Some a) = ret (PyNum (Fin 1)).
Proof.
  intros Hm Hmm Hgs Hgc Hnorm Ha.
  pose proof (compute_score_self match_ mismatch gap_start gap_continue a
                Hm Hmm Hgs Hgc) as Hh.
  set (h := SmithWaterman.compute_score match_ mismatch gap_start
              gap_continue a a) in *.
  assert (Hl : 0 < length a) by (destruct a; [congruence|simpl; lia]).
  pose proof (inject_nat_pos (length a) Hl) as Hpos.
  assert (Hres : SmithWaterman.normalize match_ norm a a h
                 = ret (PyNum (Fin 1))).
  { unfold SmithWaterman.normalize. unfold score_cap in Hh.
    destruct Hnorm as [-> | [-> | ->]]; simpl String.eqb; cbv iota.
    - rewrite Nat.min_id, py_truediv_same; [reflexivity| |].
      + intros E. nra.
      + rewrite Hh. ring.
    - rewrite Nat.max_id, py_truediv_same; [reflexivity| |].
      + intros E. nra.
      + rewrite Hh. ring.
    - rewrite Nat2Z.inj_add, inject_Z_plus, py_truediv_same; [reflexivity| |].
      + intros E. nra.
      + rewrite Hh. ring. }
  unfold SmithWaterman.sw_apply. destruct a as [|c a']; [congruence|].
  simpl. simpl in Hres. fold h. rewrite Hres. reflexivity.
Qed.

(** X10. With integer scores, as the defaults are: a positive [match], a
    mismatch score at most [match] and gap scores at most 0.  A non-empty
    string then scores exactly 1 against itself under each of the three
    normalizations: the raw score is [match] times the length, an exact
    integer.  (With floating-point scores the raw score is a rounded sum
    and the quotient can miss 1 in the last digit.) *)
Theorem smith_waterman_identity (match_ mismatch gap_start gap_continue : Z)
  (norm : string) (a : pystr) :
  (0 < match_)%Z -> (mismatch <= match_)%Z ->
  (gap_start <= 0)%Z -> (gap_continue <= 0)%Z ->
  norm = "min"%string \/ norm = "max"%string \/ norm = "mean"%string ->
  a <> [] ->
  SmithWaterman.sw_apply (inject_Z match_) (inject_Z mismatch)
    (inject_Z gap_start) (inject_Z gap_continue) norm
    (Some a, Some a) = ret (PyNum (Fin 1)).
Proof.
  intros Hm Hmm Hgs Hgc Hnorm Ha.
  apply rational_identity; try assumption.
  - change 0%Q with (inject_Z 0). rewrite <- Zlt_Qlt. exact Hm.
  - rewrite <- Zle_Qle. exact Hmm.
  - change 0%Q with (inject_Z 0). rewrite <- Zle_Qle. exact Hgs.
  - change 0%Q with (inject_Z 0). rewrite <- Zle_Qle. exact Hgc.
Qed.

Lemma smith_waterman_identity_witness :
  SmithWaterman.sw_apply (inject_Z 5) (inject_Z (-5)) (inject_Z (-5))
    (inject_Z (-1)) "mean"
    (Some (str "abc"), Some (str "abc")) = ret (PyNum (Fin 1)).
Proof.
  apply (smith_waterman_identity 5 (-5) (-5) (-1) "mean" (str "abc"));
    try lia.
  - right. right. reflexivity.
  - discriminate.
Defined.

Lemma py_truediv_by_zero (n d : Q) :
  (d == 0)%Q -> py_truediv n d = raise ZeroDivisionError.
Proof.
  intros Hd. unfold py_truediv. apply Qeq_bool_iff in Hd.
  rewrite Hd. reflexivity.
Qed.

(** X11. A [match] of 0 passes the assertion when the other scores are at
    most 0, and then every pair of present non-empty strings raises
    [ZeroDivisionError] under each of the three normalizations:
    [normalize] divides by a multiple of [match], and the handler re-raises
    since neither element is missing. *)
Theorem smith_waterman_zero_match
  (match_ mismatch gap_start gap_continue : Q) (norm : string)
  (a b : pystr) :
  (match_ == 0)%Q ->
  norm = "min"%string \/ norm = "max"%string \/ norm = "mean"%string ->
  a <> [] -> b <> [] ->
  SmithWaterman.sw_apply match_ mismatch gap_start gap_continue norm
    (Some a, Some b) = raise ZeroDivisionError
  /\ ((mismatch <= 0)%Q -> (gap_start <= 0)%Q -> (gap_continue <= 0)%Q ->
      SmithWaterman.smith_waterman_similarity
        match_ mismatch gap_start gap_continue norm [Some a] [Some b]
      = raise ZeroDivisionError).
Proof.
  intros Hm Hnorm Ha Hb.
  assert (Hn : forall score,
            SmithWaterman.normalize match_ norm a b score
            = raise ZeroDivisionError).
  { intros score. unfold SmithWaterman.normalize.
    destruct Hnorm as [-> | [-> | ->]]; simpl String.eqb; cbv iota;
      rewrite py_truediv_by_zero; try reflexivity; rewrite Hm; ring. }
  assert (Hp : SmithWaterman.sw_apply match_ mismatch gap_start gap_continue
                 norm (Some a, Some b) = raise ZeroDivisionError).
  { unfold SmithWaterman.sw_apply.
    destruct a as [|c a']; [congruence|].
    destruct b as [|c' b']; [congruence|].
    simpl. rewrite Hn. reflexivity. }
  split; [exact Hp|].
  intros Hmm Hgs Hgc. unfold SmithWaterman.smith_waterman_similarity.
  rewrite sw_assert_passes by (rewrite Hm; assumption).
  simpl. rewrite Hp. reflexivity.
Qed.

Lemma smith_waterman_zero_match_witness :
  SmithWaterman.sw_apply 0 (-5) (-5) (-1) "mean"
    (Some (str "abc"), Some (str "abd")) = raise ZeroDivisionError.
Proof.
  apply (smith_waterman_zero_match 0 (-5) (-5) (-1) "mean"
           (str "abc") (str "abd")); try discriminate.
  - reflexivity.
  - right. right. reflexivity.
Defined.

(** ** Smith-Waterman: swapping the two strings *)

Lemma char_eqb_sym (s1 : pystr) (x : nat) (s2 : pystr) (y : nat) :
  char_eqb s1 x s2 y = char_eqb s2 y s1 x.
Proof. unfold char_eqb. apply bool_decide_ext. split; congruence. Qed.

Lemma py_truediv_compat (n n' d d' : Q) :
  (n == n')%Q -> (d == d')%Q -> py_truediv n d = py_truediv n' d'.
Proof.
  intros Hn Hd. unfold py_truediv.
  replace (Qeq_bool d' 0) with (Qeq_bool d 0).
  - destruct (Qeq_bool d 0); [reflexivity|].
    replace (Qred (n' / d')) with (Qred (n / d)); [reflexivity|].
    apply Qred_complete. rewrite Hn, Hd. reflexivity.
  - destruct (Qeq_bool d 0) eqn:E, (Qeq_bool d' 0) eqn:E'; try reflexivity.
    + apply Qeq_bool_iff in E. rewrite Hd in E. apply Qeq_bool_iff in E.
      congruence.
    + apply Qeq_bool_iff in E'. rewrite <- Hd in E'.
      apply Qeq_bool_iff in E'. congruence.
Qed.

Section SmithWatermanSwap.
Variables (match_ mismatch gap_start gap_continue : Q) (a b : pystr).

Local Abbreviation forth :=
  (SmithWaterman.run match_ mismatch gap_start gap_continue a b).
Local Abbreviation back :=
  (SmithWaterman.run match_ mismatch gap_start gap_continue b a).

(** The matrices of [(b, a)] are those of [(a, b)] transposed, with the
    labels of the two gap directions exchanged. *)
Lemma run_transposed (n i j : nat) :
  i + j <= n ->
  (sw_score forth i j == sw_score back j i)%Q
  /\ (SmithWaterman.L ∈ sw_labels forth i j
      <-> SmithWaterman.A ∈ sw_labels back j i)
  /\ (SmithWaterman.A ∈ sw_labels forth i j
      <-> SmithWaterman.L ∈ sw_labels back j i).
Proof.
  destruct (sw_inv_run match_ mismatch gap_start gap_continue a b)
    as [_ _ Hfresh Hcells _ _].
  destruct (sw_inv_run match_ mismatch gap_start gap_continue b a)
    as [_ _ Hfresh' Hcells' _ _].
  assert (Hout : forall i j,
            ~ (1 <= i <= length a /\ 1 <= j <= length b) ->
            (sw_score forth i j == sw_score back j i)%Q
            /\ (SmithWaterman.L ∈ sw_labels forth i j
                <-> SmithWaterman.A ∈ sw_labels back j i)
            /\ (SmithWaterman.A ∈ sw_labels forth i j
                <-> SmithWaterman.L ∈ sw_labels back j i)).
  { intros i' j' Hb.
    destruct (Hfresh i' j') as [-> ->]; [unfold processed; lia|].
    destruct (Hfresh' j' i') as [-> ->]; [unfold processed; lia|].
    split; [reflexivity|]. split; split; intros H; inversion H. }
  revert i j. induction n as [|n IH]; intros i j Hn.
  - apply Hout. lia.
  - destruct (decide (1 <= i <= length a /\ 1 <= j <= length b))
      as [[Hi Hj]|Hb]; [|apply Hout, Hb].
    destruct (Hcells i j) as [Hs Hl]; [unfold processed; lia|].
    destruct (Hcells' j i) as [Hs' Hl']; [unfold processed; lia|].
    destruct (IH (i - 1) (j - 1) ltac:(lia)) as (Hd1 & _ & _).
    destruct (IH (i - 1) j ltac:(lia)) as (Hl1 & Hl2 & _).
    destruct (IH i (j - 1) ltac:(lia)) as (Ha1 & _ & Ha2).
    assert (Hdiag :
      (sw_diagonal match_ mismatch a b forth i j
       == sw_diagonal match_ mismatch b a back j i)%Q).
    { unfold sw_diagonal. rewrite (char_eqb_sym b (j - 1) a (i - 1)), Hd1.
      reflexivity. }
    assert (Hleft :
      (sw_gap_left gap_start gap_continue forth i j
       == sw_gap_above gap_start gap_continue back j i)%Q).
    { unfold sw_gap_left, sw_gap_above.
      rewrite (bool_decide_ext _ _ Hl2), Hl1. reflexivity. }
    assert (Habove :
      (sw_gap_above gap_start gap_continue forth i j
       == sw_gap_left gap_start gap_continue back j i)%Q).
    { unfold sw_gap_left, sw_gap_above.
      rewrite (bool_decide_ext _ _ Ha2), Ha1. reflexivity. }
    assert (Hbest :
      (sw_best match_ mismatch gap_start gap_continue a b forth i j
       == sw_best match_ mismatch gap_start gap_continue b a back j i)%Q).
    { unfold sw_best. rewrite Hdiag, Hleft, Habove.
      rewrite <- !Q.max_assoc.
      rewrite (Q.max_comm (sw_gap_above gap_start gap_continue back j i)).
      reflexivity. }
    split; [rewrite Hs, Hs', !cell_score_max, Hbest; reflexivity|].
    rewrite Hl, Hl', !cell_labels_spec. unfold sw_move.
    rewrite Hbest, Hleft, Habove. split; reflexivity.
Qed.

Lemma compute_score_swap :
  (SmithWaterman.compute_score match_ mismatch gap_start gap_continue a b
   == SmithWaterman.compute_score match_ mismatch gap_start gap_continue
        b a)%Q.
Proof.
  destruct (sw_inv_run match_ mismatch gap_start gap_continue a b)
    as [_ _ _ _ Hbound (i & j & _ & _ & Hatt)].
  destruct (sw_inv_run match_ mismatch gap_start gap_continue b a)
    as [_ _ _ _ Hbound' (j' & i' & _ & _ & Hatt')].
  unfold SmithWaterman.compute_score.
  destruct (run_transposed (i + j) i j (le_n _)) as [H1 _].
  destruct (run_transposed (i' + j') i' j' (le_n _)) as [H2 _].
  pose proof (Hbound' j i). pose proof (Hbound i' j').
  apply Qle_antisym; lra.
Qed.

End SmithWatermanSwap.

Lemma normalize_swap (match_ : Q) (norm : string) (a b : pystr) (h h' : Q) :
  (h == h')%Q ->
  SmithWaterman.normalize match_ norm b a h'
  = SmithWaterman.normalize match_ norm a b h.
Proof.
  intros Hh. unfold SmithWaterman.normalize.
  rewrite (Nat.min_comm (length b)), (Nat.max_comm (length b)),
    (Nat.add_comm (length b)).
  destruct (String.eqb norm "min");
    [rewrite (py_truediv_compat h' h _ _ (Qeq_sym _ _ Hh) (Qeq_refl _));
     reflexivity|].
  destruct (String.eqb norm "max");
    [rewrite (py_truediv_compat h' h _ _ (Qeq_sym _ _ Hh) (Qeq_refl _));
     reflexivity|].
  destruct (String.eqb norm "mean"); [|reflexivity].
  rewrite (py_truediv_compat (2 * h') (2 * h) _ _
             ltac:(rewrite Hh; reflexivity) (Qeq_refl _)).
  reflexivity.
Qed.

(** The pair function does not depend on the order of the two elements,
    unless one is the empty string and the other is missing. *)
Lemma sw_apply_swap (match_ mismatch gap_start gap_continue : Q)
  (norm : string) (x0 x1 : elem) :
  ~ (x0 = Some [] /\ x1 = None) -> ~ (x0 = None /\ x1 = Some []) ->
  SmithWaterman.sw_apply match_ mismatch gap_start gap_continue norm (x1, x0)
  = SmithWaterman.sw_apply match_ mismatch gap_start gap_continue norm
      (x0, x1).
Proof.
  intros H1 H2.
  destruct x0 as [[|c a]|], x1 as [[|c' b]|]; try reflexivity.
  - exfalso. apply H1. split; reflexivity.
  - unfold SmithWaterman.sw_apply. simpl.
    rewrite (normalize_swap match_ norm (c :: a) (c' :: b)
               (SmithWaterman.compute_score match_ mismatch gap_start
                  gap_continue (c :: a) (c' :: b))
               (SmithWaterman.compute_score match_ mismatch gap_start
                  gap_continue (c' :: b) (c :: a)));
      [reflexivity|apply compute_score_swap].
  - exfalso. apply H2. split; reflexivity.
Qed.

Lemma concat_axis1_In (s1 s2 : series) (x y : elem) :
  length s1 = length s2 -> In (x, y) (concat_axis1 s1 s2) ->
  exists i, s1 !! i = Some x /\ s2 !! i = Some y.
Proof.
  revert s2. induction s1 as [|x' s1 IH]; intros [|y' s2] Hlen Hin;
    simpl in *; try lia; try contradiction.
  destruct Hin as [Hin | Hin].
  - injection Hin as -> ->. exists 0. split; reflexivity.
  - destruct (IH s2 ltac:(lia) Hin) as (i & Hi1 & Hi2).
    exists (S i). split; assumption.
Qed.

(** X12. Swapping the two Series leaves the Smith-Waterman similarity
    unchanged, errors and scores alike, provided no row pairs an empty
    string with a missing value (such a row scores 0 in one order and the
    missing-value marker in the other). *)
Theorem smith_waterman_symmetric
  (match_ mismatch gap_start gap_continue : Q) (norm : string)
  (s1 s2 : series) :
  (forall i, ~ (s1 !! i = Some (Some []) /\ s2 !! i = Some None)
             /\ ~ (s1 !! i = Some None /\ s2 !! i = Some (Some []))) ->
  SmithWaterman.smith_waterman_similarity
    match_ mismatch gap_start gap_continue norm s2 s1
  = SmithWaterman.smith_waterman_similarity
      match_ mismatch gap_start gap_continue norm s1 s2.
Proof.
  intros Hrows. unfold SmithWaterman.smith_waterman_similarity.
  destruct (negb (Qle_bool _ match_)); [reflexivity|].
  rewrite (Nat.eqb_sym (length s2)), (andb_comm (length s2 =? 0)).
  destruct (Nat.eqb_spec (length s1) (length s2)) as [Hlen|_];
    [|reflexivity].
  simpl negb. cbv iota.
  destruct ((length s1 =? 0) && (length s2 =? 0)); [reflexivity|].
  cbv zeta. rewrite (concat_axis1_swap s1 s2), apply_axis1_map.
  apply apply_axis1_ext. intros [x0 x1] Hin. cbn [fst snd].
  destruct (concat_axis1_In s1 s2 x0 x1 Hlen Hin) as (i & Hi1 & Hi2).
  destruct (Hrows i) as [Ha Hb].
  apply sw_apply_swap.
  - intros [-> ->]. apply Ha. split; assumption.
  - intros [-> ->]. apply Hb. split; assumption.
Qed.

Lemma smith_waterman_symmetric_witness :
  SmithWaterman.smith_waterman_similarity 5 (-5) (-5) (-1) "mean"
    [Some (str "abxd"); None] [Some (str "abcd"); Some (str "x")]
  = SmithWaterman.smith_waterman_similarity 5 (-5) (-5) (-1) "mean"
      [Some (str "abcd"); Some (str "x")] [Some (str "abxd"); None].
Proof.
  apply (smith_waterman_symmetric 5 (-5) (-5) (-1) "mean"
           [Some (str "abcd"); Some (str "x")] [Some (str "abxd"); None]).
  intros [|[|i]]; split; intros [H1 H2]; discriminate.
Defined.

(** ** q-gram similarity: the range of the scores *)

Lemma sum_zip_min_le (u v : list nat) :
  sum_list (zip_with Nat.min u v) <= Nat.min (sum_list u) (sum_list v).
Proof.
  revert v. induction u as [|x u IH]; intros [|y v]; simpl; try lia.
  specialize (IH v). lia.
Qed.

Lemma np_truediv_unit (m t : nat) :
  m <= t -> unit_score (PyNum (np_truediv (Z.of_nat m) (Z.of_nat t))).
Proof.
  intros H. unfold np_truediv.
  destruct (Z.eqb_spec (Z.of_nat t) 0) as [E|E].
  - destruct (Z.eqb_spec (Z.of_nat m) 0); [left; reflexivity|lia].
  - right. eexists. split; [reflexivity|]. rewrite Qred_correct.
    apply div_unit_interval.
    + apply inject_nat_pos. lia.
    + apply inject_nat_nonneg.
    + apply inject_nat_le, H.
Qed.

Lemma np_truediv_nan (m t : nat) :
  m <= t -> np_truediv (Z.of_nat m) (Z.of_nat t) = NaN <-> t = 0.
Proof.
  intros H. unfold np_truediv.
  destruct (Z.eqb_spec (Z.of_nat t) 0) as [E|E].
  - destruct (Z.eqb_spec (Z.of_nat m) 0); [|lia]. split; [lia|reflexivity].
  - split; [discriminate|lia].
Qed.

Lemma np_truediv_same (t : nat) :
  0 < t -> np_truediv (Z.of_nat t) (Z.of_nat t) = Fin 1.
Proof.
  intros H. unfold np_truediv.
  destruct (Z.eqb_spec (Z.of_nat t) 0) as [E|_]; [lia|].
  f_equal. transitivity (Qred 1); [apply Qred_complete|reflexivity].
  field. apply inject_nat_nonzero, H.
Qed.

Lemma sum_zip_min_same (u : list nat) :
  sum_list (zip_with Nat.min u u) = sum_list u.
Proof. induction u as [|x u IH]; simpl; [reflexivity|]. lia. Qed.

(** What [qgram_similarity] returns on Series of the same positive
    length, when the batch has n-grams. *)
Lemma qgram_similarity_value (build : analyzer_builder) (s1 s2 : series)
  (include_wb : bool) (ngram : nat * nat) :
  let analyze := build (if include_wb then char_wb else char) ngram in
  let vocab := vocabulary analyze (fillna (s1 ++ s2)) in
  length s1 = length s2 -> vocab <> [] ->
  qgram_similarity build s1 s2 include_wb ngram
  = ret (map PyNum
           (_metric_sparse_euclidean
              (map (count_row analyze vocab) (fillna s1))
              (map (count_row analyze vocab) (fillna s2)))).
Proof.
  intros analyze vocab Hlen Hvocab. unfold qgram_similarity.
  rewrite Hlen, Nat.eqb_refl. simpl negb. cbv iota.
  destruct (Nat.eqb_spec (length s2) 0) as [E|_].
  { exfalso. apply Hvocab. subst vocab.
    destruct s1; [|simpl in Hlen; lia]. destruct s2; [|simpl in E; lia].
    reflexivity. }
  simpl andb. cbv iota. rewrite <- Hlen. fold analyze.
  destruct (fit_transform_cases analyze (fillna (s1 ++ s2)))
    as [[Hnil _]|[_ ->]]; [contradiction|].
  rewrite bind_ret.
  destruct (count_matrix_take_drop analyze s1 s2) as [-> ->].
  reflexivity.
Qed.

Lemma Forall_zip_with {A B C} (P : C -> Prop) (f : A -> B -> C)
  (l : list A) (k : list B) :
  (forall x y, P (f x y)) -> Forall P (zip_with f l k).
Proof.
  intros H. revert k. induction l as [|x l IH]; intros [|y k]; simpl;
    constructor; [apply H|apply IH].
Qed.

(** X13. On two Series of the same length whose batch has n-grams, the
    q-gram similarity raises nothing and returns one score per row, each
    nan or a number between 0 and 1, never an infinity: the numerator is at
    most the denominator, so a zero denominator comes with a zero
    numerator. *)
Theorem qgram_scores_in_unit_interval (build : analyzer_builder)
  (s1 s2 : series) (include_wb : bool) (ngram : nat * nat) :
  length s1 = length s2 ->
  vocabulary (build (if include_wb then char_wb else char) ngram)
    (fillna (s1 ++ s2)) <> [] ->
  exists scores,
    qgram_similarity build s1 s2 include_wb ngram = ret scores
    /\ length scores = length s1 /\ Forall unit_score scores.
Proof.
  intros Hlen Hvocab.
  rewrite (qgram_similarity_value build s1 s2 include_wb ngram Hlen Hvocab).
  eexists. split; [reflexivity|]. split.
  - unfold _metric_sparse_euclidean.
    rewrite length_map, length_zip_with, !length_map, !length_fillna. lia.
  - apply Forall_map. apply Forall_zip_with. intros u v. cbv zeta.
    apply np_truediv_unit.
    pose proof (sum_zip_min_le u v). lia.
Qed.

Lemma qgram_scores_in_unit_interval_witness :
  exists scores,
    qgram_similarity reference_analyzer
      [Some (str "abc"); None] [Some (str "abd"); Some []] false (2, 2)
    = ret scores
    /\ length scores = 2 /\ Forall unit_score scores.
Proof.
  apply (qgram_scores_in_unit_interval reference_analyzer
           [Some (str "abc"); None] [Some (str "abd"); Some []] false (2, 2));
    [reflexivity|].
  vm_compute. discriminate.
Defined.

(** ** q-gram similarity: rows without n-grams, and equal strings *)

Lemma vocabulary_elem (analyze : pystr -> list pystr) (data : list pystr)
  (doc g : pystr) :
  doc ∈ data -> g ∈ analyze doc -> g ∈ vocabulary analyze data.
Proof.
  intros Hdoc Hg. unfold vocabulary.
  rewrite merge_sort_Permutation, elem_of_remove_dups.
  apply list_elem_of_In, in_concat. exists (analyze doc).
  split; [apply in_map, list_elem_of_In, Hdoc|apply list_elem_of_In, Hg].
Qed.

Lemma sum_list_map_ge {A} (f : A -> nat) (l : list A) (x : A) :
  x ∈ l -> f x <= sum_list (map f l).
Proof.
  induction 1 as [x l|x y l _ IH]; simpl; lia.
Qed.

Lemma sum_list_map_zero {A} (f : A -> nat) (l : list A) :
  (forall x, f x = 0) -> sum_list (map f l) = 0.
Proof.
  intros H. induction l as [|x l IH]; simpl; [reflexivity|].
  rewrite H, IH. reflexivity.
Qed.

Lemma count_ge_one (g : pystr) (grams : list pystr) :
  g ∈ grams -> 1 <= count g grams.
Proof.
  unfold count. induction 1 as [g l|g h l _ IH]; rewrite filter_cons.
  - destruct (decide (g = g)); [simpl; lia|contradiction].
  - destruct (decide (h = g)); simpl; lia.
Qed.

(** The row of a document sums to 0 exactly when the document has no
    n-grams, for a vocabulary that holds the document's n-grams. *)
Lemma count_row_sum_zero (analyze : pystr -> list pystr)
  (vocab : list pystr) (doc : pystr) :
  (forall g, g ∈ analyze doc -> g ∈ vocab) ->
  sum_list (count_row analyze vocab doc) = 0 <-> analyze doc = [].
Proof.
  intros Hsub. unfold count_row. split.
  - intros Hsum. destruct (analyze doc) as [|g grams] eqn:E; [reflexivity|].
    assert (Hg : g ∈ g :: grams) by (left).
    pose proof (sum_list_map_ge (fun h => count h (g :: grams)) vocab g
                  (Hsub g Hg)) as Hle.
    pose proof (count_ge_one g (g :: grams) Hg). simpl in Hle. lia.
  - intros ->. apply sum_list_map_zero. reflexivity.
Qed.

Lemma fillna_elem (s : series) (i : nat) (a : elem) :
  s !! i = Some a -> default [] a ∈ fillna s.
Proof.
  intros H. unfold fillna. apply list_elem_of_In, in_map, list_elem_of_In.
  eapply list_elem_of_lookup_2, H.
Qed.

(** The score of row [i], from the two rows of counts. *)
Lemma qgram_similarity_lookup (build : analyzer_builder) (s1 s2 : series)
  (include_wb : bool) (ngram : nat * nat) (i : nat) (a b : elem)
  (scores : list pyval) :
  let analyze := build (if include_wb then char_wb else char) ngram in
  let vocab := vocabulary analyze (fillna (s1 ++ s2)) in
  let u := count_row analyze vocab (default [] a) in
  let v := count_row analyze vocab (default [] b) in
  length s1 = length s2 -> s1 !! i = Some a -> s2 !! i = Some b ->
  qgram_similarity build s1 s2 include_wb ngram = ret scores ->
  scores !! i
  = Some (PyNum (np_truediv
            (Z.of_nat (sum_list (zip_with Nat.min u v)))
            (Z.of_nat (Nat.max (sum_list u) (sum_list v))))).
Proof.
  intros analyze vocab u v Hlen Ha Hb Hret.
  assert (Hvocab : vocab <> []).
  { intros Hnil. revert Hret. unfold qgram_similarity.
    rewrite Hlen, Nat.eqb_refl. simpl negb. cbv iota.
    destruct (Nat.eqb_spec (length s2) 0) as [E|_].
    { apply lookup_lt_Some in Hb. lia. }
    simpl andb. cbv iota. rewrite <- Hlen. fold analyze.
    destruct (fit_transform_cases analyze (fillna (s1 ++ s2)))
      as [[_ ->]|[Hne _]]; [discriminate|contradiction]. }
  rewrite (qgram_similarity_value build s1 s2 include_wb ngram Hlen Hvocab)
    in Hret.
  injection Hret as <-. fold analyze vocab.
  unfold _metric_sparse_euclidean, fillna.
  rewrite !map_fmap, list_lookup_fmap, lookup_zip_with.
  rewrite !list_lookup_fmap, Ha, Hb. reflexivity.
Qed.

(** X14. In the result of the q-gram similarity a row is nan exactly when
    neither of its two strings has an n-gram (a missing value counts as
    the empty string); every other row is a number. *)
Theorem qgram_nan_iff_no_ngrams (build : analyzer_builder) (s1 s2 : series)
  (include_wb : bool) (ngram : nat * nat) (i : nat) (a b : elem)
  (scores : list pyval) :
  let analyze := build (if include_wb then char_wb else char) ngram in
  length s1 = length s2 -> s1 !! i = Some a -> s2 !! i = Some b ->
  qgram_similarity build s1 s2 include_wb ngram = ret scores ->
  scores !! i = Some (PyNum NaN)
  <-> analyze (default [] a) = [] /\ analyze (default [] b) = [].
Proof.
  intros analyze Hlen Ha Hb Hret.
  rewrite (qgram_similarity_lookup build s1 s2 include_wb ngram i a b scores
             Hlen Ha Hb Hret).
  fold analyze.
  set (vocab := vocabulary analyze (fillna (s1 ++ s2))).
  set (u := count_row analyze vocab (default [] a)).
  set (v := count_row analyze vocab (default [] b)).
  assert (Hu : sum_list u = 0 <-> analyze (default [] a) = []).
  { apply count_row_sum_zero. intros g Hg.
    apply (vocabulary_elem analyze _ (default [] a)); [|exact Hg].
    unfold fillna. rewrite map_app. apply elem_of_app. left.
    apply (fillna_elem s1 i a Ha). }
  assert (Hv : sum_list v = 0 <-> analyze (default [] b) = []).
  { apply count_row_sum_zero. intros g Hg.
    apply (vocabulary_elem analyze _ (default [] b)); [|exact Hg].
    unfold fillna. rewrite map_app. apply elem_of_app. right.
    apply (fillna_elem s2 i b Hb). }
  pose proof (sum_zip_min_le u v) as Hle.
  rewrite <- Hu, <- Hv. split.
  - intros H. injection H as H. apply np_truediv_nan in H; lia.
  - intros [H1 H2]. do 2 f_equal. apply np_truediv_nan; lia.
Qed.

Lemma qgram_nan_iff_no_ngrams_witness :
  [PyNum (Fin (1 # 2)); PyNum NaN] !! 1 = Some (PyNum NaN)
  <-> reference_analyzer char (2, 2) (default [] None) = []
      /\ reference_analyzer char (2, 2) (default [] (Some (str "x"))) = [].
Proof.
  apply (qgram_nan_iff_no_ngrams reference_analyzer
           [Some (str "abc"); None] [Some (str "abd"); Some (str "x")]
           false (2, 2) 1 None (Some (str "x"))
           [PyNum (Fin (1 # 2)); PyNum NaN]);
    vm_compute; reflexivity.
Defined.

(** X15. A row whose two elements are the same string scores exactly 1
    in the q-gram similarity when the string has an n-gram. *)
Theorem qgram_identity (build : analyzer_builder) (s1 s2 : series)
  (include_wb : bool) (ngram : nat * nat) (i : nat) (a : elem)
  (scores : list pyval) :
  length s1 = length s2 -> s1 !! i = Some a -> s2 !! i = Some a ->
  build (if include_wb then char_wb else char) ngram (default [] a) <> [] ->
  qgram_similarity build s1 s2 include_wb ngram = ret scores ->
  scores !! i = Some (PyNum (Fin 1)).
Proof.
  intros Hlen Ha Hb Hgrams Hret.
  rewrite (qgram_similarity_lookup build s1 s2 include_wb ngram i a a scores
             Hlen Ha Hb Hret).
  set (analyze := build (if include_wb then char_wb else char) ngram) in *.
  set (vocab := vocabulary analyze (fillna (s1 ++ s2))).
  set (u := count_row analyze vocab (default [] a)).
  assert (Hu : sum_list u = 0 <-> analyze (default [] a) = []).
  { apply count_row_sum_zero. intros g Hg.
    apply (vocabulary_elem analyze _ (default [] a)); [|exact Hg].
    unfold fillna. rewrite map_app. apply elem_of_app. left.
    apply (fillna_elem s1 i a Ha). }
  rewrite sum_zip_min_same, Nat.max_id, np_truediv_same; [reflexivity|].
  destruct (sum_list u); [|lia]. exfalso. apply Hgrams, Hu. reflexivity.
Qed.

Lemma qgram_identity_witness :
  [PyNum (Fin 1); PyNum (Fin (1 # 2))] !! 0 = Some (PyNum (Fin 1)).
Proof.
  apply (qgram_identity reference_analyzer
           [Some (str "abc"); Some (str "abc")]
           [Some (str "abc"); Some (str "abd")]
           false (2, 2) 0 (Some (str "abc"))
           [PyNum (Fin 1); PyNum (Fin (1 # 2))]);
    try (vm_compute; reflexivity).
  vm_compute. discriminate.
Defined.

(** ** Cosine similarity *)

Lemma dot_cons (x y : nat) (u v : list nat) :
  dot (x :: u) (y :: v) = x * y + dot u v.
Proof. reflexivity. Qed.

Lemma cauchy_schwarz_step (x y p A B : Z) :
  (0 <= x)%Z -> (0 <= y)%Z -> (0 <= p)%Z -> (0 <= A)%Z -> (0 <= B)%Z ->
  (p * p <= A * B)%Z ->
  ((x * y + p) * (x * y + p) <= (x * x + A) * (y * y + B))%Z.
Proof.
  intros Hx Hy Hp HA HB H.
  assert (H1 : ((x * y) * (x * y) * (p * p)
                <= (x * y) * (x * y) * (A * B))%Z).
  { apply Z.mul_le_mono_nonneg_l; [nia|exact H]. }
  pose proof (Z.square_nonneg (x * x * B - y * y * A)) as H2.
  assert (H3 : (2 * (x * y * p) <= x * x * B + y * y * A)%Z).
  { destruct (Z_le_gt_dec (2 * (x * y * p)) (x * x * B + y * y * A))
      as [|G]; [assumption|exfalso].
    assert (0 <= x * x * B + y * y * A)%Z by nia.
    assert (G2 : ((x * x * B + y * y * A) * (x * x * B + y * y * A)
                  < (2 * (x * y * p)) * (2 * (x * y * p)))%Z).
    { apply Z.mul_lt_mono_nonneg; lia. }
    nia. }
  nia.
Qed.

(** The Cauchy-Schwarz inequality on count vectors. *)
Lemma dot_cauchy_schwarz (u v : list nat) :
  dot u v * dot u v <= dot u u * dot v v.
Proof.
  revert v. induction u as [|x u IH]; intros [|y v];
    [unfold dot; simpl; lia..|].
  rewrite !dot_cons. specialize (IH v).
  apply Nat2Z.inj_le. apply Nat2Z.inj_le in IH.
  rewrite !Nat2Z.inj_mul, !Nat2Z.inj_add, !Nat2Z.inj_mul in *.
  apply cauchy_schwarz_step; lia.
Qed.

Lemma dot_self_zero (u : list nat) : dot u u = 0 <-> sum_list u = 0.
Proof.
  induction u as [|x u IH]; [split; reflexivity|].
  rewrite dot_cons. simpl. split; intros H.
  - assert (x = 0) by nia. lia.
  - assert (x = 0) by lia. subst x. lia.
Qed.

Lemma INR_zero (n : nat) : INR n = 0%R -> n = 0.
Proof. intros H. destruct n; [reflexivity|]. apply not_0_INR in H; lia. Qed.

Lemma sqrt_INR_zero (n : nat) : sqrt (INR n) = 0%R -> n = 0.
Proof. intros H. apply INR_zero, sqrt_eq_0; [apply pos_INR|exact H]. Qed.

(** One row of [_metric_sparse_cosine]. *)
Lemma cosine_row (u v : list nat) :
  let c := np_divide (INR (dot v u))
             (sqrt (INR (dot u u)) * sqrt (INR (dot v v)))%R in
  runit_score c /\ (c = RNaN <-> dot u u = 0 \/ dot v v = 0).
Proof.
  cbv zeta. unfold np_divide.
  pose proof (dot_cauchy_schwarz u v) as Hcs.
  rewrite (dot_comm v u).
  destruct (Req_dec_T (sqrt (INR (dot u u)) * sqrt (INR (dot v v))) 0)
    as [E|E].
  - assert (Hz : dot u u = 0 \/ dot v v = 0).
    { apply Rmult_integral in E.
      destruct E as [E|E]; [left|right]; apply sqrt_INR_zero, E. }
    assert (Hp : dot u v = 0)
      by (destruct Hz as [Hz|Hz]; rewrite Hz in Hcs; nia).
    rewrite Hp. simpl INR. destruct (Req_dec_T 0 0) as [_|N]; [|lra].
    split; [left; reflexivity|]. split; [intros _; exact Hz|reflexivity].
  - assert (Hu : dot u u <> 0).
    { intros Hz. apply E. rewrite Hz. simpl INR. rewrite sqrt_0. lra. }
    assert (Hv : dot v v <> 0).
    { intros Hz. apply E. rewrite Hz. simpl INR. rewrite sqrt_0. lra. }
    split; [|split; [discriminate|lia]].
    right. eexists. split; [reflexivity|].
    assert (Hd : (0 < sqrt (INR (dot u u)) * sqrt (INR (dot v v)))%R).
    { apply Rmult_lt_0_compat; apply sqrt_lt_R0, lt_0_INR; lia. }
    assert (Hle : (INR (dot u v)
                   <= sqrt (INR (dot u u)) * sqrt (INR (dot v v)))%R).
    { rewrite <- sqrt_mult by apply pos_INR.
      rewrite <- (sqrt_square (INR (dot u v))) at 1 by apply pos_INR.
      apply sqrt_le_1_alt. rewrite <- !mult_INR. apply le_INR, Hcs. }
    split.
    + apply Rmult_le_pos; [apply pos_INR|].
      left. apply Rinv_0_lt_compat, Hd.
    + apply Rmult_le_reg_r
        with (sqrt (INR (dot u u)) * sqrt (INR (dot v v)))%R; [exact Hd|].
      unfold Rdiv. rewrite Rmult_assoc, Rinv_l, Rmult_1_r, Rmult_1_l;
        [exact Hle|lra].
Qed.

Lemma cosine_similarity_value (build : analyzer_builder) (s1 s2 : series)
  (include_wb : bool) (ngram : nat * nat) :
  let analyze := build (if include_wb then char_wb else char) ngram in
  let vocab := vocabulary analyze (fillna (s1 ++ s2)) in
  length s1 = length s2 -> vocab <> [] ->
  cosine_similarity build s1 s2 include_wb ngram
  = ret (_metric_sparse_cosine
           (map (count_row analyze vocab) (fillna s1))
           (map (count_row analyze vocab) (fillna s2))).
Proof.
  intros analyze vocab Hlen Hvocab. unfold cosine_similarity.
  rewrite Hlen, Nat.eqb_refl. simpl negb. cbv iota.
  destruct (Nat.eqb_spec (length s2) 0) as [E|_].
  { exfalso. apply Hvocab. subst vocab.
    destruct s1; [|simpl in Hlen; lia]. destruct s2; [|simpl in E; lia].
    reflexivity. }
  simpl andb. cbv iota. rewrite <- Hlen. fold analyze.
  destruct (fit_transform_cases analyze (fillna (s1 ++ s2)))
    as [[Hnil _]|[_ ->]]; [contradiction|].
  rewrite bind_ret.
  destruct (count_matrix_take_drop analyze s1 s2) as [-> ->].
  reflexivity.
Qed.

Lemma cosine_similarity_lookup (build : analyzer_builder) (s1 s2 : series)
  (include_wb : bool) (ngram : nat * nat) (i : nat) (a b : elem)
  (scores : list rfloat) :
  let analyze := build (if include_wb then char_wb else char) ngram in
  let vocab := vocabulary analyze (fillna (s1 ++ s2)) in
  let u := count_row analyze vocab (default [] a) in
  let v := count_row analyze vocab (default [] b) in
  length s1 = length s2 -> s1 !! i = Some a -> s2 !! i = Some b ->
  cosine_similarity build s1 s2 include_wb ngram = ret scores ->
  scores !! i
  = Some (np_divide (INR (dot v u))
            (sqrt (INR (dot u u)) * sqrt (INR (dot v v)))%R).
Proof.
  intros analyze vocab u v Hlen Ha Hb Hret.
  assert (Hvocab : vocab <> []).
  { intros Hnil. revert Hret. unfold cosine_similarity.
    rewrite Hlen, Nat.eqb_refl. simpl negb. cbv iota.
    destruct (Nat.eqb_spec (length s2) 0) as [E|_].
    { apply lookup_lt_Some in Hb. lia. }
    simpl andb. cbv iota. rewrite <- Hlen. fold analyze.
    destruct (fit_transform_cases analyze (fillna (s1 ++ s2)))
      as [[_ ->]|[Hne _]]; [discriminate|contradiction]. }
  rewrite (cosine_similarity_value build s1 s2 include_wb ngram Hlen Hvocab)
    in Hret.
  injection Hret as <-. fold analyze vocab.
  unfold _metric_sparse_cosine, fillna.
  rewrite !map_fmap, lookup_zip_with.
  rewrite !list_lookup_fmap, Ha, Hb. reflexivity.
Qed.

(** X16. On two Series of the same length whose batch has n-grams, the
    cosine similarity raises nothing and returns one score per row, each
    nan or a real number between 0 and 1, never an infinity (in the exact
    arithmetic of the embedding, by the Cauchy-Schwarz inequality). *)
Theorem cosine_scores_in_unit_interval (build : analyzer_builder)
  (s1 s2 : series) (include_wb : bool) (ngram : nat * nat) :
  length s1 = length s2 ->
  vocabulary (build (if include_wb then char_wb else char) ngram)
    (fillna (s1 ++ s2)) <> [] ->
  exists scores,
    cosine_similarity build s1 s2 include_wb ngram = ret scores
    /\ length scores = length s1 /\ Forall runit_score scores.
Proof.
  intros Hlen Hvocab.
  rewrite (cosine_similarity_value build s1 s2 include_wb ngram Hlen Hvocab).
  eexists. split; [reflexivity|]. split.
  - unfold _metric_sparse_cosine.
    rewrite length_zip_with, !length_map, !length_fillna. lia.
  - apply Forall_zip_with. intros u v. cbv zeta. apply cosine_row.
Qed.

Lemma cosine_scores_in_unit_interval_witness :
  exists scores,
    cosine_similarity reference_analyzer
      [Some (str "abc"); None] [Some (str "abd"); Some []] false (2, 2)
    = ret scores
    /\ length scores = 2 /\ Forall runit_score scores.
Proof.
  apply (cosine_scores_in_unit_interval reference_analyzer
           [Some (str "abc"); None] [Some (str "abd"); Some []] false (2, 2));
    [reflexivity|].
  vm_compute. discriminate.
Defined.

(** X17. In the result of the cosine similarity a row is nan exactly when
    one of its two strings has no n-gram (a missing value counts as the
    empty string): a single empty side is enough, where the q-gram
    similarity needs both. *)
Theorem cosine_nan_iff_no_ngrams (build : analyzer_builder) (s1 s2 : series)
  (include_wb : bool) (ngram : nat * nat) (i : nat) (a b : elem)
  (scores : list rfloat) :
  let analyze := build (if include_wb then char_wb else char) ngram in
  length s1 = length s2 -> s1 !! i = Some a -> s2 !! i = Some b ->
  cosine_similarity build s1 s2 include_wb ngram = ret scores ->
  scores !! i = Some RNaN
  <-> analyze (default [] a) = [] \/ analyze (default [] b) = [].
Proof.
  intros analyze Hlen Ha Hb Hret.
  rewrite (cosine_similarity_lookup build s1 s2 include_wb ngram i a b scores
             Hlen Ha Hb Hret).
  fold analyze.
  set (vocab := vocabulary analyze (fillna (s1 ++ s2))).
  set (u := count_row analyze vocab (default [] a)).
  set (v := count_row analyze vocab (default [] b)).
  assert (Hu : sum_list u = 0 <-> analyze (default [] a) = []).
  { apply count_row_sum_zero. intros g Hg.
    apply (vocabulary_elem analyze _ (default [] a)); [|exact Hg].
    unfold fillna. rewrite map_app. apply elem_of_app. left.
    apply (fillna_elem s1 i a Ha). }
  assert (Hv : sum_list v = 0 <-> analyze (default [] b) = []).
  { apply count_row_sum_zero. intros g Hg.
    apply (vocabulary_elem analyze _ (default [] b)); [|exact Hg].
    unfold fillna. rewrite map_app. apply elem_of_app. right.
    apply (fillna_elem s2 i b Hb). }
  destruct (cosine_row u v) as [_ Hnan].
  rewrite <- Hu, <- Hv, <- !dot_self_zero, <- Hnan.
  split; [intros H; injection H as H; exact H|intros ->; reflexivity].
Qed.

Lemma cosine_nan_iff_no_ngrams_witness :
  exists scores,
    cosine_similarity reference_analyzer
      [Some (str "abc"); Some (str "abc")] [Some (str "abd"); Some (str "x")]
      false (2, 2) = ret scores
    /\ (scores !! 1 = Some RNaN
        <-> reference_analyzer char (2, 2) (str "abc") = []
            \/ reference_analyzer char (2, 2) (str "x") = []).
Proof.
  eexists. split; [reflexivity|].
  apply (cosine_nan_iff_no_ngrams reference_analyzer
           [Some (str "abc"); Some (str "abc")]
           [Some (str "abd"); Some (str "x")]
           false (2, 2) 1 (Some (str "abc")) (Some (str "x")));
    reflexivity.
Defined.

(** X18. A row whose two elements are the same string scores 1 in the
    cosine similarity when the string has an n-gram (exactly 1 in the
    exact arithmetic of the embedding; the floating-point square roots of
    numpy can leave the last digit off). *)
Theorem cosine_identity (build : analyzer_builder) (s1 s2 : series)
  (include_wb : bool) (ngram : nat * nat) (i : nat) (a : elem)
  (scores : list rfloat) :
  length s1 = length s2 -> s1 !! i = Some a -> s2 !! i = Some a ->
  build (if include_wb then char_wb else char) ngram (default [] a) <> [] ->
  cosine_similarity build s1 s2 include_wb ngram = ret scores ->
  scores !! i = Some (RFin 1).
Proof.
  intros Hlen Ha Hb Hgrams Hret.
  rewrite (cosine_similarity_lookup build s1 s2 include_wb ngram i a a scores
             Hlen Ha Hb Hret).
  set (analyze := build (if include_wb then char_wb else char) ngram) in *.
  set (vocab := vocabulary analyze (fillna (s1 ++ s2))).
  set (u := count_row analyze vocab (default [] a)).
  assert (Hu : sum_list u = 0 <-> analyze (default [] a) = []).
  { apply count_row_sum_zero. intros g Hg.
    apply (vocabulary_elem analyze _ (default [] a)); [|exact Hg].
    unfold fillna. rewrite map_app. apply elem_of_app. left.
    apply (fillna_elem s1 i a Ha). }
  assert (Hpos : 0 < dot u u).
  { destruct (dot u u) eqn:E; [|lia]. exfalso.
    apply Hgrams, Hu, dot_self_zero, E. }
  unfold np_divide. rewrite sqrt_sqrt by apply pos_INR.
  apply lt_0_INR in Hpos.
  destruct (Req_dec_T (INR (dot u u)) 0) as [E|_]; [lra|].
  do 2 f_equal. field. lra.
Qed.

Lemma cosine_identity_witness :
  exists scores,
    cosine_similarity reference_analyzer
      [Some (str "abc"); Some (str "abc")] [Some (str "abc"); Some (str "x")]
      false (2, 2) = ret scores
    /\ scores !! 0 = Some (RFin 1).
Proof.
  eexists. split; [reflexivity|].
  apply (cosine_identity reference_analyzer
           [Some (str "abc"); Some (str "abc")]
           [Some (str "abc"); Some (str "x")]
           false (2, 2) 0 (Some (str "abc")));
    try reflexivity.
  vm_compute. discriminate.
Defined.

(** ** The scorers built on jellyfish: whole calls *)

(** X19. Swapping the two Series leaves the scores of the Jaro-Winkler
    and Damerau-Levenshtein similarities unchanged, provided the two
    primitives are symmetric on the pairs of present strings they are
    called on. *)
Theorem jarowinkler_damerau_symmetric (jf : jellyfish) (s1 s2 : series) :
  (forall i a b, s1 !! i = Some (Some a) -> s2 !! i = Some (Some b) ->
     jaro_winkler jf a b = jaro_winkler jf b a
     /\ damerau_levenshtein_distance jf a b
        = damerau_levenshtein_distance jf b a) ->
  jarowinkler_similarity jf s1 s2 = jarowinkler_similarity jf s2 s1
  /\ damerau_levenshtein_similarity jf s1 s2
     = damerau_levenshtein_similarity jf s2 s1.
Proof.
  intros Hsym.
  assert (Hrows : forall r, In r (concat_axis1 s1 s2) ->
            jaro_winkler_apply jf r = jaro_winkler_apply jf (snd r, fst r)
            /\ damerau_levenshtein_apply jf r
               = damerau_levenshtein_apply jf (snd r, fst r)).
  { intros [[a|] [b|]] Hin; try (split; reflexivity).
    destruct (concat_axis1_present _ _ _ _ Hin) as (i & H1 & H2).
    destruct (Hsym i a b H1 H2) as [Hj Hl].
    unfold jaro_winkler_apply, damerau_levenshtein_apply. simpl.
    rewrite Hj, Hl, (Nat.max_comm (length a) (length b)).
    split; reflexivity. }
  split.
  - unfold jarowinkler_similarity. cbv zeta.
    rewrite (concat_axis1_swap s1 s2), apply_axis1_map.
    apply apply_axis1_ext. intros r Hin. apply (Hrows r Hin).
  - unfold damerau_levenshtein_similarity. cbv zeta.
    rewrite (concat_axis1_swap s1 s2), apply_axis1_map.
    apply apply_axis1_ext. intros r Hin. apply (Hrows r Hin).
Qed.

Lemma jarowinkler_damerau_symmetric_witness :
  damerau_levenshtein_similarity Reference.jf
    [Some (str "abcd"); None; Some (str "MARTHA")]
    [Some (str "acbd"); Some (str "x"); Some (str "MARHTA")]
  = damerau_levenshtein_similarity Reference.jf
      [Some (str "acbd"); Some (str "x"); Some (str "MARHTA")]
      [Some (str "abcd"); None; Some (str "MARTHA")].
Proof.
  refine (proj2 (jarowinkler_damerau_symmetric Reference.jf
            [Some (str "abcd"); None; Some (str "MARTHA")]
            [Some (str "acbd"); Some (str "x"); Some (str "MARHTA")] _)).
  intros [|[|[|i]]] a b H1 H2; simpl in H1, H2; try discriminate;
    injection H1 as <-; injection H2 as <-; split; vm_compute; reflexivity.
Defined.

Lemma concat_axis1_lookup_padded (s1 s2 : series) (i : nat) :
  i < Nat.max (length s1) (length s2) ->
  concat_axis1 s1 s2 !! i
  = Some (default None (s1 !! i), default None (s2 !! i)).
Proof.
  revert s2 i. induction s1 as [|x s1 IH]; intros [|y s2] i Hi;
    simpl in Hi; try lia.
  - change (concat_axis1 [] (y :: s2))
      with (map (fun y : elem => (@None pystr, y)) (y :: s2)).
    rewrite map_fmap, list_lookup_fmap.
    destruct (lookup_lt_is_Some_2 (y :: s2) i Hi) as [z ->]. reflexivity.
  - change (concat_axis1 (x :: s1) [])
      with (map (fun x : elem => (x, @None pystr)) (x :: s1)).
    rewrite map_fmap, list_lookup_fmap.
    destruct (lookup_lt_is_Some_2 (x :: s1) i Hi) as [z ->].
    destruct i; reflexivity.
  - destruct i as [|i]; [reflexivity|]. simpl. apply IH. lia.
Qed.

(** Rows that all return without warnings: the result lists their values
    in order. *)
Lemma apply_axis1_rows {A B} (f : A -> M B) (rows : list A) :
  (forall r, In r rows -> exists v, f r = ret v) ->
  exists vs,
    apply_axis1 f rows = ret vs
    /\ Forall2 (fun r v => f r = ret v) rows vs.
Proof.
  induction rows as [|r rows IH]; intros Hall.
  - exists []. split; [reflexivity|constructor].
  - destruct (Hall r (or_introl eq_refl)) as (v & Ev).
    destruct IH as (vs & Evs & Hvs).
    { intros r' Hr'. apply Hall. right. exact Hr'. }
    exists (v :: vs). simpl. rewrite Ev, bind_ret, Evs, bind_ret.
    split; [reflexivity|constructor; assumption].
Qed.

(** A per-pair function that maps missing elements to nan and returns on
    the present pairs gives padded scores. *)
Lemma apply_axis1_padded (f : elem * elem -> M pyval) (s1 s2 : series) :
  (forall x, isnull (fst x) || isnull (snd x) = true ->
     f x = ret (PyNum NaN)) ->
  (forall i a b, s1 !! i = Some (Some a) -> s2 !! i = Some (Some b) ->
     exists v, f (Some a, Some b) = ret v) ->
  padded_scores s1 s2 (apply_axis1 f (concat_axis1 s1 s2)).
Proof.
  intros Hnull Hpresent.
  destruct (apply_axis1_rows f (concat_axis1 s1 s2)) as (vs & E & Hvs).
  { intros [[a|] [b|]] Hin.
    - destruct (concat_axis1_present s1 s2 a b Hin) as (i & H1 & H2).
      apply (Hpresent i a b H1 H2).
    - exists (PyNum NaN). apply Hnull. reflexivity.
    - exists (PyNum NaN). apply Hnull. reflexivity.
    - exists (PyNum NaN). apply Hnull. reflexivity. }
  exists vs. split; [exact E|].
  pose proof (Forall2_length _ _ _ Hvs) as Hlen.
  rewrite length_concat_axis1 in Hlen.
  split; [lia|]. intros i Hi Hmissing.
  destruct (lookup_lt_is_Some_2 vs i Hi) as [v Hv].
  pose proof (concat_axis1_lookup_padded s1 s2 i ltac:(lia)) as Hrow.
  pose proof (Forall2_lookup_lr _ _ _ _ _ _ Hvs Hrow Hv) as Hf.
  cbv beta in Hf.
  rewrite (Hnull (default None (s1 !! i), default None (s2 !! i)) Hmissing)
    in Hf.
  injection Hf as <-. exact Hv.
Qed.

(** X20. The four scorers built on jellyfish make no length check: where
    the primitives return on the pairs of present strings, each scorer
    returns one score for every row of the longer Series, and the score is
    nan on every row where an element is missing, in particular on all
    rows beyond the end of the shorter Series. *)
Theorem edit_distance_padded_scores (jf : jellyfish) (s1 s2 : series) :
  (forall i a b, s1 !! i = Some (Some a) -> s2 !! i = Some (Some b) ->
     (exists q, jaro_distance jf a b = inr q)
     /\ (exists q, jaro_winkler jf a b = inr q)
     /\ (exists d, levenshtein_distance jf a b = inr d)
     /\ (exists d, damerau_levenshtein_distance jf a b = inr d)) ->
  padded_scores s1 s2 (jaro_similarity jf s1 s2)
  /\ padded_scores s1 s2 (jarowinkler_similarity jf s1 s2)
  /\ padded_scores s1 s2 (levenshtein_similarity jf s1 s2)
  /\ padded_scores s1 s2 (damerau_levenshtein_similarity jf s1 s2).
Proof.
  intros Hprim.
  split; [|split; [|split]]; apply apply_axis1_padded;
    try (intros x Hx; apply (edit_distance_missing jf x Hx));
    intros i a b H1 H2;
    destruct (Hprim i a b H1 H2) as ([q Hj] & [q' Hw] & [d Hl] & [d' Hd]).
  - eexists. unfold jaro_apply. simpl. rewrite Hj. reflexivity.
  - eexists. unfold jaro_winkler_apply. simpl. rewrite Hw. reflexivity.
  - eexists. apply levenshtein_apply_present, Hl.
  - eexists. apply damerau_levenshtein_apply_present, Hd.
Qed.

Lemma edit_distance_padded_scores_witness :
  padded_scores [Some (str "a")] [Some (str "a"); Some (str "b")]
    (levenshtein_similarity Reference.jf
       [Some (str "a")] [Some (str "a"); Some (str "b")]).
Proof.
  refine (proj1 (proj2 (proj2 (edit_distance_padded_scores Reference.jf
            [Some (str "a")] [Some (str "a"); Some (str "b")] _)))).
  intros i a b _ _.
  split; [eexists; reflexivity|]. split; [eexists; reflexivity|].
  split; eexists; reflexivity.
Defined.

(** The first row that raises ends the call with its exception. *)
Lemma apply_axis1_raise {A B} (f : A -> M B) (rows : list A) (i : nat)
  (r : A) (e : exn) :
  rows !! i = Some r -> f r = raise e ->
  (forall j r', j < i -> rows !! j = Some r' -> exists v, f r' = ret v) ->
  apply_axis1 f rows = raise e.
Proof.
  revert i. induction rows as [|r0 rows IH]; intros i Hi Hr Hbefore;
    [discriminate|].
  destruct i as [|i]; simpl in Hi.
  - injection Hi as ->. simpl. rewrite Hr. reflexivity.
  - destruct (Hbefore 0 r0 ltac:(lia) eq_refl) as [v Hv].
    simpl. rewrite Hv, bind_ret, (IH i Hi Hr); [reflexivity|].
    intros j r' Hj Hr'. apply (Hbefore (S j) r'); [lia|exact Hr'].
Qed.

Lemma apply_axis1_first_raise (f : elem * elem -> M pyval) (s1 s2 : series)
  (i : nat) (a b : pystr) (e : exn) :
  (forall x, isnull (fst x) || isnull (snd x) = true ->
     f x = ret (PyNum NaN)) ->
  s1 !! i = Some (Some a) -> s2 !! i = Some (Some b) ->
  f (Some a, Some b) = raise e ->
  (forall j a' b', j < i ->
     s1 !! j = Some (Some a') -> s2 !! j = Some (Some b') ->
     exists v, f (Some a', Some b') = ret v) ->
  apply_axis1 f (concat_axis1 s1 s2) = raise e.
Proof.
  intros Hnull Ha Hb Hraise Hbefore.
  apply (apply_axis1_raise f _ i (Some a, Some b) e);
    [apply concat_axis1_lookup; assumption|exact Hraise|].
  intros j r' Hj Hr'.
  assert (Hlt : j < Nat.max (length s1) (length s2)).
  { rewrite <- length_concat_axis1. eapply lookup_lt_Some, Hr'. }
  rewrite (concat_axis1_lookup_padded s1 s2 j Hlt) in Hr'.
  injection Hr' as <-.
  destruct (s1 !! j) as [[a'|]|] eqn:E1, (s2 !! j) as [[b'|]|] eqn:E2;
    try (exists (PyNum NaN); apply Hnull; reflexivity).
  apply (Hbefore j a' b' Hj E1 E2).
Qed.

(** X21. An exception of the primitive on a row of two present strings
    ends the whole call with that exception when the primitive returns on
    the rows before it: the scores of the earlier rows are lost. *)
Theorem edit_distance_first_exception (jf : jellyfish) (s1 s2 : series)
  (i : nat) (a b : pystr) (e : exn) :
  s1 !! i = Some (Some a) -> s2 !! i = Some (Some b) ->
  (forall j a' b', j < i ->
     s1 !! j = Some (Some a') -> s2 !! j = Some (Some b') ->
     (exists q, jaro_distance jf a' b' = inr q)
     /\ (exists q, jaro_winkler jf a' b' = inr q)
     /\ (exists d, levenshtein_distance jf a' b' = inr d)
     /\ (exists d, damerau_levenshtein_distance jf a' b' = inr d)) ->
  (jaro_distance jf a b = inl e -> jaro_similarity jf s1 s2 = raise e)
  /\ (jaro_winkler jf a b = inl e ->
      jarowinkler_similarity jf s1 s2 = raise e)
  /\ (levenshtein_distance jf a b = inl e ->
      levenshtein_similarity jf s1 s2 = raise e)
  /\ (damerau_levenshtein_distance jf a b = inl e ->
      damerau_levenshtein_similarity jf s1 s2 = raise e).
Proof.
  intros Ha Hb Hbefore.
  destruct (edit_distance_reraise jf a b e) as (R1 & R2 & R3 & R4).
  split; [|split; [|split]]; intros Hraise;
    apply (apply_axis1_first_raise _ s1 s2 i a b e);
    try assumption;
    try (intros x Hx; apply (edit_distance_missing jf x Hx));
    try (intros j a' b' Hj H1 H2;
         destruct (Hbefore j a' b' Hj H1 H2)
           as ([q Hj'] & [q' Hw] & [d Hl] & [d' Hd])).
  - apply R1, Hraise.
  - eexists. unfold jaro_apply. simpl. rewrite Hj'. reflexivity.
  - apply R2, Hraise.
  - eexists. unfold jaro_winkler_apply. simpl. rewrite Hw. reflexivity.
  - apply R3, Hraise.
  - eexists. apply levenshtein_apply_present, Hl.
  - apply R4, Hraise.
  - eexists. apply damerau_levenshtein_apply_present, Hd.
Qed.

Lemma edit_distance_first_exception_witness :
  levenshtein_similarity
    {| jaro_distance := jaro_distance Reference.jf;
       jaro_winkler := jaro_winkler Reference.jf;
       levenshtein_distance := fun a b =>
         match a with
         | [] => inl (LibraryError 1)
         | _ => levenshtein_distance Reference.jf a b
         end;
       damerau_levenshtein_distance :=
         damerau_levenshtein_distance Reference.jf |}
    [Some (str "ab"); Some []; Some (str "c")]
    [Some (str "ac"); Some (str "x"); Some (str "c")]
  = raise (LibraryError 1).
Proof.
  refine (proj1 (proj2 (proj2 (edit_distance_first_exception _
            [Some (str "ab"); Some []; Some (str "c")]
            [Some (str "ac"); Some (str "x"); Some (str "c")]
            1 [] (str "x") (LibraryError 1) _ _ _))) _);
    try reflexivity.
  intros [|j] a' b' Hj H1 H2; [|lia].
  injection H1 as <-. injection H2 as <-.
  split; [eexists; reflexivity|]. split; [eexists; reflexivity|].
  split; eexists; reflexivity.
Defined.

(** ** Levenshtein and Damerau-Levenshtein: the range of the scores *)

Lemma one_minus_unit (d t : nat) :
  d <= t ->
  unit_score (PyNum (one_minus (np_truediv (Z.of_nat d) (Z.of_nat t)))).
Proof.
  intros H. unfold np_truediv.
  destruct (Z.eqb_spec (Z.of_nat t) 0) as [E|E].
  - destruct (Z.eqb_spec (Z.of_nat d) 0); [left; reflexivity|lia].
  - right. eexists. split; [reflexivity|]. rewrite !Qred_correct.
    destruct (div_unit_interval (inject_Z (Z.of_nat d))
                (inject_Z (Z.of_nat t))) as [H0 H1].
    + apply inject_nat_pos. lia.
    + apply inject_nat_nonneg.
    + apply inject_nat_le, H.
    + split; lra.
Qed.

(** X22. Where the two primitives return a distance that is at most the
    length of the longer string, as an edit distance is, the Levenshtein
    and Damerau-Levenshtein similarities raise nothing and every score is
    nan or a number between 0 and 1. *)
Theorem levenshtein_scores_in_unit_interval (jf : jellyfish)
  (s1 s2 : series) :
  (forall i a b, s1 !! i = Some (Some a) -> s2 !! i = Some (Some b) ->
     (exists d, levenshtein_distance jf a b = inr d
                /\ d <= Nat.max (length a) (length b))
     /\ (exists d, damerau_levenshtein_distance jf a b = inr d
                   /\ d <= Nat.max (length a) (length b))) ->
  (exists scores,
     levenshtein_similarity jf s1 s2 = ret scores
     /\ Forall unit_score scores)
  /\ (exists scores,
        damerau_levenshtein_similarity jf s1 s2 = ret scores
        /\ Forall unit_score scores).
Proof.
  intros Hprim. split.
  - destruct (apply_axis1_ret (levenshtein_apply jf) unit_score
                (concat_axis1 s1 s2)) as (vs & E & _ & Hvs);
      [|exists vs; split; assumption].
    intros [[a|] [b|]] Hin;
      try (exists (PyNum NaN); split;
           [apply edit_distance_missing; reflexivity|apply unit_score_nan]).
    destruct (concat_axis1_present s1 s2 a b Hin) as (i & H1 & H2).
    destruct (Hprim i a b H1 H2) as [(d & Hd & Hle) _].
    eexists. split; [apply levenshtein_apply_present, Hd|].
    apply one_minus_unit, Hle.
  - destruct (apply_axis1_ret (damerau_levenshtein_apply jf) unit_score
                (concat_axis1 s1 s2)) as (vs & E & _ & Hvs);
      [|exists vs; split; assumption].
    intros [[a|] [b|]] Hin;
      try (exists (PyNum NaN); split;
           [apply edit_distance_missing; reflexivity|apply unit_score_nan]).
    destruct (concat_axis1_present s1 s2 a b Hin) as (i & H1 & H2).
    destruct (Hprim i a b H1 H2) as [_ (d & Hd & Hle)].
    eexists. split; [apply damerau_levenshtein_apply_present, Hd|].
    apply one_minus_unit, Hle.
Qed.

Lemma levenshtein_scores_in_unit_interval_witness :
  exists scores,
    levenshtein_similarity Reference.jf
      [Some (str "kitten"); None; Some []]
      [Some (str "sitting"); Some (str "x"); Some []] = ret scores
    /\ Forall unit_score scores.
Proof.
  refine (proj1 (levenshtein_scores_in_unit_interval Reference.jf
            [Some (str "kitten"); None; Some []]
            [Some (str "sitting"); Some (str "x"); Some []] _)).
  intros [|[|[|i]]] a b H1 H2; simpl in H1, H2; try discriminate;
    injection H1 as <-; injection H2 as <-;
    split; eexists; (split; [reflexivity|simpl; lia]).
Defined.

(** ** Smith-Waterman: strings without a common character *)

Lemma cells_all_zero (match_ mismatch gap_start gap_continue : Q)
  (a b : pystr) (n x y : nat) :
  (mismatch <= 0)%Q -> (gap_start <= 0)%Q -> (gap_continue <= 0)%Q ->
  (forall i j c, a !! i = Some c -> b !! j = Some c -> False) ->
  x + y <= n ->
  sw_score (SmithWaterman.run match_ mismatch gap_start gap_continue a b)
    x y = 0%Q.
Proof.
  intros Hmm Hgs Hgc Hnone.
  destruct (sw_inv_run match_ mismatch gap_start gap_continue a b)
    as [_ _ Hfresh Hcells _ _].
  revert x y. induction n as [|n IH]; intros x y Hn.
  - apply Hfresh. unfold processed. lia.
  - destruct (decide (1 <= x <= length a /\ 1 <= y <= length b))
      as [[Hx Hy]|Hb]; [|apply Hfresh; unfold processed; lia].
    destruct (Hcells x y) as [Hs _]; [unfold processed; lia|].
    rewrite Hs. unfold cell_score.
    destruct (Qle_bool _ 0) eqn:E; [reflexivity|exfalso].
    assert (Hle : (sw_best match_ mismatch gap_start gap_continue a b
                     (SmithWaterman.run match_ mismatch gap_start
                        gap_continue a b) x y <= 0)%Q).
    { unfold sw_best, sw_diagonal, sw_gap_left, sw_gap_above.
      rewrite (IH (x - 1) (y - 1)), (IH (x - 1) y), (IH x (y - 1)) by lia.
      assert (Hc : char_eqb a (x - 1) b (y - 1) = false).
      { unfold char_eqb. apply bool_decide_eq_false. intros Heq.
        destruct (lookup_lt_is_Some_2 a (x - 1) ltac:(lia)) as [c Hc].
        apply (Hnone (x - 1) (y - 1) c Hc). rewrite <- Heq. exact Hc. }
      rewrite Hc.
      apply Q.max_lub; [apply Q.max_lub|]; [lra| |];
        destruct (bool_decide _); lra. }
    apply Qle_bool_iff in Hle. congruence.
Qed.

(** X23. Two non-empty strings that share no character score exactly 0
    when [match] is positive and the mismatch and gap scores are at most
    0: no cell of the score matrix rises above 0. *)
Theorem smith_waterman_nothing_in_common
  (match_ mismatch gap_start gap_continue : Q) (norm : string)
  (a b : pystr) :
  (0 < match_)%Q -> (mismatch <= 0)%Q ->
  (gap_start <= 0)%Q -> (gap_continue <= 0)%Q ->
  norm = "min"%string \/ norm = "max"%string \/ norm = "mean"%string ->
  a <> [] -> b <> [] ->
  (forall i j c, a !! i = Some c -> b !! j = Some c -> False) ->
  SmithWaterman.sw_apply match_ mismatch gap_start gap_continue norm
    (Some a, Some b) = ret (PyNum (Fin 0)).
Proof.
  intros Hm Hmm Hgs Hgc Hnorm Ha Hb Hnone.
  destruct (sw_inv_run match_ mismatch gap_start gap_continue a b)
    as [_ _ _ _ _ (i & j & _ & _ & Hatt)].
  rewrite (cells_all_zero match_ mismatch gap_start gap_continue a b
             (i + j) i j Hmm Hgs Hgc Hnone (le_n _)) in Hatt.
  fold (SmithWaterman.compute_score match_ mismatch gap_start gap_continue
          a b) in Hatt.
  set (h := SmithWaterman.compute_score match_ mismatch gap_start
              gap_continue a b) in *.
  assert (Hla : 0 < length a) by (destruct a; [congruence|simpl; lia]).
  assert (Hlb : 0 < length b) by (destruct b; [congruence|simpl; lia]).
  assert (Hd : forall k, 0 < k ->
            ~ (inject_Z (Z.of_nat k) * match_ == 0)%Q).
  { intros k Hk E. pose proof (inject_nat_pos k Hk). nra. }
  assert (Hres : SmithWaterman.normalize match_ norm a b h
                 = ret (PyNum (Fin 0))).
  { unfold SmithWaterman.normalize.
    destruct Hnorm as [-> | [-> | ->]]; simpl String.eqb; cbv iota.
    - rewrite (py_truediv_compat h (inject_Z 0) _ _
                 (Qeq_sym _ _ Hatt) (Qeq_refl _)).
      rewrite py_truediv_of_zero by (apply Hd; lia). reflexivity.
    - rewrite (py_truediv_compat h (inject_Z 0) _ _
                 (Qeq_sym _ _ Hatt) (Qeq_refl _)).
      rewrite py_truediv_of_zero by (apply Hd; lia). reflexivity.
    - rewrite (py_truediv_compat (2 * h) (inject_Z 0) _ _
                 ltac:(rewrite <- Hatt; reflexivity) (Qeq_refl _)).
      rewrite py_truediv_of_zero by (apply Hd; lia). reflexivity. }
  unfold SmithWaterman.sw_apply.
  destruct a as [|c a']; [congruence|]. destruct b as [|c' b']; [congruence|].
  simpl. simpl in Hres. fold h. rewrite Hres. reflexivity.
Qed.

Lemma smith_waterman_nothing_in_common_witness :
  SmithWaterman.sw_apply 5 (-5) (-5) (-1) "mean"
    (Some (str "ab"), Some (str "cd")) = ret (PyNum (Fin 0)).
Proof.
  apply (smith_waterman_nothing_in_common 5 (-5) (-5) (-1) "mean"
           (str "ab") (str "cd"));
    try (unfold Qlt, Qle; simpl; lia); try discriminate.
  - right. right. reflexivity.
  - intros [|[|i]] [|[|j]] c H1 H2; vm_compute in H1, H2; congruence.
Defined.
